(** * Marginalia: annotations on a rendered markdown document

    A shallow embedding of the TypeScript sources of Marginalia
    ([lib/types.ts], [hooks/useAnnotations.ts], [lib/export.ts],
    [lib/selection.ts], [components/DocumentView.tsx], and the handlers of
    [components/AnnotationPopover.tsx], [components/InputView.tsx],
    [components/Sidebar.tsx], [components/RawView.tsx] and [App.tsx]) and
    the properties proved about them: offset maintenance under edits, the
    order of the annotation list, the export format, the resolution of a
    selection to source offsets, the highlight pass over the rendered tree,
    and what the interface lets into the store.

    Conventions of the embedding:
    - a JavaScript [number] that holds an offset, a length or a timestamp is
      an integer [Z] (the program only adds, subtracts and compares them);
    - a JavaScript string is a [string] of 8-bit characters; [slice] and
      [trim] are written out, [slice] with the clamping of
      [String.prototype.slice];
    - [Array.prototype.sort] is the stable sort ECMAScript prescribes,
      computed by insertion;
    - React state ([useState]) is an explicit record threaded through the
      operations; the values read from the environment ([uuidv4()],
      [Date.now()]) are explicit arguments;
    - the DOM is a tree of Text and Element nodes; a node is referred to by
      its path from the root, and a function that mutates the tree in place
      returns the tree after the mutation.

    The file has two parts: the embedding with the vocabulary of the
    statements, then the properties. *)

From Stdlib Require Import List ZArith String Ascii Bool Lia.
From Stdlib Require Import Permutation Sorted.
Import ListNotations.
Open Scope string_scope.
Open Scope list_scope.
Open Scope Z_scope.
Set Warnings "-register-all".

(** ** JavaScript built-ins used by the sources *)

Module JS.

(** [s.length] *)
Definition length (s : string) : Z := Z.of_nat (String.length s).

(** The first [n] characters of [s] (all of it when it is shorter). *)
Fixpoint take (n : nat) (s : string) : string :=
  match n, s with
  | O, _ => EmptyString
  | S _, EmptyString => EmptyString
  | S n', String c s' => String c (take n' s')
  end.

(** [s] without its first [n] characters. *)
Fixpoint drop (n : nat) (s : string) : string :=
  match n, s with
  | O, _ => s
  | S _, EmptyString => EmptyString
  | S n', String _ s' => drop n' s'
  end.

(** The clamping of one argument of [slice] against a length [len]:
    a negative index counts from the end, and the result lies in
    [0 .. len]. *)
Definition clampIndex (len i : Z) : Z :=
  if i <? 0 then Z.max (len + i) 0 else Z.min i len.

(** [s.slice(from, to)] *)
Definition slice (s : string) (from to : Z) : string :=
  let len := length s in
  let k := clampIndex len from in
  let final := clampIndex len to in
  take (Z.to_nat (final - k)) (drop (Z.to_nat k) s).

(** [s.slice(from)]: the end defaults to [s.length]. *)
Definition sliceFrom (s : string) (from : Z) : string :=
  slice s from (length s).

(** White space as [trim] sees it, on the 8-bit characters of [string]:
    TAB, LF, VT, FF, CR, SPACE and NBSP. *)
Definition isWhiteSpace (c : ascii) : bool :=
  let n := nat_of_ascii c in
  (Nat.eqb n 9 || Nat.eqb n 10 || Nat.eqb n 11 || Nat.eqb n 12
   || Nat.eqb n 13 || Nat.eqb n 32 || Nat.eqb n 160)%bool.

Fixpoint trimStart (s : string) : string :=
  match s with
  | EmptyString => EmptyString
  | String c s' => if isWhiteSpace c then trimStart s' else s
  end.

Fixpoint trimEnd (s : string) : string :=
  match s with
  | EmptyString => EmptyString
  | String c s' =>
      match trimEnd s' with
      | EmptyString => if isWhiteSpace c then EmptyString else String c EmptyString
      | t => String c t
      end
  end.

(** [s.trim()] *)
Definition trim (s : string) : string := trimEnd (trimStart s).

Section Sort.
Context {A : Type} (compareFn : A -> A -> Z).

(** [x] is put in front of the first element it does not have to follow. *)
Fixpoint insertSorted (x : A) (l : list A) : list A :=
  match l with
  | [] => [x]
  | y :: l' => if compareFn x y <=? 0 then x :: l else y :: insertSorted x l'
  end.

(** [[...l].sort(compareFn)]: elements are inserted from the right, so an
    element stays in front of the later elements it compares equal to. *)
Definition sort (l : list A) : list A := fold_right insertSorted [] l.

End Sort.

(** [arr.filter(x => x !== null)] on an array that may hold [null]. *)
Fixpoint filterNotNull {A : Type} (l : list (option A)) : list A :=
  match l with
  | [] => []
  | None :: l' => filterNotNull l'
  | Some x :: l' => x :: filterNotNull l'
  end.

End JS.

(** ** lib/types.ts *)

Inductive AnnotationKind : Type := range | point.

Record Annotation : Type := mkAnnotation {
  id : string;
  kind : AnnotationKind;
  selectedText : string;
  note : string;
  markdownStartOffset : Z;
  markdownEndOffset : Z;
  createdAt : Z
}.

(** [{ ...a, note }] *)
Definition withNote (a : Annotation) (n : string) : Annotation :=
  mkAnnotation (id a) (kind a) (selectedText a) n
    (markdownStartOffset a) (markdownEndOffset a) (createdAt a).

(** [{ ...a, markdownStartOffset: s, markdownEndOffset: e }] *)
Definition withOffsets (a : Annotation) (s e : Z) : Annotation :=
  mkAnnotation (id a) (kind a) (selectedText a) (note a) s e (createdAt a).

(** ** hooks/useAnnotations.ts *)

Module UseAnnotations.

(** The two [useState] cells of the hook. *)
Record State : Type := mkState {
  annotations : list Annotation;
  activeAnnotationId : option string
}.

Definition initial : State := mkState [] None.

(** [addAnnotation]: [uuid] is the value of [uuidv4()] and [now] the value of
    [Date.now()] at the call.  The fifth argument is the [kind] that
    [DocumentView] passes along ([range] when it is left out). *)
Definition addAnnotation (uuid : string) (now : Z)
    (selectedText note : string) (startOffset endOffset : Z)
    (kind : AnnotationKind) (st : State) : string * State :=
  let annotation :=
    mkAnnotation uuid kind selectedText note startOffset endOffset now in
  (id annotation,
   mkState (annotations st ++ [annotation]) (activeAnnotationId st)).

Definition updateAnnotation (id0 note0 : string) (st : State) : State :=
  mkState
    (map (fun a => if String.eqb (id a) id0 then withNote a note0 else a)
         (annotations st))
    (activeAnnotationId st).

Definition deleteAnnotation (id0 : string) (st : State) : State :=
  mkState
    (filter (fun a => negb (String.eqb (id a) id0)) (annotations st))
    (match activeAnnotationId st with
     | Some prev => if String.eqb prev id0 then None else Some prev
     | None => None
     end).

Definition setActiveAnnotationId (v : option string) (st : State) : State :=
  mkState (annotations st) v.

(** The first [filter] of [shiftAnnotations]: [false] removes the
    annotation. *)
Definition keepOutsideEdit (editStart editEnd : Z) (a : Annotation) : bool :=
  if (markdownStartOffset a >=? editStart) && (markdownEndOffset a <=? editEnd)
  then false
  else true.

(** The [map] of [shiftAnnotations]: [None] is the [null] it returns for a
    partial overlap. *)
Definition shiftOrNull (editStart editEnd delta : Z) (a : Annotation)
    : option Annotation :=
  if markdownEndOffset a <=? editStart then Some a
  else if markdownStartOffset a >=? editEnd then
    Some (withOffsets a (markdownStartOffset a + delta)
                        (markdownEndOffset a + delta))
  else None.

(** The updater that [shiftAnnotations] hands to [setAnnotations]. *)
Definition shiftList (editStart editEnd newLength : Z)
    (prev : list Annotation) : list Annotation :=
  let delta := newLength - (editEnd - editStart) in
  JS.filterNotNull
    (map (shiftOrNull editStart editEnd delta)
         (filter (keepOutsideEdit editStart editEnd) prev)).

Definition shiftAnnotations (editStart editEnd newLength : Z) (st : State)
    : State :=
  mkState (shiftList editStart editEnd newLength (annotations st))
          (activeAnnotationId st).

(** [sortedAnnotations], the list the hook returns as [annotations]. *)
Definition sortedAnnotations (st : State) : list Annotation :=
  JS.sort (fun a b => markdownStartOffset a - markdownStartOffset b)
          (annotations st).

(** One call on the hook's operations, with what the call reads from the
    environment. *)
Inductive Op : Type :=
| OpAdd (uuid : string) (now : Z) (selectedText note : string)
        (startOffset endOffset : Z) (kind : AnnotationKind)
| OpUpdate (id0 note0 : string)
| OpDelete (id0 : string)
| OpShift (editStart editEnd newLength : Z).

Definition step (st : State) (op : Op) : State :=
  match op with
  | OpAdd u t sel n s e k => snd (addAnnotation u t sel n s e k st)
  | OpUpdate i n => updateAnnotation i n st
  | OpDelete i => deleteAnnotation i st
  | OpShift es ee nl => shiftAnnotations es ee nl st
  end.

Definition run (ops : list Op) : State := fold_left step ops initial.

(** The readings of [Date.now()] made by a sequence of calls, in order. *)
Fixpoint clockReadings (ops : list Op) : list Z :=
  match ops with
  | [] => []
  | OpAdd _ t _ _ _ _ _ :: ops' => t :: clockReadings ops'
  | _ :: ops' => clockReadings ops'
  end.

End UseAnnotations.

(** ** lib/export.ts *)

Module LibExport.

Definition generateExport (markdown : string) (annotations : list Annotation)
    : string :=
  if Nat.eqb (List.length annotations) 0 then markdown
  else
    (* Sort by start offset descending so insertions don't shift earlier offsets *)
    let sorted :=
      JS.sort (fun a b => markdownStartOffset b - markdownStartOffset a)
              annotations in
    fold_left
      (fun result ann =>
         let note := ("{" ++ note ann ++ "}")%string in
         match kind ann with
         | point =>
             (JS.slice result 0 (markdownStartOffset ann)
              ++ note
              ++ JS.sliceFrom result (markdownStartOffset ann))%string
         | range =>
             (JS.slice result 0 (markdownEndOffset ann)
              ++ " " ++ note
              ++ JS.sliceFrom result (markdownEndOffset ann))%string
         end)
      sorted markdown.

End LibExport.

(** ** The rendered document

    The DOM as the sources use it.  The attributes that the sources read or
    write are fields of [Attributes]: [data-source-start] and
    [data-source-end] hold the numbers that the rehype plugin of
    [lib/remarkSourcePositions.ts] stores, so their fields hold what
    [parseInt(_, 10)] reads back; [None] is an absent attribute.  A node is
    referred to by its path, the child indices that lead to it from the
    root. *)

Module Dom.

Record Attributes : Type := mkAttributes {
  dataSourceStart : option Z;
  dataSourceEnd : option Z;
  dataAnnotationId : option string;
  dataPointAnnotationId : option string;
  className : string
}.

Inductive Node : Type :=
| Text (data : string)
| Element (tagName : string) (attributes : Attributes) (childNodes : list Node).

Definition Path : Type := list nat.

Definition noAttributes : Attributes := mkAttributes None None None None "".

(** An element as the renderer emits it, with its source span. *)
Definition sourceAttributes (s e : Z) : Attributes :=
  mkAttributes (Some s) (Some e) None None "".

Fixpoint getNode (n : Node) (p : Path) : option Node :=
  match p with
  | [] => Some n
  | i :: p' =>
      match n with
      | Element _ _ cs =>
          match nth_error cs i with
          | Some c => getNode c p'
          | None => None
          end
      | Text _ => None
      end
  end.

Fixpoint pathEqb (p q : Path) : bool :=
  match p, q with
  | [], [] => true
  | i :: p', j :: q' => Nat.eqb i j && pathEqb p' q'
  | _, _ => false
  end.

Fixpoint isPrefix (p q : Path) : bool :=
  match p, q with
  | [], _ => true
  | i :: p', j :: q' => Nat.eqb i j && isPrefix p' q'
  | _ :: _, [] => false
  end.

(** [node.parentElement]; the root has none. *)
Definition parentElement (p : Path) : option Path :=
  match p with
  | [] => None
  | _ => Some (removelast p)
  end.

(** [container.contains(node)]: [node] is [container] or lies below it. *)
Definition contains (doc : Node) (container node : Path) : bool :=
  isPrefix container node
  && match getNode doc node with Some _ => true | None => false end.

(** The Text nodes below [n] in document order, each with its path from [n]:
    the nodes a [TreeWalker] with [NodeFilter.SHOW_TEXT] visits. *)
Fixpoint textNodes (n : Node) : list (Path * string) :=
  match n with
  | Text d => [([], d)]
  | Element _ _ cs =>
      (fix children (i : nat) (cs : list Node) : list (Path * string) :=
         match cs with
         | [] => []
         | c :: cs' =>
             map (fun pd => (i :: fst pd, snd pd)) (textNodes c)
             ++ children (S i) cs'
         end) 0%nat cs
  end.

(** [node.textContent] *)
Fixpoint textContent (n : Node) : string :=
  match n with
  | Text d => d
  | Element _ _ cs =>
      (fix children (cs : list Node) : string :=
         match cs with
         | [] => ""
         | c :: cs' => (textContent c ++ children cs')%string
         end) cs
  end.

(** The node at [p] replaced, among the children of its parent, by the nodes
    [new]. *)
Fixpoint replaceWith (n : Node) (p : Path) (new : list Node) : Node :=
  match n, p with
  | Element tag attrs cs, i :: p' =>
      match p' with
      | [] => Element tag attrs (firstn i cs ++ new ++ skipn (S i) cs)
      | _ :: _ =>
          Element tag attrs
            ((fix child (i : nat) (cs : list Node) : list Node :=
                match cs, i with
                | [], _ => []
                | c :: cs', O => replaceWith c p' new :: cs'
                | c :: cs', S i' => c :: child i' cs'
                end) i cs)
      end
  | _, _ => n
  end.

(** A range of the selection, as its two boundary points. *)
Record Range : Type := mkRange {
  startContainer : Path;
  startOffset : Z;
  endContainer : Path;
  endOffset : Z
}.

(** [range.collapsed]: the boundary points coincide. *)
Definition collapsed (r : Range) : bool :=
  pathEqb (startContainer r) (endContainer r)
  && (startOffset r =? endOffset r).

(** A [Selection]: its ranges, and the text [toString()] gives for it. *)
Record Selection : Type := mkSelection {
  ranges : list Range;
  toString : string
}.

Definition rangeCount (s : Selection) : nat := List.length (ranges s).

End Dom.

(** ** lib/selection.ts *)

Module Selection.
Import Dom.

Record MarkdownRange : Type := mkMarkdownRange {
  startOffset : Z;
  endOffset : Z;
  selectedText : string
}.

Inductive Which : Type := whichStart | whichEnd.

(** The loop of [getTextOffsetInElement] over the Text nodes the walker
    yields, [count] being the characters passed so far. *)
Fixpoint countUpTo (nodes : list (Path * string)) (target : Path)
    (targetOffset count : Z) : Z :=
  match nodes with
  | [] => count
  | (p, d) :: rest =>
      if pathEqb p target then count + targetOffset
      else countUpTo rest target targetOffset (count + JS.length d)
  end.

(** [getTextOffsetInElement(root, targetNode, targetOffset)], with [root] and
    [targetNode] given by their paths in [doc]. *)
Definition getTextOffsetInElement (doc : Node) (root targetNode : Path)
    (targetOffset : Z) : Z :=
  match getNode doc root with
  | Some r =>
      countUpTo (map (fun pd => (root ++ fst pd, snd pd)) (textNodes r))
                targetNode targetOffset 0
  | None => 0
  end.

(** The [while (el)] loop of [findSourcePosition]: [up] is the path of [el]
    read from the element towards the root, so that [el.parentElement] is its
    tail. *)
Fixpoint walkUp (doc : Node) (node : Path) (offset : Z) (which : Which)
    (up : list nat) : option Z :=
  match getNode doc (rev up) with
  | Some (Element _ attrs _) =>
      match dataSourceStart attrs, dataSourceEnd attrs with
      | Some start, Some end_ =>
          match which with
          | whichStart =>
              let textBefore := getTextOffsetInElement doc (rev up) node offset in
              Some (Z.min (start + textBefore) end_)
          | whichEnd =>
              let textBefore := getTextOffsetInElement doc (rev up) node offset in
              Some (Z.min (start + textBefore) end_)
          end
      | _, _ =>
          match up with
          | [] => None
          | _ :: up' => walkUp doc node offset which up'
          end
      end
  | _ => None
  end.

Definition findSourcePosition (doc : Node) (node : Path) (offset : Z)
    (which : Which) : option Z :=
  match getNode doc node with
  | Some (Element _ _ _) => walkUp doc node offset which (rev node)
  | Some (Text _) =>
      match parentElement node with
      | Some el => walkUp doc node offset which (rev el)
      | None => None
      end
  | None => None
  end.

Definition selectionToMarkdownRange (doc : Node) (selection : Selection)
    (containerEl : Path) : option MarkdownRange :=
  match ranges selection with
  | [] => None
  | rng :: _ =>
      if collapsed rng then None
      else if negb (contains doc containerEl (startContainer rng))
              || negb (contains doc containerEl (endContainer rng))
      then None
      else
        let selectedText := JS.trim (toString selection) in
        if String.eqb selectedText "" then None
        else
          let startPos :=
            findSourcePosition doc (startContainer rng)
                               (Dom.startOffset rng) whichStart in
          let endPos :=
            findSourcePosition doc (endContainer rng)
                               (Dom.endOffset rng) whichEnd in
          match startPos, endPos with
          | Some s, Some e => Some (mkMarkdownRange s e selectedText)
          | _, _ => None
          end
  end.

Definition clickToMarkdownOffset (doc : Node) (node : Path) (offset : Z)
    (containerEl : Path) : option Z :=
  if negb (contains doc containerEl node) then None
  else findSourcePosition doc node offset whichStart.

End Selection.

(** ** components/DocumentView.tsx: the highlight pass

    [applyHighlights] mutates the container in place; here it is a function
    from the container before the call to the container after it.  The
    listeners attached to markers do not change the tree and are left out. *)

Module DocumentView.
Import Dom.

(** [x !== null] *)
Definition isSome {A : Type} (o : option A) : bool :=
  match o with Some _ => true | None => false end.

(** Matches [mark[data-annotation-id]]. *)
Definition isAnnotationMark (n : Node) : bool :=
  match n with
  | Element tag attrs _ => String.eqb tag "MARK" && isSome (dataAnnotationId attrs)
  | Text _ => false
  end.

(** Matches [span[data-point-annotation-id]]. *)
Definition isPointMarker (n : Node) : bool :=
  match n with
  | Element tag attrs _ =>
      String.eqb tag "SPAN" && isSome (dataPointAnnotationId attrs)
  | Text _ => false
  end.

(** Matches [[data-source-start][data-source-end]]. *)
Definition hasSourcePosition (n : Node) : bool :=
  match n with
  | Element _ attrs _ =>
      isSome (dataSourceStart attrs) && isSome (dataSourceEnd attrs)
  | Text _ => false
  end.

(** The children of a node after [normalize]: every run of adjacent Text
    nodes becomes one Text node with their data, and an empty one is
    removed. *)
Fixpoint mergeText (cs : list Node) : list Node :=
  match cs with
  | [] => []
  | Text d :: rest =>
      match mergeText rest with
      | Text d' :: rest' => Text (d ++ d') :: rest'
      | merged => if String.eqb d "" then merged else Text d :: merged
      end
  | e :: rest => e :: mergeText rest
  end.

(** [node.normalize()], which works on the whole subtree. *)
Fixpoint normalize (n : Node) : Node :=
  match n with
  | Text d => Text d
  | Element tag attrs cs => Element tag attrs (mergeText (map normalize cs))
  end.

(** [node.childNodes] *)
Definition children (n : Node) : list Node :=
  match n with
  | Element _ _ cs => cs
  | Text _ => []
  end.

(** One turn of the [forEach] over [mark[data-annotation-id]]: the first
    such mark below [n] in document order has its children moved in front of
    it and is removed, and its parent is normalized.  [None] when there is no
    mark.  (The marks of the static list that are still to be visited are
    the marks left in the tree, in the same order, so visiting the list is
    taking the first remaining mark until none is left.) *)
Fixpoint unwrapFirstMark (n : Node) : option Node :=
  match n with
  | Text _ => None
  | Element tag attrs cs =>
      match
        (fix among (cs : list Node) : option (list Node * bool) :=
           match cs with
           | [] => None
           | c :: rest =>
               if isAnnotationMark c then Some (children c ++ rest, true)
               else
                 match unwrapFirstMark c with
                 | Some c' => Some (c' :: rest, false)
                 | None =>
                     match among rest with
                     | Some (rest', here) => Some (c :: rest', here)
                     | None => None
                     end
                 end
           end) cs
      with
      | Some (cs', true) => Some (normalize (Element tag attrs cs'))
      | Some (cs', false) => Some (Element tag attrs cs')
      | None => None
      end
  end.

(** The number of [mark[data-annotation-id]] elements below [n]. *)
Fixpoint countMarks (n : Node) : nat :=
  match n with
  | Text _ => 0%nat
  | Element _ _ cs =>
      (fix among (cs : list Node) : nat :=
         match cs with
         | [] => 0%nat
         | c :: rest =>
             ((if isAnnotationMark c then 1 else 0) + countMarks c + among rest)%nat
         end) cs
  end.

Fixpoint unwrapMarks (turns : nat) (n : Node) : Node :=
  match turns with
  | O => n
  | S turns' =>
      match unwrapFirstMark n with
      | Some n' => unwrapMarks turns' n'
      | None => n
      end
  end.

(** The first [forEach] of [applyHighlights]: one turn per mark. *)
Definition removeMarks (container : Node) : Node :=
  unwrapMarks (countMarks container) container.

(** The second [forEach]: every [span[data-point-annotation-id]] is removed
    from its parent. *)
Fixpoint removePointMarkers (n : Node) : Node :=
  match n with
  | Text d => Text d
  | Element tag attrs cs =>
      Element tag attrs
        ((fix among (cs : list Node) : list Node :=
            match cs with
            | [] => []
            | c :: rest =>
                if isPointMarker c then among rest
                else removePointMarkers c :: among rest
            end) cs)
  end.

(** The paths of the elements below [n] that match
    [[data-source-start][data-source-end]], in document order: the members
    of [container.querySelectorAll(...)]. *)
Fixpoint sourceElements (n : Node) : list Path :=
  match n with
  | Text _ => []
  | Element _ _ cs =>
      (fix among (i : nat) (cs : list Node) : list Path :=
         match cs with
         | [] => []
         | c :: rest =>
             (if hasSourcePosition c then [[i]] else [])
             ++ map (cons i) (sourceElements c)
             ++ among (S i) rest
         end) 0%nat cs
  end.

(** [parseInt(el.getAttribute('data-source-start')!, 10)] and the same for
    [data-source-end], for an element that matched the selector. *)
Definition sourceSpan (n : Node) : Z * Z :=
  match n with
  | Element _ attrs _ =>
      (match dataSourceStart attrs with Some s => s | None => 0 end,
       match dataSourceEnd attrs with Some e => e | None => 0 end)
  | Text _ => (0, 0)
  end.

(** [textNode.parentElement?.tagName], for a Text node below [el]. *)
Definition parentTagName (el : Node) (textNode : Path) : option string :=
  match getNode el (removelast textNode) with
  | Some (Element tag _ _) => Some tag
  | _ => None
  end.

(** The [mark] element that [wrapAnnotationRange] creates. *)
Definition newMark (annotation : Annotation) (isActive : bool)
    (content : list Node) : Node :=
  Element "MARK"
    (mkAttributes None None (Some (id annotation)) None
       (if isActive then "active" else ""))
    content.

(** The [span] element that [insertPointMarker] creates. *)
Definition newPointMarker (annotation : Annotation) (isActive : bool) : Node :=
  Element "SPAN"
    (mkAttributes None None (Some (id annotation)) (Some (id annotation))
       ("inline-block w-2 h-2 rounded-full mx-0.5 align-middle cursor-pointer "
        ++ (if isActive then "bg-sienna-500"
            else "bg-sienna-400/60 hover:bg-sienna-500"))%string)
    [].

(** [range.surroundContents(mark)] for a range inside one Text node: the node
    keeps the data before [wrapStart], the mark holds a Text node with the
    data of the range, and a new Text node after the mark holds the rest. *)
Definition surroundContents (d : string) (wrapStart wrapEnd : Z)
    (annotation : Annotation) (isActive : bool) : list Node :=
  [Text (JS.slice d 0 wrapStart);
   newMark annotation isActive [Text (JS.slice d wrapStart wrapEnd)];
   Text (JS.sliceFrom d wrapEnd)].

(** The loop of [wrapAnnotationRange] over the Text nodes of one element
    [el]; it ends at the first node it wraps. *)
Fixpoint wrapFirstText (el : Node) (textNodes : list (Path * string))
    (annotationStartInEl annotationEndInEl : Z) (annotation : Annotation)
    (isActive : bool) (charCount : Z) : Node :=
  match textNodes with
  | [] => el
  | (textNode, d) :: rest =>
      let textLength := JS.length d in
      let nodeStart := charCount in
      let nodeEnd := charCount + textLength in
      let continue :=
        wrapFirstText el rest annotationStartInEl annotationEndInEl
          annotation isActive (charCount + textLength) in
      if (nodeStart <? annotationEndInEl) && (nodeEnd >? annotationStartInEl)
      then
        let wrapStart := Z.max 0 (annotationStartInEl - nodeStart) in
        let wrapEnd := Z.min textLength (annotationEndInEl - nodeStart) in
        if (wrapStart <? wrapEnd)
           && negb (match parentTagName el textNode with
                    | Some tag => String.eqb tag "MARK"
                    | None => false
                    end)
        then replaceWith el textNode
               (surroundContents d wrapStart wrapEnd annotation isActive)
        else continue
      else continue
  end.

(** The body of the [for (const el of elements)] loop of
    [wrapAnnotationRange] for the element [el]. *)
Definition wrapInElement (annotation : Annotation) (isActive : bool)
    (el : Node) : Node :=
  let (elStart, elEnd) := sourceSpan el in
  if (elStart >=? markdownEndOffset annotation)
     || (elEnd <=? markdownStartOffset annotation)
  then el
  else
    let annotationStartInEl := Z.max 0 (markdownStartOffset annotation - elStart) in
    let annotationEndInEl :=
      Z.min (elEnd - elStart) (markdownEndOffset annotation - elStart) in
    wrapFirstText el (textNodes el) annotationStartInEl annotationEndInEl
      annotation isActive 0.

(** The [k]-th member of the static list [elements], in the tree as it is
    now.  The passes insert and split only marks, point markers and Text
    nodes, none of which matches the selector, so the members of the list are
    the matching elements of the current tree, in the same order. *)
Definition elementAt (container : Node) (k : nat) : option (Path * Node) :=
  match nth_error (sourceElements container) k with
  | Some p =>
      match getNode container p with
      | Some el => Some (p, el)
      | None => None
      end
  | None => None
  end.

Definition wrapAnnotationRange (container : Node) (annotation : Annotation)
    (isActive : bool) : Node :=
  let elements := sourceElements container in
  fold_left
    (fun tree k =>
       match elementAt tree k with
       | Some (p, el) => replaceWith tree p [wrapInElement annotation isActive el]
       | None => tree
       end)
    (seq 0 (List.length elements)) container.

(** The walker loop of [insertPointMarker]: the first Text node at whose end
    at least [targetOffset] characters have been passed, with the characters
    before it. *)
Fixpoint findTextNode (textNodes : list (Path * string))
    (targetOffset charCount : Z) : option (Path * string * Z) :=
  match textNodes with
  | [] => None
  | (p, d) :: rest =>
      let len := JS.length d in
      if charCount + len >=? targetOffset then Some (p, d, charCount)
      else findTextNode rest targetOffset (charCount + len)
  end.

(** The [for (const el of elements)] loop of [insertPointMarker], over the
    indices [ks] still to visit; it returns at the first insertion. *)
Fixpoint insertPointMarkerFrom (container : Node) (annotation : Annotation)
    (isActive : bool) (ks : list nat) : Node :=
  match ks with
  | [] => container
  | k :: ks' =>
      match elementAt container k with
      | Some (p, el) =>
          let (elStart, elEnd) := sourceSpan el in
          if (markdownStartOffset annotation <? elStart)
             || (markdownStartOffset annotation >? elEnd)
          then insertPointMarkerFrom container annotation isActive ks'
          else
            let targetOffset := markdownStartOffset annotation - elStart in
            match findTextNode (textNodes el) targetOffset 0 with
            | Some (textNode, d, charCount) =>
                let offsetInNode := targetOffset - charCount in
                let marker := newPointMarker annotation isActive in
                let pieces :=
                  if (offsetInNode >? 0) && (offsetInNode <? JS.length d)
                  then [Text (JS.slice d 0 offsetInNode); marker;
                        Text (JS.sliceFrom d offsetInNode)]
                  else [Text d; marker] in
                replaceWith container p [replaceWith el textNode pieces]
            | None => insertPointMarkerFrom container annotation isActive ks'
            end
      | None => insertPointMarkerFrom container annotation isActive ks'
      end
  end.

Definition insertPointMarker (container : Node) (annotation : Annotation)
    (isActive : bool) : Node :=
  insertPointMarkerFrom container annotation isActive
    (seq 0 (List.length (sourceElements container))).

(** [activeId === annotation.id] *)
Definition isActiveId (activeId : option string) (annotation : Annotation)
    : bool :=
  match activeId with
  | Some i => String.eqb i (id annotation)
  | None => false
  end.

Definition applyHighlights (container : Node) (annotations : list Annotation)
    (activeId : option string) : Node :=
  (* Remove existing marks and point markers first *)
  let unmarked := removeMarks container in
  let cleared := removePointMarkers unmarked in
  (* Sort annotations by start offset (descending) *)
  let sorted :=
    JS.sort (fun a b => markdownStartOffset b - markdownStartOffset a)
            annotations in
  fold_left
    (fun tree annotation =>
       match kind annotation with
       | point =>
           insertPointMarker tree annotation (isActiveId activeId annotation)
       | range =>
           wrapAnnotationRange tree annotation (isActiveId activeId annotation)
       end)
    sorted cleared.

End DocumentView.

(** ** Vocabulary of the statements about [shiftAnnotations] *)

(** The annotation [a] moved by [delta]. *)
Definition shifted (delta : Z) (a : Annotation) : Annotation :=
  withOffsets a (markdownStartOffset a + delta) (markdownEndOffset a + delta).

(** The four cases of the offset shifter, as predicates on one annotation. *)
Definition fullyContained (editStart editEnd : Z) (a : Annotation) : Prop :=
  markdownStartOffset a >= editStart /\ markdownEndOffset a <= editEnd.
Definition fullyBefore (editStart : Z) (a : Annotation) : Prop :=
  markdownEndOffset a <= editStart.
Definition fullyAfter (editEnd : Z) (a : Annotation) : Prop :=
  markdownStartOffset a >= editEnd.
Definition partialOverlap (editStart editEnd : Z) (a : Annotation) : Prop :=
  ~ fullyContained editStart editEnd a /\ ~ fullyBefore editStart a
  /\ ~ fullyAfter editEnd a.

Inductive ShiftCase : Type := Contained | Before | After | Partial.

Definition caseHolds (c : ShiftCase) (editStart editEnd : Z) (a : Annotation)
    : Prop :=
  match c with
  | Contained => fullyContained editStart editEnd a
  | Before => fullyBefore editStart a
  | After => fullyAfter editEnd a
  | Partial => partialOverlap editStart editEnd a
  end.

(** The order in which the code tests the cases. *)
Definition caseRank (c : ShiftCase) : nat :=
  match c with Contained => 0 | Before => 1 | After => 2 | Partial => 3 end%nat.

(** The branch of [shiftAnnotations] that handles [a]: the first [filter]
    callback, then the [if]s of the [map] callback, in program order. *)
Definition branchTaken (editStart editEnd : Z) (a : Annotation) : ShiftCase :=
  if UseAnnotations.keepOutsideEdit editStart editEnd a then
    if markdownEndOffset a <=? editStart then Before
    else if markdownStartOffset a >=? editEnd then After
    else Partial
  else Contained.

(** What each case leaves of the annotation in the result. *)
Definition outcome (delta : Z) (c : ShiftCase) (a : Annotation)
    : list Annotation :=
  match c with
  | Contained | Partial => []
  | Before => [a]
  | After => [shifted delta a]
  end.

(** A zero-width annotation that sits on a boundary of the edit. *)
Definition onEditBoundary (editStart editEnd : Z) (a : Annotation) : Prop :=
  markdownStartOffset a = markdownEndOffset a
  /\ (markdownStartOffset a = editStart \/ markdownStartOffset a = editEnd).

(** An annotation with the given offsets, and one with an id and a time as
    well (the other fields do not matter to the store). *)
Definition annAt (i : string) (s e : Z) : Annotation :=
  mkAnnotation i range "" "" s e 0.
Definition annAtTime (i : string) (s e t : Z) : Annotation :=
  mkAnnotation i range "" "" s e t.
Definition pointAt (i : string) (s : Z) : Annotation :=
  mkAnnotation i point "" "" s s 0.

(** Offsets that index a text of length [len]. *)
Definition validOffsets (len : Z) (a : Annotation) : Prop :=
  0 <= markdownStartOffset a /\ markdownStartOffset a <= markdownEndOffset a
  /\ markdownEndOffset a <= len.

(** ** Vocabulary of the statements about the order of lists *)

(** The comparator that subtracts keys, and the orders it sorts by. *)
Definition ascendingBy {A : Type} (key : A -> Z) : A -> A -> Z :=
  fun a b => key a - key b.
Definition keyLe {A : Type} (key : A -> Z) : A -> A -> Prop :=
  fun a b => key a <= key b.
Definition lexLe {A : Type} (key tie : A -> Z) : A -> A -> Prop :=
  fun a b => key a < key b \/ (key a = key b /\ tie a <= tie b).

(** Ascending by start offset. *)
Definition byStart (a b : Annotation) : Prop :=
  markdownStartOffset a <= markdownStartOffset b.

(** Descending by start offset. *)
Definition byStartDescending (a b : Annotation) : Prop :=
  markdownStartOffset a >= markdownStartOffset b.

(** Ascending by start offset, ties broken by [createdAt] ascending. *)
Definition byStartThenCreatedAt (a b : Annotation) : Prop :=
  markdownStartOffset a < markdownStartOffset b
  \/ (markdownStartOffset a = markdownStartOffset b
      /\ createdAt a <= createdAt b).

(** The annotations of [l] whose start offset is [k], in the order of [l]. *)
Definition startingAt (k : Z) (l : list Annotation) : list Annotation :=
  filter (fun a => markdownStartOffset a =? k) l.

Definition byCreatedAt (a b : Annotation) : Prop := createdAt a <= createdAt b.

(** What the store keeps true when the clock does not run backwards: the
    array is in creation order, and every timestamp in it was read from the
    clock. *)
Definition creationOrdered (ops : list UseAnnotations.Op)
    (st : UseAnnotations.State) : Prop :=
  StronglySorted byCreatedAt (UseAnnotations.annotations st)
  /\ Forall (fun a => In (createdAt a) (UseAnnotations.clockReadings ops))
            (UseAnnotations.annotations st).

(** ** Vocabulary of the statements about [generateExport] *)

(** The string [s] with [ins] inserted immediately before index [i]: exactly
    the first [i] characters of [s] precede [ins] (all of [s] when it has
    fewer). *)
Fixpoint insertBefore (i : nat) (ins s : string) : string :=
  match i, s with
  | O, _ => (ins ++ s)%string
  | S _, EmptyString => ins
  | S i', String c s' => String c (insertBefore i' ins s')
  end.

(** One insertion of the export, in the words of the format: for a range
    annotation the note in braces after a space, right after the anchor text
    (which ends before index [end]); for a point annotation the note in
    braces before index [start]. *)
Definition exportStep (result : string) (ann : Annotation) : string :=
  match kind ann with
  | range =>
      insertBefore (Z.to_nat (markdownEndOffset ann))
                   (" {" ++ note ann ++ "}")%string result
  | point =>
      insertBefore (Z.to_nat (markdownStartOffset ann))
                   ("{" ++ note ann ++ "}")%string result
  end.

Definition nonNegativeOffsets (a : Annotation) : Prop :=
  0 <= markdownStartOffset a /\ 0 <= markdownEndOffset a.

(** The index at which the export inserts the note of [a]. *)
Definition insertionPoint (a : Annotation) : nat :=
  match kind a with
  | range => Z.to_nat (markdownEndOffset a)
  | point => Z.to_nat (markdownStartOffset a)
  end.

(** ** Vocabulary of the statements about [selectionToMarkdownRange] *)

(** The element at [p] carries source-position metadata [(s, e)]. *)
Definition carriesSourcePosition (doc : Dom.Node) (p : Dom.Path) (s e : Z)
    : Prop :=
  exists tag attrs cs,
    Dom.getNode doc p = Some (Dom.Element tag attrs cs)
    /\ Dom.dataSourceStart attrs = Some s /\ Dom.dataSourceEnd attrs = Some e.

(** The endpoint [node] can be resolved: [node] or one of its ancestors
    carries source-position metadata. *)
Definition resolvable (doc : Dom.Node) (node : Dom.Path) : Prop :=
  exists q rest s e, node = q ++ rest /\ carriesSourcePosition doc q s e.

(** The element from which the upward walk for [node] starts. *)
Definition startingElement (doc : Dom.Node) (node : Dom.Path)
    : option Dom.Path :=
  match Dom.getNode doc node with
  | Some (Dom.Element _ _ _) => Some node
  | Some (Dom.Text _) => Dom.parentElement node
  | None => None
  end.

(** The nearest element that carries source-position metadata among the
    element whose path, read towards the root, is [up], and its ancestors;
    with its span. *)
Fixpoint nearestFrom (doc : Dom.Node) (up : list nat)
    : option (Dom.Path * Z * Z) :=
  match Dom.getNode doc (rev up) with
  | Some (Dom.Element _ attrs _) =>
      match Dom.dataSourceStart attrs, Dom.dataSourceEnd attrs with
      | Some s, Some e => Some (rev up, s, e)
      | _, _ =>
          match up with
          | [] => None
          | _ :: up' => nearestFrom doc up'
          end
      end
  | _ => None
  end.

(** The owner of an endpoint: the nearest ancestor of [node] (or [node]
    itself, when it is an element) with source-position metadata. *)
Definition owner (doc : Dom.Node) (node : Dom.Path)
    : option (Dom.Path * Z * Z) :=
  match startingElement doc node with
  | Some el => nearestFrom doc (rev el)
  | None => None
  end.

(** Documents used as concrete inputs.  [plainParagraph] is what the
    renderer makes of the source [plainSource]; [boldParagraph] of
    [boldSource]; [bareParagraph] has no source-position metadata at all. *)
Definition plainSource : string := "The API uses REST".
Definition plainParagraph : Dom.Node :=
  Dom.Element "DIV" Dom.noAttributes
    [Dom.Element "P" (Dom.sourceAttributes 0 17) [Dom.Text "The API uses REST"]].

Definition boldSource : string := "**bold** text".
Definition boldParagraph : Dom.Node :=
  Dom.Element "DIV" Dom.noAttributes
    [Dom.Element "P" (Dom.sourceAttributes 0 13)
       [Dom.Element "STRONG" (Dom.sourceAttributes 0 8) [Dom.Text "bold"];
        Dom.Text " text"]].

Definition bareParagraph : Dom.Node :=
  Dom.Element "DIV" Dom.noAttributes
    [Dom.Element "P" Dom.noAttributes [Dom.Text "hello"]].

(** A selection with one range, inside the Text node at [node]. *)
Definition selectIn (node : Dom.Path) (from to : Z) (text : string)
    : Dom.Selection :=
  Dom.mkSelection [Dom.mkRange node from node to] text.

(** ** Vocabulary of the statements about [applyHighlights] *)

(** The marker nodes below [n] in document order, each as its tag, the
    annotation id it carries and its class (which holds the active flag). *)
Fixpoint markers (n : Dom.Node) : list (string * string * string) :=
  match n with
  | Dom.Text _ => []
  | Dom.Element tag attrs cs =>
      (fix among (cs : list Dom.Node) : list (string * string * string) :=
         match cs with
         | [] => []
         | c :: rest =>
             (if DocumentView.isAnnotationMark c || DocumentView.isPointMarker c
              then
                match c with
                | Dom.Element t a _ =>
                    [(t,
                      match Dom.dataAnnotationId a with
                      | Some i => i
                      | None => ""
                      end,
                      Dom.className a)]
                | Dom.Text _ => []
                end
              else [])
             ++ markers c ++ among rest
         end) cs
  end.

(** The counting and the search of [countMarks] and [unwrapFirstMark] over
    a list of children, as functions of their own. *)
Fixpoint countMarksAmong (cs : list Dom.Node) : nat :=
  match cs with
  | [] => 0%nat
  | c :: rest =>
      ((if DocumentView.isAnnotationMark c then 1 else 0)
       + DocumentView.countMarks c + countMarksAmong rest)%nat
  end.

Fixpoint unwrapAmong (cs : list Dom.Node) : option (list Dom.Node * bool) :=
  match cs with
  | [] => None
  | c :: rest =>
      if DocumentView.isAnnotationMark c
      then Some (DocumentView.children c ++ rest, true)
      else
        match DocumentView.unwrapFirstMark c with
        | Some c' => Some (c' :: rest, false)
        | None =>
            match unwrapAmong rest with
            | Some (rest', here) => Some (c :: rest', here)
            | None => None
            end
        end
  end.

Fixpoint removePointMarkersAmong (cs : list Dom.Node) : list Dom.Node :=
  match cs with
  | [] => []
  | c :: rest =>
      if DocumentView.isPointMarker c then removePointMarkersAmong rest
      else DocumentView.removePointMarkers c :: removePointMarkersAmong rest
  end.

Fixpoint markersAmong (cs : list Dom.Node) : list (string * string * string) :=
  match cs with
  | [] => []
  | c :: rest =>
      (if DocumentView.isAnnotationMark c || DocumentView.isPointMarker c
       then
         match c with
         | Dom.Element t a _ =>
             [(t,
               match Dom.dataAnnotationId a with
               | Some i => i
               | None => ""
               end,
               Dom.className a)]
         | Dom.Text _ => []
         end
       else [])
      ++ markers c ++ markersAmong rest
  end.

(** The rendering of the source [*a* **abcdefgh**], and three annotations
    made on the word in bold, as the hook lists them (ascending by start):
    a point before "d", the range "d" and the range "efg". *)
Definition emphasisParagraph : Dom.Node :=
  Dom.Element "DIV" Dom.noAttributes
    [Dom.Element "P" (Dom.sourceAttributes 0 16)
       [Dom.Element "EM" (Dom.sourceAttributes 0 3) [Dom.Text "a"];
        Dom.Text " ";
        Dom.Element "STRONG" (Dom.sourceAttributes 4 16) [Dom.Text "abcdefgh"]]].

Definition emphasisAnnotations : list Annotation :=
  [mkAnnotation "p" point "" "here" 7 7 1;
   mkAnnotation "d" range "d" "one letter" 7 8 2;
   mkAnnotation "efg" range "efg" "three letters" 8 11 3].

(** ** Vocabulary of the further statements about the store *)

(** The annotation survives the edit: it is handled by the branch for the
    annotations before the edit or by the one for those after it. *)
Definition keptBy (editStart editEnd : Z) (a : Annotation) : bool :=
  match branchTaken editStart editEnd a with
  | Before | After => true
  | Contained | Partial => false
  end.

(** What identifies an annotation and is not an offset. *)
Definition identity (a : Annotation)
    : string * AnnotationKind * string * string * Z :=
  (id a, kind a, selectedText a, note a, createdAt a).

(** The callback of [updateAnnotation]'s [map]. *)
Definition noteUpdate (id0 note0 : string) (a : Annotation) : Annotation :=
  if String.eqb (id a) id0 then withNote a note0 else a.

(** The callback of [deleteAnnotation]'s [filter]. *)
Definition otherThan (id0 : string) (a : Annotation) : bool :=
  negb (String.eqb (id a) id0).

(** The ids that [uuidv4()] returned to a sequence of calls, in order. *)
Fixpoint uuidsIssued (ops : list UseAnnotations.Op) : list string :=
  match ops with
  | [] => []
  | UseAnnotations.OpAdd u _ _ _ _ _ _ :: ops' => u :: uuidsIssued ops'
  | _ :: ops' => uuidsIssued ops'
  end.

(** ** Vocabulary of the further statements about [generateExport] *)

(** The characters that the export adds for an annotation. *)
Definition inserted (a : Annotation) : string :=
  match kind a with
  | range => (" {" ++ note a ++ "}")%string
  | point => ("{" ++ note a ++ "}")%string
  end.

(** The offset that [generateExport] reads from an annotation. *)
Definition exportOffset (a : Annotation) : Z :=
  match kind a with
  | range => markdownEndOffset a
  | point => markdownStartOffset a
  end.

(** The characters of [s], in order, are among those of [t]. *)
Fixpoint isSubsequence (s t : string) {struct t} : bool :=
  match t with
  | EmptyString =>
      match s with
      | EmptyString => true
      | String _ _ => false
      end
  | String d t' =>
      match s with
      | EmptyString => true
      | String c s' =>
          if Ascii.eqb c d then isSubsequence s' t' else isSubsequence s t'
      end
  end.

(** The source text cut at the insertion points of [l] (taken in the order
    of [l], from index [from] on) with the characters of each annotation put
    in at its cut. *)
Fixpoint annotated (from : nat) (markdown : string) (l : list Annotation)
    : string :=
  match l with
  | [] => JS.drop from markdown
  | a :: l' =>
      (JS.take (insertionPoint a - from) (JS.drop from markdown)
       ++ inserted a ++ annotated (insertionPoint a) markdown l')%string
  end.

(** Descending by insertion point. *)
Definition byInsertionPointDescending (a b : Annotation) : Prop :=
  (insertionPoint b <= insertionPoint a)%nat.

(** ** Vocabulary of the statements about edits of the source *)

(** The source after the edit that [shiftAnnotations] is told of: the
    characters from [editStart] up to [editEnd] replaced by [newText]. *)
Definition editedText (markdown : string) (editStart editEnd : Z)
    (newText : string) : string :=
  (JS.slice markdown 0 editStart ++ newText
   ++ JS.sliceFrom markdown editEnd)%string.

(** The part of the source that an annotation points at. *)
Definition anchorText (markdown : string) (a : Annotation) : string :=
  JS.slice markdown (markdownStartOffset a) (markdownEndOffset a).

(** ** Vocabulary of the further statements about [lib/selection.ts] *)

(** The Text nodes below the children [cs], the first of which is child
    number [i], in document order. *)
Fixpoint textNodesAmong (i : nat) (cs : list Dom.Node)
    : list (Dom.Path * string) :=
  match cs with
  | [] => []
  | c :: cs' =>
      map (fun pd => (i :: fst pd, snd pd)) (Dom.textNodes c)
      ++ textNodesAmong (S i) cs'
  end.

(** The number of characters in a list of Text nodes. *)
Definition textLength (nodes : list (Dom.Path * string)) : Z :=
  fold_right (fun pd n => JS.length (snd pd) + n) 0 nodes.

(** The text of a list of children. *)
Fixpoint textContentAmong (cs : list Dom.Node) : string :=
  match cs with
  | [] => ""
  | c :: cs' => (Dom.textContent c ++ textContentAmong cs')%string
  end.

(** The endpoint [node] is the Text node number [k] of those below the
    element at [el], which holds [d]; [before] are the Text nodes that
    precede it. *)
Definition textNodeOf (doc : Dom.Node) (el node : Dom.Path)
    (before : list (Dom.Path * string)) (d : string) : Prop :=
  exists elNode p after,
    Dom.getNode doc el = Some elNode
    /\ Dom.textNodes elNode = before ++ (p, d) :: after
    /\ node = el ++ p.

(** A paragraph in which the letters "cd" are highlighted. *)
Definition markedParagraph : Dom.Node :=
  Dom.Element "DIV" Dom.noAttributes
    [Dom.Element "P" (Dom.sourceAttributes 0 6)
       [Dom.Text "ab";
        Dom.Element "MARK" (Dom.mkAttributes None None (Some "x") None "")
          [Dom.Text "cd"];
        Dom.Text "ef"]].

(** ** Vocabulary of the further statements about [applyHighlights] *)

(** The text a reader sees: the text of the node, that of point markers
    left out. *)
Fixpoint visibleText (n : Dom.Node) : string :=
  match n with
  | Dom.Text d => d
  | Dom.Element _ _ cs =>
      (fix among (cs : list Dom.Node) : string :=
         match cs with
         | [] => ""
         | c :: rest =>
             ((if DocumentView.isPointMarker c then "" else visibleText c)
              ++ among rest)%string
         end) cs
  end.

Fixpoint visibleTextAmong (cs : list Dom.Node) : string :=
  match cs with
  | [] => ""
  | c :: rest =>
      ((if DocumentView.isPointMarker c then "" else visibleText c)
       ++ visibleTextAmong rest)%string
  end.

(** The inner loop of [Dom.replaceWith], as a function of its own: child
    number [i] of [cs] with the node at [p] below it replaced by [new]. *)
Fixpoint replaceInChild (p : Dom.Path) (new : list Dom.Node) (i : nat)
    (cs : list Dom.Node) : list Dom.Node :=
  match cs, i with
  | [], _ => []
  | c :: cs', O => Dom.replaceWith c p new :: cs'
  | c :: cs', S i' => c :: replaceInChild p new i' cs'
  end.

(** The tag, the annotation id and the class of the marker that
    [applyHighlights] makes for an annotation. *)
Definition markerOf (activeId : option string) (a : Annotation)
    : string * string * string :=
  match kind a with
  | range =>
      ("MARK", id a, if DocumentView.isActiveId activeId a then "active" else "")
  | point =>
      ("SPAN", id a,
       ("inline-block w-2 h-2 rounded-full mx-0.5 align-middle cursor-pointer "
        ++ (if DocumentView.isActiveId activeId a then "bg-sienna-500"
            else "bg-sienna-400/60 hover:bg-sienna-500"))%string)
  end.

(** Two nodes that differ at most below their root: Text nodes with the
    same data, or elements with the same tag and attributes. *)
Definition sameRoot (n n' : Dom.Node) : Prop :=
  match n, n' with
  | Dom.Text d, Dom.Text d' => d = d'
  | Dom.Element t a _, Dom.Element t' a' _ => t = t' /\ a = a'
  | _, _ => False
  end.

(** ** components/AnnotationPopover.tsx *)

Module AnnotationPopover.

(** [handleSubmit]: [note] is the text in the textarea; the result is the
    argument [onSubmit] is called with, [None] when it is not called. *)
Definition handleSubmit (note : string) : option string :=
  if String.eqb (JS.trim note) "" then None else Some (JS.trim note).

End AnnotationPopover.

(** ** components/InputView.tsx *)

Module InputView.

(** [handlePaste]: the argument [onSubmit] is called with, [None] when it
    is not called (and the paste is left to the textarea). *)
Definition handlePaste (pasted : string) : option string :=
  if String.eqb (JS.trim pasted) "" then None else Some pasted.

(** [handleSubmit]: [text] is the text in the textarea. *)
Definition handleSubmit (text : string) : option string :=
  if String.eqb (JS.trim text) "" then None else Some text.

End InputView.

(** ** components/Sidebar.tsx *)

Module Sidebar.

(** [handleSave] of the card of [annotation], [onUpdate] being the
    [updateAnnotation] of the hook. *)
Definition handleSave (annotation : Annotation) (editText : string)
    (st : UseAnnotations.State) : UseAnnotations.State :=
  if String.eqb (JS.trim editText) "" then st
  else UseAnnotations.updateAnnotation (id annotation) (JS.trim editText) st.

End Sidebar.

(** ** components/RawView.tsx *)

Module RawView.

(** [s.split(sep)] for a separator of one character. *)
Fixpoint split (sep : ascii) (s : string) : list string :=
  match s with
  | EmptyString => [EmptyString]
  | String c s' =>
      if Ascii.eqb c sep then EmptyString :: split sep s'
      else
        match split sep s' with
        | [] => [String c EmptyString]
        | line :: lines => String c line :: lines
        end
  end.

Definition newline : ascii := ascii_of_nat 10.

(** The no-break space, U+00A0. *)
Definition nbsp : string := String (ascii_of_nat 160) EmptyString.

(** The rows of the table, from the number [i + 1] on: the line number and
    the text of the cell, [line || ' ']. *)
Fixpoint rowsFrom (i : Z) (lines : list string) : list (Z * string) :=
  match lines with
  | [] => []
  | line :: rest =>
      (i + 1, if String.eqb line "" then nbsp else line) :: rowsFrom (i + 1) rest
  end.

Definition rows (markdown : string) : list (Z * string) :=
  let lines := split newline markdown in
  rowsFrom 0 lines.

End RawView.

(** ** The event handlers of components/DocumentView.tsx *)

Module DocumentViewHandlers.
Import Dom.

Record PendingAnnotation : Type := mkPending {
  pendingKind : AnnotationKind;
  pendingSelectedText : string;
  pendingStartOffset : Z;
  pendingEndOffset : Z
}.

(** [target.closest('mark[data-annotation-id]')] is not [null]: [target] or
    one of its ancestors is such a mark. *)
Definition closestMark (doc : Node) (target : Path) : bool :=
  existsb
    (fun n =>
       match getNode doc (firstn n target) with
       | Some c => DocumentView.isAnnotationMark c
       | None => false
       end)
    (seq 0 (S (List.length target))).

(** [handleMouseUp]: [selection] is what [window.getSelection()] returns;
    the result is the new value of [pending]. *)
Definition handleMouseUp (doc : Node) (containerEl : Path)
    (selection : option Dom.Selection) (pending : option PendingAnnotation)
    : option PendingAnnotation :=
  match selection with
  | None => pending
  | Some sel =>
      match Selection.selectionToMarkdownRange doc sel containerEl with
      | None => pending
      | Some result =>
          Some (mkPending range (Selection.selectedText result)
                  (Selection.startOffset result) (Selection.endOffset result))
      end
  end.

(** [handleDoubleClick]: [target] is [e.target], and [node] and [offset]
    are the caret position that the browser gives for the click. *)
Definition handleDoubleClick (doc : Node) (containerEl : Path) (target : Path)
    (node : option Path) (offset : Z) (pending : option PendingAnnotation)
    : option PendingAnnotation :=
  if closestMark doc target then pending
  else
    match node with
    | None => pending
    | Some node =>
        match Selection.clickToMarkdownOffset doc node offset containerEl with
        | None => pending
        | Some mdOffset => Some (mkPending point "" mdOffset mdOffset)
        end
    end.

(** [handlePopoverSubmit], [onAddAnnotation] being the [addAnnotation] of
    the hook. *)
Definition handlePopoverSubmit (uuid : string) (now : Z) (note : string)
    (pending : option PendingAnnotation) (st : UseAnnotations.State)
    : option PendingAnnotation * UseAnnotations.State :=
  match pending with
  | Some p =>
      (None,
       snd (UseAnnotations.addAnnotation uuid now (pendingSelectedText p) note
              (pendingStartOffset p) (pendingEndOffset p) (pendingKind p) st))
  | None => (pending, st)
  end.

Definition handlePopoverDismiss (pending : option PendingAnnotation)
    : option PendingAnnotation := None.

End DocumentViewHandlers.

(** ** App.tsx *)

Module App.

Inductive ViewMode : Type := rendered | raw.

(** The state of the application: the two [useState] cells of [App], the
    state of the hook, and the [pending] cell of [DocumentView]. *)
Record AppState : Type := mkApp {
  markdown : option string;
  viewMode : ViewMode;
  hook : UseAnnotations.State;
  pending : option DocumentViewHandlers.PendingAnnotation
}.

Definition initialState : AppState :=
  mkApp None rendered UseAnnotations.initial None.

Definition handleLoadMarkdown (content : string) (st : AppState) : AppState :=
  mkApp (Some content) (viewMode st) (hook st) (pending st).

Definition handleReset (st : AppState) : AppState :=
  mkApp None (viewMode st)
    (UseAnnotations.setActiveAnnotationId None (hook st)) (pending st).

Definition handleAnnotationActivate (id0 : string) (st : AppState) : AppState :=
  mkApp (markdown st) (viewMode st)
    (UseAnnotations.setActiveAnnotationId (Some id0) (hook st)) (pending st).

(** [App] renders [InputView] when [markdown === null], and otherwise the
    toolbar, the sidebar and, in the rendered view, [DocumentView]. *)
Definition documentLoaded (st : AppState) : bool :=
  match markdown st with Some _ => true | None => false end.

Definition documentViewShown (st : AppState) : bool :=
  match markdown st, viewMode st with
  | Some _, rendered => true
  | _, _ => false
  end.

(** [pending] is state of [DocumentView]: it is [null] again when the
    component is no longer rendered. *)
Definition unmountHidden (st : AppState) : AppState :=
  if documentViewShown st then st
  else mkApp (markdown st) (viewMode st) (hook st) None.

(** What the user does, with what the handlers read from the browser. *)
Inductive Event : Type :=
| Paste (pasted : string)
| Begin (text : string)
| Reset
| SetViewMode (v : ViewMode)
| MouseUp (doc : Dom.Node) (containerEl : Dom.Path)
          (selection : option Dom.Selection)
| DoubleClick (doc : Dom.Node) (containerEl : Dom.Path) (target : Dom.Path)
              (node : option Dom.Path) (offset : Z)
| PopoverSubmit (note : string) (uuid : string) (now : Z)
| PopoverDismiss
| CardSave (k : nat) (editText : string)
| CardDelete (k : nat)
| Activate (k : nat).

(** The annotation of card number [k] of the sidebar; the cards, like the
    markers in the document, are made from the list the hook returns. *)
Definition card (st : AppState) (k : nat) : option Annotation :=
  nth_error (UseAnnotations.sortedAnnotations (hook st)) k.

Definition handleEvent (st : AppState) (ev : Event) : AppState :=
  match ev with
  | Paste pasted =>
      if documentLoaded st then st
      else
        match InputView.handlePaste pasted with
        | Some content => handleLoadMarkdown content st
        | None => st
        end
  | Begin text =>
      if documentLoaded st then st
      else
        match InputView.handleSubmit text with
        | Some content => handleLoadMarkdown content st
        | None => st
        end
  | Reset =>
      if documentLoaded st then unmountHidden (handleReset st) else st
  | SetViewMode v =>
      if documentLoaded st
      then unmountHidden (mkApp (markdown st) v (hook st) (pending st))
      else st
  | MouseUp doc containerEl selection =>
      if documentViewShown st
      then mkApp (markdown st) (viewMode st) (hook st)
             (DocumentViewHandlers.handleMouseUp doc containerEl selection
                (pending st))
      else st
  | DoubleClick doc containerEl target node offset =>
      if documentViewShown st
      then mkApp (markdown st) (viewMode st) (hook st)
             (DocumentViewHandlers.handleDoubleClick doc containerEl target
                node offset (pending st))
      else st
  | PopoverSubmit note uuid now =>
      match pending st with
      | Some _ =>
          match AnnotationPopover.handleSubmit note with
          | Some trimmed =>
              let (pending', hook') :=
                DocumentViewHandlers.handlePopoverSubmit uuid now trimmed
                  (pending st) (hook st) in
              mkApp (markdown st) (viewMode st) hook' pending'
          | None => st
          end
      | None => st
      end
  | PopoverDismiss =>
      mkApp (markdown st) (viewMode st) (hook st)
        (DocumentViewHandlers.handlePopoverDismiss (pending st))
  | CardSave k editText =>
      if documentLoaded st
      then
        match card st k with
        | Some annotation =>
            mkApp (markdown st) (viewMode st)
              (Sidebar.handleSave annotation editText (hook st)) (pending st)
        | None => st
        end
      else st
  | CardDelete k =>
      if documentLoaded st
      then
        match card st k with
        | Some annotation =>
            mkApp (markdown st) (viewMode st)
              (UseAnnotations.deleteAnnotation (id annotation) (hook st))
              (pending st)
        | None => st
        end
      else st
  | Activate k =>
      if documentLoaded st
      then
        match card st k with
        | Some annotation => handleAnnotationActivate (id annotation) st
        | None => st
        end
      else st
  end.

Definition runEvents (evs : list Event) : AppState :=
  fold_left handleEvent evs initialState.

End App.

(** ** Vocabulary of the statements about the application *)

(** Not blank, and with no white space at either end. *)
Definition trimmed (s : string) : Prop := s <> "" /\ JS.trim s = s.

(** What every annotation made through the interface satisfies: its note is
    trimmed; a range annotation has a trimmed anchor text; a point
    annotation has no anchor text and one offset. *)
Definition wellFormed (a : Annotation) : Prop :=
  trimmed (note a)
  /\ match kind a with
     | range => trimmed (selectedText a)
     | point =>
         selectedText a = ""
         /\ markdownStartOffset a = markdownEndOffset a
     end.

Definition wellFormedPending (p : DocumentViewHandlers.PendingAnnotation)
    : Prop :=
  match DocumentViewHandlers.pendingKind p with
  | range => trimmed (DocumentViewHandlers.pendingSelectedText p)
  | point =>
      DocumentViewHandlers.pendingSelectedText p = ""
      /\ DocumentViewHandlers.pendingStartOffset p
         = DocumentViewHandlers.pendingEndOffset p
  end.

(** The ids of the stored annotations. *)
Definition storedIds (st : App.AppState) : list string :=
  map id (UseAnnotations.annotations (App.hook st)).

(** What holds of the state of the application after every event. *)
Definition consistent (st : App.AppState) : Prop :=
  Forall wellFormed (UseAnnotations.annotations (App.hook st))
  /\ (forall md, App.markdown st = Some md -> JS.trim md <> "")
  /\ (forall p, App.pending st = Some p ->
        wellFormedPending p /\ App.documentViewShown st = true)
  /\ (forall i, UseAnnotations.activeAnnotationId (App.hook st) = Some i ->
        In i (storedIds st)).

(** ** Vocabulary of the statements about [RawView] *)

(** The number of occurrences of [c] in [s]. *)
Fixpoint occurrences (c : ascii) (s : string) : nat :=
  match s with
  | EmptyString => 0%nat
  | String d s' => ((if Ascii.eqb d c then 1 else 0) + occurrences c s')%nat
  end.

(** ** Vocabulary of the statements about the elements with source
    positions *)

(** The source spans of the elements below [n] that match
    [[data-source-start][data-source-end]], in document order. *)
Fixpoint sourceSpans (n : Dom.Node) : list (Z * Z) :=
  match n with
  | Dom.Text _ => []
  | Dom.Element _ _ cs =>
      (fix among (cs : list Dom.Node) : list (Z * Z) :=
         match cs with
         | [] => []
         | c :: rest =>
             (if DocumentView.hasSourcePosition c
              then [DocumentView.sourceSpan c] else [])
             ++ sourceSpans c ++ among rest
         end) cs
  end.

Fixpoint sourceSpansAmong (cs : list Dom.Node) : list (Z * Z) :=
  match cs with
  | [] => []
  | c :: rest =>
      (if DocumentView.hasSourcePosition c
       then [DocumentView.sourceSpan c] else [])
      ++ sourceSpans c ++ sourceSpansAmong rest
  end.

(** The inner loop of [sourceElements], as a function of its own. *)
Fixpoint sourceElementsAmong (i : nat) (cs : list Dom.Node)
    : list Dom.Path :=
  match cs with
  | [] => []
  | c :: rest =>
      (if DocumentView.hasSourcePosition c then [[i]] else [])
      ++ map (cons i) (DocumentView.sourceElements c)
      ++ sourceElementsAmong (S i) rest
  end.

(** The source span of the element at [p]. *)
Definition spanAt (tree : Dom.Node) (p : Dom.Path) : Z * Z :=
  match Dom.getNode tree p with
  | Some el => DocumentView.sourceSpan el
  | None => (0, 0)
  end.

(** * Properties *)

(** ** Offset maintenance: [shiftAnnotations] *)

Section ShiftFacts.
Import UseAnnotations.

Lemma filterNotNull_app {A : Type} (l1 l2 : list (option A)) :
  JS.filterNotNull (l1 ++ l2) = JS.filterNotNull l1 ++ JS.filterNotNull l2.
Proof.
  induction l1 as [|[x|] l1 IH]; simpl; auto. now rewrite IH.
Qed.

Lemma shiftList_app es ee nl l1 l2 :
  shiftList es ee nl (l1 ++ l2) = shiftList es ee nl l1 ++ shiftList es ee nl l2.
Proof.
  unfold shiftList. now rewrite filter_app, map_app, filterNotNull_app.
Qed.

Lemma shiftList_cons es ee nl a l :
  shiftList es ee nl (a :: l) = shiftList es ee nl [a] ++ shiftList es ee nl l.
Proof. exact (shiftList_app es ee nl [a] l). Qed.

Lemma shiftList_contained es ee nl a :
  fullyContained es ee a -> shiftList es ee nl [a] = [].
Proof.
  intros [Hs He]. unfold shiftList, keepOutsideEdit. simpl.
  destruct (Z.geb_spec (markdownStartOffset a) es); [|lia].
  destruct (Z.leb_spec (markdownEndOffset a) ee); [|lia].
  reflexivity.
Qed.

Lemma keepOutsideEdit_true es ee a :
  ~ fullyContained es ee a -> keepOutsideEdit es ee a = true.
Proof.
  unfold fullyContained, keepOutsideEdit. intros H.
  destruct (Z.geb_spec (markdownStartOffset a) es);
    destruct (Z.leb_spec (markdownEndOffset a) ee); simpl; auto.
  exfalso. apply H. lia.
Qed.

Lemma shiftList_before es ee nl a :
  ~ fullyContained es ee a -> fullyBefore es a -> shiftList es ee nl [a] = [a].
Proof.
  intros Hc Hb. unfold shiftList. simpl.
  rewrite (keepOutsideEdit_true _ _ _ Hc). simpl. unfold shiftOrNull.
  destruct (Z.leb_spec (markdownEndOffset a) es); [reflexivity|].
  unfold fullyBefore in Hb. lia.
Qed.

Lemma shiftList_after es ee nl a :
  ~ fullyContained es ee a -> ~ fullyBefore es a -> fullyAfter ee a ->
  shiftList es ee nl [a] = [shifted (nl - (ee - es)) a].
Proof.
  intros Hc Hb Ha. unfold shiftList. simpl.
  rewrite (keepOutsideEdit_true _ _ _ Hc). simpl. unfold shiftOrNull.
  unfold fullyBefore in Hb. unfold fullyAfter in Ha.
  destruct (Z.leb_spec (markdownEndOffset a) es); [lia|].
  destruct (Z.geb_spec (markdownStartOffset a) ee); [reflexivity|lia].
Qed.

Lemma shiftList_partial es ee nl a :
  partialOverlap es ee a -> shiftList es ee nl [a] = [].
Proof.
  intros (Hc & Hb & Ha). unfold shiftList. simpl.
  rewrite (keepOutsideEdit_true _ _ _ Hc). simpl. unfold shiftOrNull.
  unfold fullyBefore in Hb. unfold fullyAfter in Ha.
  destruct (Z.leb_spec (markdownEndOffset a) es); [lia|].
  destruct (Z.geb_spec (markdownStartOffset a) ee); [lia|reflexivity].
Qed.

End ShiftFacts.

Section ShiftTheorems.
Import UseAnnotations.

(** C1 (as amended).  With [delta = newLength - (editEnd - editStart)],
    [shiftAnnotations] handles every annotation of the store on its own and
    keeps the others in order: an annotation with [start >= editStart] and
    [end <= editEnd] is dropped; an annotation with [end <= editStart] that is
    not contained in the edit is unchanged; an annotation with
    [start >= editEnd] that is neither contained nor before the edit has both
    offsets moved by [delta]; every other annotation is dropped.  The four
    examples of the specification follow. *)
Theorem shiftAnnotations_cases (es ee nl : Z) (l1 l2 : list Annotation)
    (a : Annotation) (act : option string) :
  let delta := nl - (ee - es) in
  let result := annotations (shiftAnnotations es ee nl (mkState (l1 ++ a :: l2) act)) in
  let left := annotations (shiftAnnotations es ee nl (mkState l1 act)) in
  let right := annotations (shiftAnnotations es ee nl (mkState l2 act)) in
  (fullyContained es ee a -> result = left ++ right)
  /\ (~ fullyContained es ee a -> fullyBefore es a -> result = left ++ a :: right)
  /\ (~ fullyContained es ee a -> ~ fullyBefore es a -> fullyAfter ee a ->
      result = left ++ shifted delta a :: right)
  /\ (partialOverlap es ee a -> result = left ++ right)
  /\ (forall i, shiftList 5 8 1 [annAt i 10 20] = [annAt i 8 18])
  /\ (forall i, shiftList 12 18 0 [annAt i 10 20] = [])
  /\ (forall i, shiftList 15 25 0 [annAt i 10 20] = [])
  /\ (forall i, shiftList 25 30 3 [annAt i 10 20] = [annAt i 10 20]).
Proof.
  cbv zeta. simpl.
  rewrite shiftList_app, (shiftList_cons es ee nl a l2).
  repeat split; intros.
  - now rewrite shiftList_contained.
  - now rewrite shiftList_before.
  - now rewrite shiftList_after.
  - now rewrite shiftList_partial.
Qed.

(** C1, the claim as stated fails: a zero-width annotation at the start of
    the edit has [end <= editStart], and it is dropped, not left unchanged. *)
Lemma shiftAnnotations_before_clause_fails :
  fullyBefore 5 (pointAt "p" 5)
  /\ annotations (shiftAnnotations 5 8 1 (mkState [pointAt "p" 5] None))
     <> [pointAt "p" 5].
Proof.
  split; [unfold fullyBefore; simpl; lia | discriminate].
Qed.

Lemma branchTaken_holds es ee a : caseHolds (branchTaken es ee a) es ee a.
Proof.
  unfold branchTaken, keepOutsideEdit.
  destruct (Z.geb_spec (markdownStartOffset a) es);
    destruct (Z.leb_spec (markdownEndOffset a) ee); simpl;
    try (unfold fullyContained; lia);
    destruct (Z.leb_spec (markdownEndOffset a) es); simpl;
    try (unfold fullyBefore; lia);
    destruct (Z.geb_spec (markdownStartOffset a) ee); simpl;
    try (unfold fullyAfter; lia);
    unfold partialOverlap, fullyContained, fullyBefore, fullyAfter; lia.
Qed.

Lemma branchTaken_first es ee a c :
  caseHolds c es ee a -> (caseRank (branchTaken es ee a) <= caseRank c)%nat.
Proof.
  unfold branchTaken, keepOutsideEdit.
  destruct c; simpl;
    unfold partialOverlap, fullyContained, fullyBefore, fullyAfter; intros H;
    destruct (Z.geb_spec (markdownStartOffset a) es);
    destruct (Z.leb_spec (markdownEndOffset a) ee); simpl;
    try destruct (Z.leb_spec (markdownEndOffset a) es); simpl;
    try destruct (Z.geb_spec (markdownStartOffset a) ee); simpl; lia.
Qed.

Lemma shiftList_outcome es ee nl a :
  shiftList es ee nl [a] = outcome (nl - (ee - es)) (branchTaken es ee a) a.
Proof.
  pose proof (branchTaken_holds es ee a) as H.
  pose proof (fun c => branchTaken_first es ee a c) as F.
  destruct (branchTaken es ee a) eqn:E; simpl in *.
  - now apply shiftList_contained.
  - apply shiftList_before; auto. intro C. specialize (F Contained C). simpl in F. lia.
  - apply shiftList_after; auto.
    + intro C. specialize (F Contained C). simpl in F. lia.
    + intro C. specialize (F Before C). simpl in F. lia.
  - now apply shiftList_partial.
Qed.

(** C3 (as amended).  [shiftAnnotations] is a total function of its inputs
    (a function of the embedding: it returns, and returns the same list for
    the same arguments).  The four case predicates are exhaustive; the code
    handles every annotation by exactly one branch, the first case that holds
    in the order contained, before, after, partial overlap, and that branch
    alone decides what is left of the annotation.  For an edit with
    [editStart <= editEnd] and an annotation with [start <= end], the
    predicates exclude each other exactly when the annotation is not a
    zero-width annotation on a boundary of the edit; such an annotation is
    contained in the edit and also before it (at [editStart]) or after it
    (at [editEnd]), and the code takes it as contained. *)
Theorem shiftAnnotations_classification (es ee nl : Z) (a : Annotation) :
  (exists c, caseHolds c es ee a)
  /\ caseHolds (branchTaken es ee a) es ee a
  /\ (forall c, caseHolds c es ee a ->
        (caseRank (branchTaken es ee a) <= caseRank c)%nat)
  /\ (forall l1 l2,
        shiftList es ee nl (l1 ++ a :: l2)
        = shiftList es ee nl l1
            ++ outcome (nl - (ee - es)) (branchTaken es ee a) a
            ++ shiftList es ee nl l2)
  /\ (es <= ee -> markdownStartOffset a <= markdownEndOffset a ->
      ((forall c c', caseHolds c es ee a -> caseHolds c' es ee a -> c = c')
       <-> ~ onEditBoundary es ee a))
  /\ (es <= ee -> onEditBoundary es ee a ->
      caseHolds Contained es ee a
      /\ (markdownStartOffset a = es -> caseHolds Before es ee a)
      /\ (markdownStartOffset a = ee -> caseHolds After es ee a)
      /\ branchTaken es ee a = Contained).
Proof.
  split; [exists (branchTaken es ee a); apply branchTaken_holds|].
  split; [apply branchTaken_holds|].
  split; [apply branchTaken_first|].
  split; [|split].
  - intros l1 l2.
    now rewrite shiftList_app, (shiftList_cons es ee nl a l2), shiftList_outcome.
  - intros Hedit Hlen. unfold onEditBoundary. split.
    + intros Hex [Hz [Hb|Hb]].
      * specialize (Hex Contained Before). simpl in Hex.
        unfold fullyContained, fullyBefore in Hex.
        assert (Contained = Before) by (apply Hex; lia). discriminate.
      * specialize (Hex Contained After). simpl in Hex.
        unfold fullyContained, fullyAfter in Hex.
        assert (Contained = After) by (apply Hex; lia). discriminate.
    + intros Hnb c c'.
      destruct c, c'; simpl;
        unfold partialOverlap, fullyContained, fullyBefore, fullyAfter;
        intros; try reflexivity; exfalso; lia.
  - intros Hedit [Hz Hb]. simpl.
    unfold fullyContained, fullyBefore, fullyAfter.
    split; [lia|]. split; [lia|]. split; [lia|].
    unfold branchTaken, keepOutsideEdit.
    destruct (Z.geb_spec (markdownStartOffset a) es); [|lia].
    destruct (Z.leb_spec (markdownEndOffset a) ee); [reflexivity | lia].
Qed.

(** C3, the claim as stated fails: under a pure insertion at offset 7 a
    zero-width annotation at 7 satisfies the first three case predicates at
    once, so the predicates are not mutually exclusive. *)
Lemma shift_cases_not_exclusive :
  caseHolds Contained 7 7 (pointAt "p" 7)
  /\ caseHolds Before 7 7 (pointAt "p" 7)
  /\ caseHolds After 7 7 (pointAt "p" 7)
  /\ Contained <> Before.
Proof.
  simpl. unfold fullyContained, fullyBefore, fullyAfter. simpl.
  repeat split; try lia. discriminate.
Qed.

End ShiftTheorems.

Section ShiftBounds.
Import UseAnnotations.

Lemma shiftList_In es ee nl l b :
  In b (shiftList es ee nl l) ->
  exists a, In a l /\ In b (outcome (nl - (ee - es)) (branchTaken es ee a) a).
Proof.
  induction l as [|a l IH].
  - intros [].
  - rewrite shiftList_cons, shiftList_outcome. intros H.
    apply in_app_or in H as [H|H].
    + exists a. split; [now left | exact H].
    + destruct (IH H) as (a' & Hin & Hb). exists a'. split; [now right | exact Hb].
Qed.

(** C4.  When every stored annotation satisfies
    [0 <= start <= end <= oldLength] and the edit satisfies
    [0 <= editStart <= editEnd <= oldLength] with [newLength >= 0], every
    annotation that [shiftAnnotations] returns has offsets that index the
    edited text, of length [oldLength + newLength - (editEnd - editStart)]:
    they are not negative, do not exceed that length, and [start <= end]
    still holds. *)
Theorem shiftAnnotations_offsets_valid (oldLength es ee nl : Z) (st : State) :
  0 <= es -> es <= ee -> ee <= oldLength -> 0 <= nl ->
  Forall (validOffsets oldLength) (annotations st) ->
  Forall (validOffsets (oldLength + nl - (ee - es)))
         (annotations (shiftAnnotations es ee nl st)).
Proof.
  intros H0 H1 H2 H3 Hall. simpl. apply Forall_forall. intros b Hb.
  apply shiftList_In in Hb as (a & Hin & Hb).
  rewrite Forall_forall in Hall. specialize (Hall a Hin).
  pose proof (branchTaken_holds es ee a) as Hcase.
  pose proof (branchTaken_first es ee a) as Hfirst.
  unfold validOffsets in *.
  destruct (branchTaken es ee a); simpl in Hb; try contradiction;
    destruct Hb as [<-|[]]; simpl in *.
  - unfold fullyBefore in Hcase. lia.
  - unfold fullyAfter in Hcase. lia.
Qed.

Lemma shiftAnnotations_offsets_valid_witness :
  Forall (validOffsets (30 + 1 - (8 - 5)))
         (annotations (shiftAnnotations 5 8 1
            (mkState [annAt "a" 10 20; annAt "b" 0 4; annAt "c" 6 7] None))).
Proof.
  apply (shiftAnnotations_offsets_valid 30 5 8 1); try lia.
  repeat constructor; simpl; lia.
Defined.

(** C10.  Under a pure insertion ([editStart = editEnd = p]) a zero-width
    annotation at [p] is removed although no character of the source is
    deleted; a zero-width annotation before [p] is unchanged, and one after
    [p] is moved by [newLength]. *)
Theorem shiftAnnotations_insertion_zero_width (p nl : Z)
    (l1 l2 : list Annotation) (a : Annotation) (act : option string) :
  markdownStartOffset a = markdownEndOffset a ->
  let result := annotations (shiftAnnotations p p nl (mkState (l1 ++ a :: l2) act)) in
  let left := annotations (shiftAnnotations p p nl (mkState l1 act)) in
  let right := annotations (shiftAnnotations p p nl (mkState l2 act)) in
  (markdownStartOffset a = p -> result = left ++ right)
  /\ (markdownStartOffset a < p -> result = left ++ a :: right)
  /\ (p < markdownStartOffset a -> result = left ++ shifted nl a :: right).
Proof.
  intros Hz. cbv zeta. simpl.
  rewrite shiftList_app, (shiftList_cons p p nl a l2).
  repeat split; intros H.
  - rewrite shiftList_contained; [reflexivity|]. unfold fullyContained. lia.
  - rewrite shiftList_before; [reflexivity| |]; unfold fullyContained, fullyBefore; lia.
  - rewrite shiftList_after; unfold fullyContained, fullyBefore, fullyAfter; try lia.
    now replace (nl - (p - p)) with nl by lia.
Qed.

Lemma shiftAnnotations_insertion_zero_width_witness :
  annotations (shiftAnnotations 7 7 3
     (mkState ([pointAt "p" 2] ++ pointAt "q" 7 :: [pointAt "r" 9]) None))
  = [pointAt "p" 2; pointAt "r" 12].
Proof.
  destruct (shiftAnnotations_insertion_zero_width 7 3 [pointAt "p" 2]
              [pointAt "r" 9] (pointAt "q" 7) None eq_refl) as (H & _ & _).
  rewrite (H eq_refl). reflexivity.
Defined.

End ShiftBounds.

(** ** The store: [deleteAnnotation] and the order of the exposed list *)

Section StoreTheorems.
Import UseAnnotations.

(** C8.  [deleteAnnotation id] removes the annotation with that id and keeps
    every other one; when the active id is [id] it becomes [null], so the
    active reference is not left dangling, and otherwise it is unchanged. *)
Theorem deleteAnnotation_clears_active (id0 : string) (st : State) :
  let st' := deleteAnnotation id0 st in
  (forall a, In a (annotations st') <-> In a (annotations st) /\ id a <> id0)
  /\ (activeAnnotationId st = Some id0 -> activeAnnotationId st' = None)
  /\ (activeAnnotationId st <> Some id0 ->
      activeAnnotationId st' = activeAnnotationId st)
  /\ activeAnnotationId st' <> Some id0.
Proof.
  cbv zeta. unfold deleteAnnotation. simpl.
  split; [|split; [|split]].
  - intros a. rewrite filter_In, negb_true_iff, String.eqb_neq. tauto.
  - intros ->. now rewrite String.eqb_refl.
  - intros H. destruct (activeAnnotationId st) as [prev|]; [|reflexivity].
    destruct (String.eqb_spec prev id0) as [->|]; [now elim H | reflexivity].
  - destruct (activeAnnotationId st) as [prev|]; [|discriminate].
    destruct (String.eqb_spec prev id0) as [->|n]; [discriminate|].
    intros [=]. contradiction.
Qed.

End StoreTheorems.

(** ** [Array.prototype.sort] with a comparator that subtracts keys *)

Section SortFacts.
Context {A : Type}.

Lemma insertSorted_perm (cmp : A -> A -> Z) (x : A) (l : list A) :
  Permutation (x :: l) (JS.insertSorted cmp x l).
Proof.
  induction l as [|y l IH]; simpl; [reflexivity|].
  destruct (cmp x y <=? 0); [reflexivity|].
  rewrite perm_swap. now apply perm_skip.
Qed.

Lemma sort_perm (cmp : A -> A -> Z) (l : list A) :
  Permutation l (JS.sort cmp l).
Proof.
  induction l as [|x l IH]; simpl; [constructor|].
  rewrite <- insertSorted_perm. now apply perm_skip.
Qed.

(** Two comparators that agree on the sign test sort alike. *)
Lemma sort_ext (cmp cmp' : A -> A -> Z) (l : list A) :
  (forall x y, (cmp x y <=? 0) = (cmp' x y <=? 0)) ->
  JS.sort cmp l = JS.sort cmp' l.
Proof.
  intros E. induction l as [|x l IH]; simpl; [reflexivity|].
  rewrite IH. generalize (JS.sort cmp' l). intros s.
  induction s as [|y s IHs]; simpl; [reflexivity|].
  now rewrite E, IHs.
Qed.

Variable key : A -> Z.

Lemma insertSorted_sorted (x : A) (s : list A) :
  StronglySorted (keyLe key) s ->
  StronglySorted (keyLe key) (JS.insertSorted (ascendingBy key) x s).
Proof.
  induction 1 as [|y s Hs IH Hy]; simpl.
  - repeat constructor.
  - unfold ascendingBy at 1. destruct (Z.leb_spec (key x - key y) 0).
    + constructor; [now constructor|]. constructor; [unfold keyLe; lia|].
      eapply Forall_impl; [|exact Hy]. unfold keyLe. intros; lia.
    + constructor; [exact IH|].
      eapply Permutation_Forall; [apply insertSorted_perm|].
      constructor; [unfold keyLe; lia | exact Hy].
Qed.

Lemma sort_sorted (l : list A) :
  StronglySorted (keyLe key) (JS.sort (ascendingBy key) l).
Proof.
  induction l as [|x l IH]; simpl; [constructor|].
  now apply insertSorted_sorted.
Qed.

(** Stability: the elements with one key keep their order. *)
Lemma insertSorted_stable (k : Z) (x : A) (s : list A) :
  StronglySorted (keyLe key) s ->
  filter (fun a => key a =? k) (JS.insertSorted (ascendingBy key) x s)
  = filter (fun a => key a =? k) (x :: s).
Proof.
  induction 1 as [|y s Hs IH Hy]; [reflexivity|].
  cbn [JS.insertSorted]. unfold ascendingBy at 1.
  destruct (Z.leb_spec (key x - key y) 0); [reflexivity|].
  cbn [filter] in *. rewrite IH.
  destruct (Z.eqb_spec (key x) k), (Z.eqb_spec (key y) k); try reflexivity.
  lia.
Qed.

Lemma sort_stable (k : Z) (l : list A) :
  filter (fun a => key a =? k) (JS.sort (ascendingBy key) l)
  = filter (fun a => key a =? k) l.
Proof.
  induction l as [|x l IH]; [reflexivity|].
  cbn [JS.sort fold_right]. fold (JS.sort (ascendingBy key) l).
  rewrite insertSorted_stable by apply sort_sorted.
  cbn [filter]. now rewrite IH.
Qed.

(** A second key [tie] along which the input is already ordered breaks the
    ties of the output. *)
Variable tie : A -> Z.

Lemma insertSorted_lex (x : A) (s : list A) :
  Forall (keyLe tie x) s -> StronglySorted (lexLe key tie) s ->
  StronglySorted (lexLe key tie) (JS.insertSorted (ascendingBy key) x s).
Proof.
  intros Hx Hs. induction Hs as [|y s Hs IH Hy]; simpl.
  - repeat constructor.
  - inversion Hx as [|? ? Hxy Hxs]; subst.
    unfold ascendingBy at 1. destruct (Z.leb_spec (key x - key y) 0).
    + constructor; [now constructor|].
      assert (lexLe key tie x y) as Lxy by (unfold lexLe, keyLe in *; lia).
      constructor; [exact Lxy|].
      rewrite Forall_forall in *. intros z Hz.
      specialize (Hy z Hz). specialize (Hxs z Hz).
      unfold lexLe, keyLe in *. lia.
    + constructor; [now apply IH|].
      eapply Permutation_Forall; [apply insertSorted_perm|].
      constructor; [unfold lexLe; lia | exact Hy].
Qed.

Lemma sort_lex (l : list A) :
  StronglySorted (keyLe tie) l ->
  StronglySorted (lexLe key tie) (JS.sort (ascendingBy key) l).
Proof.
  induction 1 as [|x l Hl IH Hx]; simpl; [constructor|].
  apply insertSorted_lex; [|exact IH].
  eapply Permutation_Forall; [apply sort_perm | exact Hx].
Qed.

End SortFacts.

(** ** The order of the list the hook exposes *)

Section OrderTheorems.
Import UseAnnotations.

Lemma clockReadings_app ops1 ops2 :
  clockReadings (ops1 ++ ops2) = clockReadings ops1 ++ clockReadings ops2.
Proof.
  induction ops1 as [|[] ops1 IH]; simpl; auto. now rewrite IH.
Qed.

Lemma run_snoc ops op : run (ops ++ [op]) = step (run ops) op.
Proof. unfold run. now rewrite fold_left_app. Qed.

Lemma StronglySorted_snoc {A : Type} (R : A -> A -> Prop) (l : list A) (x : A) :
  StronglySorted R l -> Forall (fun y => R y x) l -> StronglySorted R (l ++ [x]).
Proof.
  induction 1 as [|y l Hl IH Hy]; intros Hx; simpl.
  - repeat constructor.
  - inversion Hx; subst. constructor; [now apply IH|].
    apply Forall_app. split; [exact Hy | now repeat constructor].
Qed.

Lemma StronglySorted_app_inv_last (l : list Z) (t : Z) :
  StronglySorted Z.le (l ++ [t]) -> Forall (fun y => y <= t) l.
Proof.
  induction l as [|y l IH]; simpl; intros H; [constructor|].
  inversion H as [|? ? Hs Hy]; subst. constructor.
  - rewrite Forall_forall in Hy. apply Hy, in_or_app. right. now left.
  - now apply IH.
Qed.

Lemma StronglySorted_app_inv_l {A : Type} (R : A -> A -> Prop) (l1 l2 : list A) :
  StronglySorted R (l1 ++ l2) -> StronglySorted R l1.
Proof.
  induction l1 as [|y l1 IH]; simpl; intros H; [constructor|].
  inversion H as [|? ? Hs Hy]; subst. constructor; [now apply IH|].
  apply Forall_app in Hy. tauto.
Qed.

(** A pass that maps every element to at most one element with the same
    [createdAt] keeps the creation order. *)
Lemma StronglySorted_flat_pass (f : Annotation -> list Annotation)
    (l : list Annotation) :
  (forall a, f a = [] \/ exists b, f a = [b] /\ createdAt b = createdAt a) ->
  StronglySorted byCreatedAt l ->
  StronglySorted byCreatedAt (flat_map f l)
  /\ forall P : Z -> Prop, Forall (fun a => P (createdAt a)) l ->
       Forall (fun a => P (createdAt a)) (flat_map f l).
Proof.
  intros Hf. induction 1 as [|x l Hl IH Hx]; simpl.
  - split; [constructor | intros; constructor].
  - destruct IH as [IH1 IH2].
    destruct (Hf x) as [->|(b & -> & Hb)]; simpl.
    + split; [exact IH1|]. intros P HP. inversion HP; subst. now apply IH2.
    + split.
      * constructor; [exact IH1|].
        apply (IH2 (fun t => createdAt b <= t)). rewrite Hb. exact Hx.
      * intros P HP. inversion HP; subst. constructor; [now rewrite Hb|].
        now apply IH2.
Qed.

Lemma shiftList_flat_map es ee nl l :
  shiftList es ee nl l
  = flat_map (fun a => outcome (nl - (ee - es)) (branchTaken es ee a) a) l.
Proof.
  induction l as [|a l IH]; [reflexivity|].
  rewrite shiftList_cons, shiftList_outcome, IH. reflexivity.
Qed.

Lemma map_flat_map {A B : Type} (f : A -> B) (l : list A) :
  map f l = flat_map (fun a => [f a]) l.
Proof. induction l; simpl; congruence. Qed.

Lemma filter_flat_map {A : Type} (p : A -> bool) (l : list A) :
  filter p l = flat_map (fun a => if p a then [a] else []) l.
Proof.
  induction l as [|a l IH]; simpl; [reflexivity|]. rewrite IH.
  now destruct (p a).
Qed.

Lemma step_creationOrdered ops op st :
  StronglySorted Z.le (clockReadings (ops ++ [op])) ->
  creationOrdered ops st -> creationOrdered (ops ++ [op]) (step st op).
Proof.
  intros Hclock [Hs Hr]. unfold creationOrdered.
  rewrite clockReadings_app in *.
  assert (forall l : list Annotation,
    Forall (fun a => In (createdAt a) (clockReadings ops)) l ->
    Forall (fun a => In (createdAt a) (clockReadings ops ++ clockReadings [op])) l)
    as Hweak.
  { intros l. apply Forall_impl. intros a Ha. apply in_or_app. now left. }
  destruct op as [u t sel n s e k | i n | i | es ee nl]; simpl in *.
  - split.
    + apply StronglySorted_snoc; [exact Hs|].
      apply StronglySorted_app_inv_last in Hclock.
      rewrite Forall_forall in *. intros a Ha. unfold byCreatedAt. simpl.
      apply Hclock, Hr, Ha.
    + apply Forall_app. split; [now apply Hweak|].
      repeat constructor. simpl. apply in_or_app. right. now left.
  - rewrite map_flat_map.
    destruct (StronglySorted_flat_pass
      (fun a => [if String.eqb (id a) i then withNote a n else a])
      (annotations st)) as [H1 H2]; [|exact Hs|].
    + intros a. right. eexists. split; [reflexivity|].
      now destruct (String.eqb (id a) i).
    + split; [exact H1|]. apply Hweak. now apply (H2 (fun t => In t _)).
  - rewrite filter_flat_map.
    destruct (StronglySorted_flat_pass
      (fun a => if negb (String.eqb (id a) i) then [a] else [])
      (annotations st)) as [H1 H2]; [|exact Hs|].
    + intros a. destruct (negb (String.eqb (id a) i)); [right|now left].
      now exists a.
    + split; [exact H1|]. apply Hweak. now apply (H2 (fun t => In t _)).
  - rewrite shiftList_flat_map.
    destruct (StronglySorted_flat_pass
      (fun a => outcome (nl - (ee - es)) (branchTaken es ee a) a)
      (annotations st)) as [H1 H2]; [|exact Hs|].
    + intros a. destruct (branchTaken es ee a); simpl; auto; right.
      * now exists a.
      * now eexists.
    + split; [exact H1|]. apply Hweak. now apply (H2 (fun t => In t _)).
Qed.

Lemma run_creationOrdered ops :
  StronglySorted Z.le (clockReadings ops) -> creationOrdered ops (run ops).
Proof.
  induction ops as [|op ops IH] using rev_ind; intros Hclock.
  - split; constructor.
  - rewrite run_snoc. apply step_creationOrdered; [exact Hclock|].
    apply IH. rewrite clockReadings_app in Hclock.
    now apply StronglySorted_app_inv_l in Hclock.
Qed.

(** C6 (as amended).  After every sequence of calls of the hook's operations
    the exposed list is a rearrangement of the stored annotations that is
    sorted ascending by start offset; annotations with the same start offset
    keep the order in which they were inserted; and when the readings of
    [Date.now()] at the successive creations do not decrease, that is the
    order of [createdAt], so the list is ascending by (start, createdAt). *)
Theorem sortedAnnotations_order (ops : list Op) :
  let stored := annotations (run ops) in
  let shown := sortedAnnotations (run ops) in
  Permutation stored shown
  /\ StronglySorted byStart shown
  /\ (forall k, startingAt k shown = startingAt k stored)
  /\ (StronglySorted Z.le (clockReadings ops) ->
      StronglySorted byStartThenCreatedAt shown).
Proof.
  cbv zeta. unfold sortedAnnotations. repeat split.
  - apply sort_perm.
  - apply (sort_sorted markdownStartOffset).
  - intros k. apply (sort_stable markdownStartOffset).
  - intros Hclock.
    apply (sort_lex markdownStartOffset createdAt).
    apply (run_creationOrdered ops Hclock).
Qed.

(** C6, the claim as stated fails: when the second of two annotations with
    the same start offset is created with a smaller reading of [Date.now()],
    it still comes second, so the tie is not broken by [createdAt]. *)
Lemma sortedAnnotations_tie_not_by_createdAt :
  sortedAnnotations
    (run [OpAdd "a" 5 "" "" 0 1 range; OpAdd "b" 3 "" "" 0 1 range])
  = [annAtTime "a" 0 1 5; annAtTime "b" 0 1 3]
  /\ ~ StronglySorted byStartThenCreatedAt
         [annAtTime "a" 0 1 5; annAtTime "b" 0 1 3].
Proof.
  split; [reflexivity|]. intros H.
  inversion H as [|? ? _ Hall]; subst. inversion Hall as [|? ? Hab _]; subst.
  unfold byStartThenCreatedAt in Hab. simpl in Hab. lia.
Qed.

End OrderTheorems.

(** ** Strings: [take], [drop] and [slice] *)

Section StringFacts.

Lemma append_nil_r (s : string) : (s ++ "")%string = s.
Proof. induction s as [|c s IH]; simpl; congruence. Qed.

Lemma append_assoc (s t u : string) :
  ((s ++ t) ++ u)%string = (s ++ t ++ u)%string.
Proof. induction s as [|c s IH]; simpl; congruence. Qed.

Lemma length_append (s t : string) :
  String.length (s ++ t) = (String.length s + String.length t)%nat.
Proof. induction s as [|c s IH]; simpl; congruence. Qed.

Lemma take_all (n : nat) (s : string) :
  (String.length s <= n)%nat -> JS.take n s = s.
Proof.
  revert n. induction s as [|c s IH]; intros [|n] H; simpl in *;
    try reflexivity; try lia.
  rewrite IH by lia. reflexivity.
Qed.

Lemma drop_all (n : nat) (s : string) :
  (String.length s <= n)%nat -> JS.drop n s = "".
Proof.
  revert n. induction s as [|c s IH]; intros [|n] H; simpl in *;
    try reflexivity; try lia.
  apply IH. lia.
Qed.

Lemma length_take (n : nat) (s : string) :
  String.length (JS.take n s) = Nat.min n (String.length s).
Proof.
  revert n. induction s as [|c s IH]; intros [|n]; simpl; auto.
Qed.

Lemma length_drop (n : nat) (s : string) :
  String.length (JS.drop n s) = (String.length s - n)%nat.
Proof.
  revert n. induction s as [|c s IH]; intros [|n]; simpl; auto.
Qed.

Lemma take_drop_insert (n : nat) (ins s : string) :
  (JS.take n s ++ ins ++ JS.drop n s)%string = insertBefore n ins s.
Proof.
  revert n. induction s as [|c s IH]; intros [|n]; simpl;
    try reflexivity.
  - apply append_nil_r.
  - now rewrite IH.
Qed.

Lemma slice_prefix (s : string) (i : Z) :
  0 <= i -> JS.slice s 0 i = JS.take (Z.to_nat i) s.
Proof.
  intros Hi. unfold JS.slice, JS.clampIndex, JS.length. simpl.
  destruct (Z.ltb_spec i 0); [lia|].
  rewrite (Z.min_l 0) by lia. simpl. rewrite Z.sub_0_r.
  destruct (Z.le_ge_cases i (Z.of_nat (String.length s))).
  - now rewrite Z.min_l.
  - rewrite Z.min_r, Nat2Z.id by lia.
    rewrite !take_all; auto; lia.
Qed.

Lemma slice_suffix (s : string) (i : Z) :
  0 <= i -> JS.sliceFrom s i = JS.drop (Z.to_nat i) s.
Proof.
  intros Hi. unfold JS.sliceFrom, JS.slice, JS.clampIndex, JS.length.
  destruct (Z.ltb_spec i 0); [lia|].
  destruct (Z.ltb_spec (Z.of_nat (String.length s)) 0); [lia|].
  rewrite (Z.min_l (Z.of_nat _) (Z.of_nat _)) by lia.
  destruct (Z.le_ge_cases i (Z.of_nat (String.length s))).
  - rewrite Z.min_l by lia. apply take_all. rewrite length_drop. lia.
  - rewrite Z.min_r by lia. rewrite Nat2Z.id, Z.sub_diag. simpl.
    rewrite !drop_all; try lia. now destruct s.
Qed.

End StringFacts.

(** ** The export format: facts about the loop of [generateExport] *)

Section ExportTheorems.
Import LibExport.

Lemma StronglySorted_weaken {A : Type} (R R' : A -> A -> Prop) (l : list A) :
  (forall x y, R x y -> R' x y) -> StronglySorted R l -> StronglySorted R' l.
Proof.
  intros HR. induction 1 as [|x l Hl IH Hx]; constructor; auto.
  eapply Forall_impl; [|exact Hx]. auto.
Qed.

Lemma sort_descending_sorted (l : list Annotation) :
  StronglySorted byStartDescending
    (JS.sort (fun a b => markdownStartOffset b - markdownStartOffset a) l).
Proof.
  rewrite (sort_ext _ (ascendingBy (fun a => - markdownStartOffset a))).
  - eapply StronglySorted_weaken;
      [|apply (sort_sorted (fun a => - markdownStartOffset a))].
    unfold byStartDescending, keyLe. intros; lia.
  - intros x y.
    unfold ascendingBy.
    destruct (Z.leb_spec (markdownStartOffset y - markdownStartOffset x) 0),
             (Z.leb_spec (- markdownStartOffset x - - markdownStartOffset y) 0);
      auto; lia.
Qed.

Lemma export_step_insert (result : string) (ann : Annotation) :
  nonNegativeOffsets ann ->
  (let note := ("{" ++ note ann ++ "}")%string in
   match kind ann with
   | point =>
       (JS.slice result 0 (markdownStartOffset ann)
        ++ note ++ JS.sliceFrom result (markdownStartOffset ann))%string
   | range =>
       (JS.slice result 0 (markdownEndOffset ann)
        ++ " " ++ note ++ JS.sliceFrom result (markdownEndOffset ann))%string
   end) = exportStep result ann.
Proof.
  intros [Hs He]. unfold exportStep. cbv zeta.
  destruct (kind ann).
  - rewrite slice_prefix, slice_suffix by assumption.
    rewrite <- take_drop_insert. simpl. reflexivity.
  - rewrite slice_prefix, slice_suffix by assumption.
    now rewrite <- take_drop_insert.
Qed.

Lemma fold_left_ext_in {A B : Type} (f g : B -> A -> B) (l : list A) (b : B) :
  (forall a c, In a l -> f c a = g c a) -> fold_left f l b = fold_left g l b.
Proof.
  revert b. induction l as [|x l IH]; intros b H; simpl; [reflexivity|].
  rewrite H by now left. apply IH. intros a c Ha. apply H. now right.
Qed.

Lemma length_insertBefore (i : nat) (ins s : string) :
  String.length (insertBefore i ins s)
  = (String.length ins + String.length s)%nat.
Proof.
  rewrite <- take_drop_insert, !length_append, length_take, length_drop. lia.
Qed.

Lemma take_insertBefore (p i : nat) (ins s : string) :
  (p <= i)%nat -> (p <= String.length s)%nat ->
  JS.take p (insertBefore i ins s) = JS.take p s.
Proof.
  revert p i. induction s as [|c s IH]; intros [|p] [|i] Hi Hs; simpl in *;
    try reflexivity; try lia.
  rewrite IH by lia. reflexivity.
Qed.

End ExportTheorems.

(** ** Resolving a selection: [selectionToMarkdownRange] *)

Section SelectionTheorems.
Import Dom Selection.

Lemma walkUp_owner doc node offset which up :
  walkUp doc node offset which up
  = match nearestFrom doc up with
    | Some (el, s, e) =>
        Some (Z.min (s + getTextOffsetInElement doc el node offset) e)
    | None => None
    end.
Proof.
  induction up as [|i up IH]; simpl.
  - destruct doc as [d|tag attrs cs]; try reflexivity.
    destruct (dataSourceStart attrs), (dataSourceEnd attrs), which; reflexivity.
  - destruct (getNode doc (rev up ++ [i])) as [[d|tag attrs cs]|]; try reflexivity.
    destruct (dataSourceStart attrs), (dataSourceEnd attrs), which;
      try reflexivity; apply IH.
Qed.

Lemma findSourcePosition_owner doc node offset which :
  findSourcePosition doc node offset which
  = match owner doc node with
    | Some (el, s, e) =>
        Some (Z.min (s + getTextOffsetInElement doc el node offset) e)
    | None => None
    end.
Proof.
  unfold findSourcePosition, owner, startingElement.
  destruct (getNode doc node) as [[d|tag attrs cs]|]; try reflexivity.
  - destruct (parentElement node); [apply walkUp_owner | reflexivity].
  - apply walkUp_owner.
Qed.

Lemma nearestFrom_carries doc up el s e :
  nearestFrom doc up = Some (el, s, e) ->
  carriesSourcePosition doc el s e /\ exists rest, rev up = el ++ rest.
Proof.
  induction up as [|i up IH]; simpl.
  - destruct doc as [d|tag attrs cs]; try discriminate.
    destruct (dataSourceStart attrs) eqn:Es, (dataSourceEnd attrs) eqn:Ee;
      try discriminate.
    intros [= <- <- <-]. split; [|now exists []].
    now exists tag, attrs, cs.
  - destruct (getNode doc (rev up ++ [i])) as [[d|tag attrs cs]|] eqn:G;
      try discriminate.
    destruct (dataSourceStart attrs) eqn:Es, (dataSourceEnd attrs) eqn:Ee;
      try (intros H; destruct (IH H) as [Hc [rest Hr]]; split; [exact Hc|];
           exists (rest ++ [i]); rewrite Hr; now rewrite app_assoc).
    intros [= <- <- <-]. split; [|exists []; now rewrite app_nil_r].
    now exists tag, attrs, cs.
Qed.

Lemma owner_resolvable doc node el s e :
  owner doc node = Some (el, s, e) -> resolvable doc node.
Proof.
  unfold owner, startingElement.
  destruct (getNode doc node) as [[d|tag attrs cs]|]; try discriminate.
  - destruct node as [|i node]; [discriminate|]. cbn [parentElement].
    intros H. apply nearestFrom_carries in H as [Hc [rest Hr]].
    rewrite rev_involutive in Hr.
    exists el, (rest ++ [last (i :: node) 0%nat]), s, e. split; [|exact Hc].
    rewrite app_assoc, <- Hr. apply app_removelast_last. discriminate.
  - intros H. apply nearestFrom_carries in H as [Hc [rest Hr]].
    rewrite rev_involutive in Hr. now exists el, rest, s, e.
Qed.

Lemma findSourcePosition_unresolvable doc node offset which :
  ~ resolvable doc node -> findSourcePosition doc node offset which = None.
Proof.
  intros H. rewrite findSourcePosition_owner.
  destruct (owner doc node) as [[[el s] e]|] eqn:E; [|reflexivity].
  elim H. eapply owner_resolvable, E.
Qed.

(** C9.  [selectionToMarkdownRange] is a total function (it returns on every
    input, so nothing is thrown), and it returns [null] whenever an endpoint
    of the selection cannot be resolved, that is, neither the endpoint's node
    nor any of its ancestors carries source-position metadata, or the
    selected text is empty once trimmed.  In particular a selection whose
    endpoints both lie outside every node with metadata gives [null]. *)
Theorem selectionToMarkdownRange_null (doc : Node) (selection : Dom.Selection)
    (containerEl : Path) :
  (forall rng, hd_error (ranges selection) = Some rng ->
     ~ resolvable doc (startContainer rng)
     \/ ~ resolvable doc (endContainer rng))
  \/ JS.trim (toString selection) = "" ->
  selectionToMarkdownRange doc selection containerEl = None.
Proof.
  intros H. unfold selectionToMarkdownRange.
  destruct (ranges selection) as [|rng rest]; [reflexivity|].
  destruct (collapsed rng); [reflexivity|].
  destruct (negb (contains doc containerEl (startContainer rng))
            || negb (contains doc containerEl (endContainer rng)));
    [reflexivity|].
  destruct H as [H|H].
  - destruct (String.eqb (JS.trim (toString selection)) ""); [reflexivity|].
    destruct (H rng eq_refl) as [Hs|He].
    + now rewrite (findSourcePosition_unresolvable _ _ _ _ Hs).
    + rewrite (findSourcePosition_unresolvable _ _ _ _ He).
      now destruct (findSourcePosition doc (startContainer rng) _ _).
  - now rewrite H.
Qed.

End SelectionTheorems.

Section SliceFacts.

Lemma drop_drop (n m : nat) (s : string) :
  JS.drop n (JS.drop m s) = JS.drop (m + n) s.
Proof.
  revert m. induction s as [|c s IH]; intros [|m]; simpl;
    solve [now destruct n | apply IH].
Qed.

Lemma drop_take (n m : nat) (s : string) :
  JS.drop n (JS.take m s) = JS.take (m - n) (JS.drop n s).
Proof.
  revert n m. induction s as [|c s IH]; intros [|n] [|m]; simpl;
    try reflexivity.
  - now destruct (m - n)%nat.
  - apply IH.
Qed.

Lemma take_take (n m : nat) (s : string) :
  JS.take n (JS.take m s) = JS.take (Nat.min n m) s.
Proof.
  revert n m. induction s as [|c s IH]; intros [|n] [|m]; simpl;
    try reflexivity.
  now rewrite IH.
Qed.

Lemma slice_nonneg (s : string) (i j : Z) :
  0 <= i -> 0 <= j ->
  JS.slice s i j
  = JS.take (Z.to_nat (Z.min j (JS.length s) - Z.min i (JS.length s)))
            (JS.drop (Z.to_nat (Z.min i (JS.length s))) s).
Proof.
  intros Hi Hj. unfold JS.slice, JS.clampIndex.
  destruct (Z.ltb_spec i 0); [lia|]. destruct (Z.ltb_spec j 0); [lia|].
  reflexivity.
Qed.

Lemma length_slice (s : string) (i j : Z) :
  0 <= i -> i <= j -> j <= JS.length s -> JS.length (JS.slice s i j) = j - i.
Proof.
  intros Hi Hij Hj. rewrite slice_nonneg by lia. unfold JS.length in *.
  rewrite length_take, length_drop. lia.
Qed.

(** A slice of a slice is a slice of the whole. *)
Lemma slice_slice (src : string) (S E a b : Z) :
  0 <= S -> S <= E -> E <= JS.length src -> 0 <= a -> 0 <= b ->
  JS.slice (JS.slice src S E) a b
  = JS.slice src (Z.min (S + a) E) (Z.min (S + b) E).
Proof.
  intros HS HSE HE Ha Hb.
  rewrite (slice_nonneg (JS.slice src S E)) by assumption.
  rewrite (length_slice src S E) by assumption.
  rewrite (slice_nonneg src S E) by lia.
  rewrite (slice_nonneg src (Z.min (S + a) E)) by lia.
  rewrite drop_take, drop_drop, take_take.
  f_equal; [|f_equal]; unfold JS.length in *; lia.
Qed.

End SliceFacts.

Section AnchorTheorems.
Import Dom Selection.

Lemma countUpTo_nonneg nodes target targetOffset count :
  0 <= targetOffset -> 0 <= count ->
  0 <= countUpTo nodes target targetOffset count.
Proof.
  intros Ho. revert count.
  induction nodes as [|[p d] nodes IH]; intros count Hc; simpl; [exact Hc|].
  destruct (pathEqb p target); [lia|].
  apply IH. unfold JS.length. lia.
Qed.

Lemma getTextOffsetInElement_nonneg doc root target targetOffset :
  0 <= targetOffset -> 0 <= getTextOffsetInElement doc root target targetOffset.
Proof.
  intros Ho. unfold getTextOffsetInElement.
  destruct (getNode doc root); [|lia].
  apply countUpTo_nonneg; lia.
Qed.

(** C5, evaluated.  The offsets that [selectionToMarkdownRange] returns do
    not index the source text.  In the rendering of [**bold** text] the
    selection of the word "bold" gives the offsets 0 and 4 with the anchor
    text "bold"; the source between 0 and 4 is [**bo], and the word lies
    between 2 and 6.  In a plain paragraph, a selection whose endpoints are
    the paragraph element itself (before its first and after its last child)
    gives the offsets 17 and 17 with the whole text as anchor, and the source
    between them is empty; and a selection that starts at a space keeps the
    space in its offsets and loses it in the anchor text. *)
Lemma selectionToMarkdownRange_anchor_differs :
  selectionToMarkdownRange boldParagraph (selectIn [0; 0; 0] 0 4 "bold")%nat []
  = Some (mkMarkdownRange 0 4 "bold")
  /\ JS.slice boldSource 0 4 = "**bo"
  /\ JS.slice boldSource 2 6 = "bold"
  /\ selectionToMarkdownRange plainParagraph
       (mkSelection [mkRange [0]%nat 0 [0]%nat 1] "The API uses REST") []
     = Some (mkMarkdownRange 17 17 "The API uses REST")
  /\ JS.slice plainSource 17 17 = ""
  /\ JS.slice plainSource 0 17 = "The API uses REST"
  /\ selectionToMarkdownRange plainParagraph
       (selectIn [0; 0] 12 17 " REST")%nat []
     = Some (mkMarkdownRange 12 17 "REST")
  /\ JS.slice plainSource 12 17 = " REST".
Proof.
  repeat split; vm_compute; reflexivity.
Qed.

Lemma bareParagraph_unresolvable : ~ resolvable bareParagraph [0; 0]%nat.
Proof.
  intros (q & rest & s & e & Hq & tag & attrs & cs & G & Hs & He).
  destruct q as [|i [|j [|k q]]]; simpl in Hq.
  - cbn in G. inversion G; subst. discriminate.
  - inversion Hq; subst. cbn in G. inversion G; subst. discriminate.
  - inversion Hq; subst. cbn in G. discriminate.
  - destruct rest; discriminate.
Qed.

Lemma selectionToMarkdownRange_null_witness :
  selectionToMarkdownRange bareParagraph (selectIn [0; 0] 0 5 "hello")%nat []
  = None.
Proof.
  apply selectionToMarkdownRange_null. left.
  intros rng [= <-]. left. exact bareParagraph_unresolvable.
Defined.

End AnchorTheorems.

(** ** Highlight projection: [applyHighlights] *)

Section HighlightFacts.
Import Dom DocumentView.

(** Induction on a node with the property for all its children. *)
Lemma Node_children_ind (P : Node -> Prop) :
  (forall d, P (Text d)) ->
  (forall tag attrs cs, Forall P cs -> P (Element tag attrs cs)) ->
  forall n, P n.
Proof.
  intros HT HE. fix IH 1. intros [d|tag attrs cs]; [apply HT|].
  apply HE. induction cs as [|c cs IHcs]; constructor; [apply IH | exact IHcs].
Qed.

Lemma countMarks_Element tag attrs cs :
  countMarks (Element tag attrs cs) = countMarksAmong cs.
Proof. reflexivity. Qed.

Lemma unwrapFirstMark_Element tag attrs cs :
  unwrapFirstMark (Element tag attrs cs)
  = match unwrapAmong cs with
    | Some (cs', true) => Some (normalize (Element tag attrs cs'))
    | Some (cs', false) => Some (Element tag attrs cs')
    | None => None
    end.
Proof. reflexivity. Qed.

Lemma removePointMarkers_Element tag attrs cs :
  removePointMarkers (Element tag attrs cs)
  = Element tag attrs (removePointMarkersAmong cs).
Proof. reflexivity. Qed.

Lemma markers_Element tag attrs cs :
  markers (Element tag attrs cs) = markersAmong cs.
Proof. reflexivity. Qed.

Lemma countMarksAmong_app cs1 cs2 :
  countMarksAmong (cs1 ++ cs2) = (countMarksAmong cs1 + countMarksAmong cs2)%nat.
Proof. induction cs1 as [|c cs1 IH]; simpl; [reflexivity|]. rewrite IH. lia. Qed.

Lemma countMarksAmong_mergeText cs :
  countMarksAmong (mergeText cs) = countMarksAmong cs.
Proof.
  induction cs as [|[d|tag attrs cs'] cs IH].
  - reflexivity.
  - cbn [mergeText]. destruct (mergeText cs) as [|[d'|tag' attrs' cs''] rest].
    + destruct (String.eqb d ""); simpl in *; lia.
    + simpl in *. lia.
    + destruct (String.eqb d ""); simpl in *; lia.
  - cbn [mergeText countMarksAmong]. now rewrite IH.
Qed.

Lemma isAnnotationMark_normalize n :
  isAnnotationMark (normalize n) = isAnnotationMark n.
Proof. now destruct n. Qed.

Lemma countMarks_normalize n : countMarks (normalize n) = countMarks n.
Proof.
  induction n as [d|tag attrs cs IH] using Node_children_ind; [reflexivity|].
  cbn [normalize]. rewrite !countMarks_Element, countMarksAmong_mergeText.
  induction IH as [|c cs Hc _ IHcs]; [reflexivity|].
  cbn [map countMarksAmong]. now rewrite isAnnotationMark_normalize, Hc, IHcs.
Qed.

Lemma unwrapFirstMark_same_element n n' :
  unwrapFirstMark n = Some n' ->
  isAnnotationMark n' = isAnnotationMark n /\ isPointMarker n' = isPointMarker n.
Proof.
  destruct n as [d|tag attrs cs]; [discriminate|].
  rewrite unwrapFirstMark_Element.
  destruct (unwrapAmong cs) as [[cs' [|]]|]; intros [= <-]; now split.
Qed.

Lemma unwrapFirstMark_count n :
  match unwrapFirstMark n with
  | Some n' => countMarks n = S (countMarks n')
  | None => countMarks n = 0%nat
  end.
Proof.
  induction n as [d|tag attrs cs IH] using Node_children_ind; [reflexivity|].
  rewrite unwrapFirstMark_Element.
  assert (match unwrapAmong cs with
          | Some (cs', _) => countMarksAmong cs = S (countMarksAmong cs')
          | None => countMarksAmong cs = 0%nat
          end) as H.
  { induction IH as [|c cs Hc _ IHcs]; [reflexivity|].
    cbn [unwrapAmong countMarksAmong].
    destruct (isAnnotationMark c) eqn:Hm.
    - rewrite countMarksAmong_app. destruct c as [d|t a cs0]; [discriminate|].
      cbn [children]. rewrite countMarks_Element. lia.
    - destruct (unwrapFirstMark c) as [c'|] eqn:Hu.
      + cbn [countMarksAmong].
        destruct (unwrapFirstMark_same_element c c' Hu) as [Hm' _].
        rewrite Hm', Hm, Hc. lia.
      + destruct (unwrapAmong cs) as [[rest' here]|].
        * cbn [countMarksAmong]. rewrite Hm, Hc, IHcs. lia.
        * rewrite Hc, IHcs. reflexivity. }
  destruct (unwrapAmong cs) as [[cs' [|]]|].
  - rewrite countMarks_normalize, !countMarks_Element. exact H.
  - rewrite !countMarks_Element. exact H.
  - rewrite countMarks_Element. exact H.
Qed.

Lemma unwrapMarks_count turns n :
  countMarks (unwrapMarks turns n) = (countMarks n - turns)%nat.
Proof.
  revert n. induction turns as [|turns IH]; intros n; simpl; [lia|].
  pose proof (unwrapFirstMark_count n) as H.
  destruct (unwrapFirstMark n) as [n'|]; [rewrite IH|]; lia.
Qed.

(** One turn per mark is enough: [removeMarks] leaves no mark. *)
Lemma removeMarks_complete n : countMarks (removeMarks n) = 0%nat.
Proof. unfold removeMarks. rewrite unwrapMarks_count. lia. Qed.

Lemma removePointMarkers_same_element n :
  isAnnotationMark (removePointMarkers n) = isAnnotationMark n
  /\ isPointMarker (removePointMarkers n) = isPointMarker n.
Proof. now destruct n. Qed.

Lemma removePointMarkers_no_marker n :
  countMarks n = 0%nat -> markers (removePointMarkers n) = [].
Proof.
  induction n as [d|tag attrs cs IH] using Node_children_ind; [reflexivity|].
  rewrite countMarks_Element, removePointMarkers_Element, markers_Element.
  induction IH as [|c cs Hc _ IHcs]; [reflexivity|].
  cbn [countMarksAmong removePointMarkersAmong]. intros H.
  destruct (isAnnotationMark c) eqn:Hm; [lia|].
  destruct (isPointMarker c) eqn:Hp; [apply IHcs; lia|].
  cbn [markersAmong].
  destruct (removePointMarkers_same_element c) as [-> ->].
  rewrite Hm, Hp, Hc, IHcs by lia. reflexivity.
Qed.

(** The cleanup at the start of [applyHighlights] removes every marker. *)
Lemma cleanup_removes_markers n :
  markers (removePointMarkers (removeMarks n)) = [].
Proof. apply removePointMarkers_no_marker, removeMarks_complete. Qed.

(** C7, evaluated.  On the paragraph [emphasisParagraph] with the three
    annotations [emphasisAnnotations], the first call of [applyHighlights]
    leaves four markers; the second call, with the same annotations and
    active id on the tree the first call left, leaves five: the range "d"
    gets a second mark.  Between the calls every marker is removed, but the
    Text node that the point marker split stays split into "abcde" and
    "fgh", so the second pass does not start from the tree the first pass
    started from. *)
Lemma applyHighlights_twice_differs :
  let once := applyHighlights emphasisParagraph emphasisAnnotations None in
  let twice := applyHighlights once emphasisAnnotations None in
  let marker := "inline-block w-2 h-2 rounded-full mx-0.5 align-middle cursor-pointer bg-sienna-400/60 hover:bg-sienna-500" in
  markers once
  = [("MARK", "d", ""); ("MARK", "efg", ""); ("SPAN", "p", marker);
     ("MARK", "efg", "")]
  /\ markers twice
     = [("MARK", "d", ""); ("MARK", "efg", ""); ("SPAN", "p", marker);
        ("MARK", "d", ""); ("MARK", "efg", "")]
  /\ removePointMarkers (removeMarks once)
     = Element "DIV" noAttributes
         [Element "P" (sourceAttributes 0 16)
            [Element "EM" (sourceAttributes 0 3) [Text "a"];
             Text " ";
             Element "STRONG" (sourceAttributes 4 16)
               [Text "abcde"; Text "fgh"]]].
Proof.
  cbv zeta. repeat split; vm_compute; reflexivity.
Qed.

End HighlightFacts.

(** * Further properties *)

(** ** The stable sort is determined by the order within each key *)

Section SortCanonical.
Context {A : Type}.
Variable key : A -> Z.

Lemma filter_key_nil (l : list A) :
  (forall k, filter (fun a => key a =? k) l = []) -> l = [].
Proof.
  destruct l as [|x l]; [reflexivity|]. intros H.
  specialize (H (key x)). simpl in H. rewrite Z.eqb_refl in H. discriminate.
Qed.

Lemma filter_key_head (k : Z) (x : A) (l : list A) :
  StronglySorted (keyLe key) (x :: l) ->
  filter (fun a => key a =? k) (x :: l) <> [] -> key x <= k.
Proof.
  intros Hs Hne. inversion Hs as [|? ? _ Hx]; subst.
  simpl in Hne. destruct (Z.eqb_spec (key x) k); [lia|].
  destruct (filter (fun a => key a =? k) l) as [|z r] eqn:E; [now elim Hne|].
  assert (In z (filter (fun a => key a =? k) l)) as Hz by (rewrite E; now left).
  apply filter_In in Hz as [Hz Hk]. apply Z.eqb_eq in Hk.
  rewrite Forall_forall in Hx. specialize (Hx z Hz). unfold keyLe in Hx. lia.
Qed.

(** Two lists sorted by [key] that hold the same elements in the same order
    for every key are equal. *)
Lemma sorted_unique (l1 l2 : list A) :
  StronglySorted (keyLe key) l1 -> StronglySorted (keyLe key) l2 ->
  (forall k, filter (fun a => key a =? k) l1 = filter (fun a => key a =? k) l2) ->
  l1 = l2.
Proof.
  intros H1. revert l2. induction H1 as [|x l1 Hs1 IH Hx]; intros l2 H2 Hf.
  - symmetry. apply filter_key_nil. intros k. now rewrite <- Hf.
  - destruct l2 as [|y l2].
    + specialize (Hf (key x)). simpl in Hf. rewrite Z.eqb_refl in Hf. discriminate.
    + assert (key x = key y) as Hk.
      { assert (key y <= key x).
        { apply (filter_key_head (key x) y l2 H2). rewrite <- Hf. simpl.
          rewrite Z.eqb_refl. discriminate. }
        assert (key x <= key y).
        { apply (filter_key_head (key y) x l1); [now constructor|].
          rewrite Hf. simpl. rewrite Z.eqb_refl. discriminate. }
        lia. }
      pose proof (Hf (key x)) as Hh. simpl in Hh.
      rewrite Z.eqb_refl, <- Hk, Z.eqb_refl in Hh.
      injection Hh as -> Ht. f_equal.
      inversion H2; subst. apply IH; [assumption|].
      intros k. specialize (Hf k). simpl in Hf.
      destruct (Z.eqb_spec (key y) k); [|exact Hf].
      now injection Hf.
Qed.

(** The result of the sort depends on the input only through the order of
    the elements of each key. *)
Lemma sort_canonical (l l' : list A) :
  (forall k, filter (fun a => key a =? k) l = filter (fun a => key a =? k) l') ->
  JS.sort (ascendingBy key) l = JS.sort (ascendingBy key) l'.
Proof.
  intros H. apply sorted_unique; try apply sort_sorted.
  intros k. now rewrite !sort_stable.
Qed.

Lemma sort_sorted_id (l : list A) :
  StronglySorted (keyLe key) l -> JS.sort (ascendingBy key) l = l.
Proof.
  intros H. apply sorted_unique; [apply sort_sorted | exact H |].
  intros k. apply sort_stable.
Qed.

Lemma filter_comm (p q : A -> bool) (l : list A) :
  filter p (filter q l) = filter q (filter p l).
Proof.
  induction l as [|x l IH]; [reflexivity|]. simpl.
  destruct (p x) eqn:Hp, (q x) eqn:Hq; simpl; rewrite ?Hp, ?Hq, IH; reflexivity.
Qed.

Lemma StronglySorted_filter (R : A -> A -> Prop) (p : A -> bool) (l : list A) :
  StronglySorted R l -> StronglySorted R (filter p l).
Proof.
  induction 1 as [|x l Hl IH Hx]; simpl; [constructor|].
  destruct (p x); [|exact IH]. constructor; [exact IH|].
  rewrite Forall_forall in *. intros z Hz. apply Hx.
  now apply filter_In in Hz.
Qed.

Lemma sort_filter (p : A -> bool) (l : list A) :
  JS.sort (ascendingBy key) (filter p l) = filter p (JS.sort (ascendingBy key) l).
Proof.
  apply sorted_unique.
  - apply sort_sorted.
  - apply StronglySorted_filter, sort_sorted.
  - intros k. rewrite sort_stable.
    rewrite (filter_comm _ p (JS.sort _ l)), sort_stable. apply filter_comm.
Qed.

End SortCanonical.

Section SortMap.
Context {A : Type}.

Lemma insertSorted_map (cmp : A -> A -> Z) (f : A -> A) (x : A) (s : list A) :
  (forall a b, cmp (f a) (f b) = cmp a b) ->
  JS.insertSorted cmp (f x) (map f s) = map f (JS.insertSorted cmp x s).
Proof.
  intros H. induction s as [|y s IH]; [reflexivity|]. simpl.
  rewrite H. destruct (cmp x y <=? 0); [reflexivity|]. simpl. now rewrite IH.
Qed.

Lemma sort_map (cmp : A -> A -> Z) (f : A -> A) (l : list A) :
  (forall a b, cmp (f a) (f b) = cmp a b) ->
  JS.sort cmp (map f l) = map f (JS.sort cmp l).
Proof.
  intros H. induction l as [|x l IH]; [reflexivity|]. simpl.
  rewrite IH. now apply insertSorted_map.
Qed.

End SortMap.

(** ** The store: updating, deleting and shifting *)

Section StoreFurther.
Import UseAnnotations.

Lemma map_id_ext_in {A : Type} (f : A -> A) (l : list A) :
  (forall a, In a l -> f a = a) -> map f l = l.
Proof.
  induction l as [|x l IH]; intros H; simpl; [reflexivity|].
  rewrite H by now left. rewrite IH; [reflexivity|].
  intros a Ha. apply H. now right.
Qed.

Lemma filter_all {A : Type} (p : A -> bool) (l : list A) :
  (forall a, In a l -> p a = true) -> filter p l = l.
Proof.
  induction l as [|x l IH]; intros H; simpl; [reflexivity|].
  rewrite H by now left. rewrite IH; [reflexivity|].
  intros a Ha. apply H. now right.
Qed.

Lemma filter_idem {A : Type} (p : A -> bool) (l : list A) :
  filter p (filter p l) = filter p l.
Proof.
  apply filter_all. intros a Ha. now apply filter_In in Ha.
Qed.

(** An id that no stored annotation has changes nothing:
    [updateAnnotation] leaves the store as it is, [deleteAnnotation] leaves
    the annotations as they are, and the whole store when the id is not the
    active one either. *)
Theorem unknown_id_changes_nothing (id0 : string) (st : State) :
  (forall a, In a (annotations st) -> id a <> id0) ->
  (forall note0, updateAnnotation id0 note0 st = st)
  /\ annotations (deleteAnnotation id0 st) = annotations st
  /\ (activeAnnotationId st <> Some id0 -> deleteAnnotation id0 st = st).
Proof.
  intros H. destruct st as [l act]. simpl in H.
  assert (filter (fun a => negb (String.eqb (id a) id0)) l = l) as Hf.
  { apply filter_all. intros a Ha. apply negb_true_iff, String.eqb_neq.
    now apply H. }
  split; [|split].
  - intros note0. unfold updateAnnotation. simpl. f_equal.
    apply map_id_ext_in. intros a Ha.
    destruct (String.eqb_spec (id a) id0) as [E|]; [|reflexivity].
    now elim (H a Ha).
  - exact Hf.
  - intros Hact. unfold deleteAnnotation. simpl in *. rewrite Hf. f_equal.
    destruct act as [prev|]; [|reflexivity].
    destruct (String.eqb_spec prev id0); [congruence | reflexivity].
Qed.

Lemma unknown_id_changes_nothing_witness :
  (forall note0,
     updateAnnotation "b" note0
       (mkState [mkAnnotation "a" range "text" "old" 0 4 1] (Some "a"))
     = mkState [mkAnnotation "a" range "text" "old" 0 4 1] (Some "a"))
  /\ annotations (deleteAnnotation "b"
       (mkState [mkAnnotation "a" range "text" "old" 0 4 1] (Some "a")))
     = [mkAnnotation "a" range "text" "old" 0 4 1]
  /\ (Some "a" <> Some "b" ->
      deleteAnnotation "b"
        (mkState [mkAnnotation "a" range "text" "old" 0 4 1] (Some "a"))
      = mkState [mkAnnotation "a" range "text" "old" 0 4 1] (Some "a")).
Proof.
  apply (unknown_id_changes_nothing "b"
           (mkState [mkAnnotation "a" range "text" "old" 0 4 1] (Some "a"))).
  intros a [<-|[]]. simpl. discriminate.
Defined.

(** [updateAnnotation] changes notes only: the list the hook returns
    after it is the list it returned before, in the same order, with the
    note replaced in the annotations of the given id; ids, kinds, anchor
    texts, offsets and creation times are those of before, and so is the
    active id. *)
Theorem updateAnnotation_display (id0 note0 : string) (st : State) :
  sortedAnnotations (updateAnnotation id0 note0 st)
  = map (noteUpdate id0 note0) (sortedAnnotations st)
  /\ (forall a, let b := noteUpdate id0 note0 a in
        id b = id a /\ kind b = kind a /\ selectedText b = selectedText a
        /\ markdownStartOffset b = markdownStartOffset a
        /\ markdownEndOffset b = markdownEndOffset a
        /\ createdAt b = createdAt a
        /\ note b = (if String.eqb (id a) id0 then note0 else note a))
  /\ activeAnnotationId (updateAnnotation id0 note0 st) = activeAnnotationId st.
Proof.
  split; [|split].
  - unfold sortedAnnotations, updateAnnotation. simpl.
    fold (noteUpdate id0 note0).
    apply sort_map. intros a b. unfold noteUpdate.
    destruct (String.eqb (id a) id0), (String.eqb (id b) id0); reflexivity.
  - intros a. unfold noteUpdate. simpl.
    destruct (String.eqb (id a) id0); simpl; repeat split; reflexivity.
  - reflexivity.
Qed.

(** Deleting commutes with the display order, and deleting twice is
    deleting once: the list the hook returns after [deleteAnnotation] is the
    list it returned before without the annotations of that id, the others
    in the same order. *)
Theorem deleteAnnotation_display (id0 : string) (st : State) :
  sortedAnnotations (deleteAnnotation id0 st)
  = filter (otherThan id0) (sortedAnnotations st)
  /\ deleteAnnotation id0 (deleteAnnotation id0 st) = deleteAnnotation id0 st.
Proof.
  split.
  - unfold sortedAnnotations, deleteAnnotation. simpl.
    apply (sort_filter markdownStartOffset).
  - unfold deleteAnnotation. simpl. f_equal; [apply filter_idem|].
    destruct (activeAnnotationId st) as [prev|]; [|reflexivity].
    destruct (String.eqb prev id0) eqn:E; [reflexivity|]. now rewrite E.
Qed.

(** Adding an annotation under a fresh id and deleting it again gives
    the store back: the other annotations, their order and the active id are
    as before. *)
Theorem add_then_delete (uuid : string) (now : Z) (sel n : string)
    (s e : Z) (k : AnnotationKind) (st : State) :
  (forall a, In a (annotations st) -> id a <> uuid) ->
  activeAnnotationId st <> Some uuid ->
  deleteAnnotation uuid (snd (addAnnotation uuid now sel n s e k st)) = st.
Proof.
  intros H Hact. destruct st as [l act]. unfold deleteAnnotation, addAnnotation.
  simpl in *. f_equal.
  - rewrite filter_app. simpl. rewrite String.eqb_refl. simpl.
    rewrite app_nil_r. apply filter_all. intros a Ha.
    apply negb_true_iff, String.eqb_neq. now apply H.
  - destruct act as [prev|]; [|reflexivity].
    destruct (String.eqb_spec prev uuid); [congruence | reflexivity].
Qed.

Lemma add_then_delete_witness :
  deleteAnnotation "b"
    (snd (addAnnotation "b" 2 "" "why?" 3 3 point
            (mkState [mkAnnotation "a" range "text" "old" 0 4 1] (Some "a"))))
  = mkState [mkAnnotation "a" range "text" "old" 0 4 1] (Some "a").
Proof.
  apply add_then_delete.
  - intros a [<-|[]]. simpl. discriminate.
  - simpl. discriminate.
Defined.

Lemma keptBy_outcome (delta : Z) (es ee : Z) (a : Annotation) :
  map identity (outcome delta (branchTaken es ee a) a)
  = if keptBy es ee a then [identity a] else [].
Proof.
  unfold keptBy. destruct (branchTaken es ee a); reflexivity.
Qed.

Lemma shiftList_identity (es ee nl : Z) (l : list Annotation) :
  map identity (shiftList es ee nl l) = map identity (filter (keptBy es ee) l).
Proof.
  rewrite shiftList_flat_map.
  induction l as [|a l IH]; [reflexivity|].
  cbn [flat_map filter]. rewrite map_app, IH, keptBy_outcome.
  destruct (keptBy es ee a); reflexivity.
Qed.

(** [shiftAnnotations] touches offsets only: the annotations it keeps
    are those before or after the edit, in the order they had, each with its
    id, kind, anchor text, note and creation time; and the active id is left
    as it is. *)
Theorem shiftAnnotations_keeps_identity (es ee nl : Z) (st : State) :
  map identity (annotations (shiftAnnotations es ee nl st))
  = map identity (filter (keptBy es ee) (annotations st))
  /\ activeAnnotationId (shiftAnnotations es ee nl st) = activeAnnotationId st.
Proof.
  split; [apply shiftList_identity | reflexivity].
Qed.

Lemma withOffsets_same (a : Annotation) (s e : Z) :
  s = markdownStartOffset a -> e = markdownEndOffset a -> withOffsets a s e = a.
Proof. intros -> ->. now destruct a. Qed.

Lemma shift_undo_one (es ee nl : Z) (a : Annotation) :
  es <= ee -> 0 <= nl ->
  shiftList es (es + nl) (ee - es)
    (outcome (nl - (ee - es)) (branchTaken es ee a) a)
  = if keptBy es ee a then [a] else [].
Proof.
  intros Hle Hnl. unfold keptBy.
  pose proof (branchTaken_holds es ee a) as H.
  pose proof (fun c => branchTaken_first es ee a c) as F.
  destruct (branchTaken es ee a) eqn:E; simpl in *; try reflexivity.
  - (* before *)
    assert (~ fullyContained es ee a) as NC
      by (intro C; specialize (F Contained C); simpl in F; lia).
    unfold fullyBefore, fullyContained in *.
    apply shiftList_before; unfold fullyBefore, fullyContained; lia.
  - (* after *)
    assert (~ fullyContained es ee a) as NC
      by (intro C; specialize (F Contained C); simpl in F; lia).
    assert (~ fullyBefore es a) as NB
      by (intro C; specialize (F Before C); simpl in F; lia).
    unfold fullyAfter, fullyBefore, fullyContained in *.
    rewrite shiftList_after;
      unfold fullyAfter, fullyBefore, fullyContained, shifted; simpl; try lia.
    f_equal. unfold shifted, withOffsets. simpl.
    destruct a; simpl. f_equal; lia.
Qed.

(** Undoing an edit restores the offsets: when the [newLength]
    characters that replaced [editStart .. editEnd) are replaced back by
    text of the old length, the annotations that survived the first edit
    are exactly as they were before it, in the same order. *)
Theorem shiftAnnotations_undo (es ee nl : Z) (l : list Annotation) :
  es <= ee -> 0 <= nl ->
  shiftList es (es + nl) (ee - es) (shiftList es ee nl l)
  = filter (keptBy es ee) l.
Proof.
  intros Hle Hnl. rewrite (shiftList_flat_map es ee nl).
  induction l as [|a l IH]; [reflexivity|].
  cbn [flat_map filter]. rewrite shiftList_app, IH, shift_undo_one by assumption.
  destruct (keptBy es ee a); reflexivity.
Qed.

Lemma shiftAnnotations_undo_witness :
  shiftList 2 (2 + 3) (4 - 2)
    (shiftList 2 4 3 [annAt "a" 0 2; annAt "b" 3 4; annAt "c" 6 9])
  = filter (keptBy 2 4) [annAt "a" 0 2; annAt "b" 3 4; annAt "c" 6 9].
Proof. apply shiftAnnotations_undo; lia. Defined.

Lemma shift_append_one (p q n1 n2 : Z) (a : Annotation) :
  0 <= n1 -> p <= q <= p + n1 ->
  shiftList q q n2 (outcome (n1 - (p - p)) (branchTaken p p a) a)
  = outcome (n1 + n2 - (p - p)) (branchTaken p p a) a.
Proof.
  intros Hn Hq.
  pose proof (branchTaken_holds p p a) as H.
  pose proof (fun c => branchTaken_first p p a c) as F.
  destruct (branchTaken p p a) eqn:E; simpl in *; try reflexivity.
  - assert (~ fullyContained p p a) as NC
      by (intro C; specialize (F Contained C); simpl in F; lia).
    unfold fullyBefore, fullyContained in *.
    apply shiftList_before; unfold fullyBefore, fullyContained; lia.
  - assert (~ fullyContained p p a) as NC
      by (intro C; specialize (F Contained C); simpl in F; lia).
    unfold fullyAfter, fullyBefore, fullyContained in *.
    rewrite shiftList_after;
      unfold fullyAfter, fullyBefore, fullyContained, shifted; simpl; try lia.
    f_equal. unfold shifted, withOffsets. simpl. f_equal; lia.
Qed.

(** Insertions that continue one another compose: inserting [n1]
    characters at [p] and then [n2] characters at a place [q] inside or at
    either end of the text just inserted shifts the annotations as one
    insertion of [n1 + n2] characters at [p] does. *)
Theorem shiftAnnotations_insertions_compose (p q n1 n2 : Z)
    (l : list Annotation) :
  0 <= n1 -> p <= q <= p + n1 ->
  shiftList q q n2 (shiftList p p n1 l) = shiftList p p (n1 + n2) l.
Proof.
  intros Hn Hq. rewrite !(shiftList_flat_map p p).
  induction l as [|a l IH]; [reflexivity|].
  cbn [flat_map]. rewrite shiftList_app, IH, shift_append_one by assumption.
  reflexivity.
Qed.

Lemma shiftAnnotations_insertions_compose_witness :
  shiftList 3 3 1 (shiftList 2 2 1 [annAt "a" 0 2; annAt "b" 2 4; annAt "c" 6 9])
  = shiftList 2 2 (1 + 1) [annAt "a" 0 2; annAt "b" 2 4; annAt "c" 6 9].
Proof. apply shiftAnnotations_insertions_compose; lia. Defined.

(** [shiftAnnotations] never resets the active id: when the edit
    drops the active annotation, the active id stays and no stored
    annotation has it any more. *)
Theorem shiftAnnotations_leaves_active_id (es ee nl : Z) (st : State)
    (i : string) :
  activeAnnotationId st = Some i ->
  (forall a, In a (annotations st) -> id a = i -> keptBy es ee a = false) ->
  activeAnnotationId (shiftAnnotations es ee nl st) = Some i
  /\ forall b, In b (annotations (shiftAnnotations es ee nl st)) -> id b <> i.
Proof.
  intros Hact Hdrop. split; [exact Hact|].
  intros b Hb Hid.
  assert (In (identity b)
            (map identity (annotations (shiftAnnotations es ee nl st)))) as Hin
    by (now apply in_map).
  unfold shiftAnnotations in Hin. simpl in Hin.
  rewrite shiftList_identity in Hin.
  apply in_map_iff in Hin as (a & Ha & Hin).
  apply filter_In in Hin as [Hin Hk].
  assert (id a = id b) as E by (unfold identity in Ha; congruence).
  rewrite (Hdrop a Hin) in Hk; [discriminate | congruence].
Qed.

Lemma shiftAnnotations_leaves_active_id_witness :
  let st := mkState [annAt "a" 0 2; annAt "b" 3 4] (Some "b") in
  activeAnnotationId (shiftAnnotations 2 5 0 st) = Some "b"
  /\ forall b, In b (annotations (shiftAnnotations 2 5 0 st)) -> id b <> "b".
Proof.
  apply shiftAnnotations_leaves_active_id; [reflexivity|].
  intros a [<-|[<-|[]]]; [discriminate | reflexivity].
Defined.

Lemma uuidsIssued_app ops1 ops2 :
  uuidsIssued (ops1 ++ ops2) = uuidsIssued ops1 ++ uuidsIssued ops2.
Proof.
  induction ops1 as [|[] ops1 IH]; simpl; congruence.
Qed.

Lemma NoDup_keys_filter {A K : Type} (key : A -> K) (keep : A -> bool)
    (xs : list A) :
  NoDup (map key xs) -> NoDup (map key (filter keep xs)).
Proof.
  induction xs as [|x xs IH]; simpl; [auto|].
  intros H. inversion H as [|? ? Hx Hl]; subst.
  destruct (keep x); [|auto]. simpl. constructor; [|auto].
  intros Hin. apply Hx. apply in_map_iff in Hin as (y & Hy & Hin).
  apply filter_In in Hin as [Hin _]. apply in_map_iff. now exists y.
Qed.

Lemma map_id_noteUpdate (id0 note0 : string) (l : list Annotation) :
  map id (map (noteUpdate id0 note0) l) = map id l.
Proof.
  rewrite map_map. apply map_ext. intros a. unfold noteUpdate.
  now destruct (String.eqb (id a) id0).
Qed.

Lemma map_id_shiftList (es ee nl : Z) (l : list Annotation) :
  map id (shiftList es ee nl l) = map id (filter (keptBy es ee) l).
Proof.
  pose proof (shiftList_identity es ee nl l) as H.
  apply (f_equal (map (fun t => fst (fst (fst (fst t)))))) in H.
  rewrite !map_map in H. exact H.
Qed.

Lemma step_ids ops op :
  (NoDup (map id (annotations (run ops)))
   /\ incl (map id (annotations (run ops))) (uuidsIssued ops)) ->
  NoDup (uuidsIssued (ops ++ [op])) ->
  NoDup (map id (annotations (run (ops ++ [op]))))
  /\ incl (map id (annotations (run (ops ++ [op])))) (uuidsIssued (ops ++ [op])).
Proof.
  intros [Hnd Hincl] Hfresh. rewrite run_snoc, uuidsIssued_app in *.
  destruct op as [u t sel n s e k | i n | i | es ee nl]; simpl in *;
    rewrite ?app_nil_r in *.
  - rewrite map_app. simpl. split.
    + apply NoDup_app_remove_r in Hfresh as Hfresh'.
      apply NoDup_remove_2 in Hfresh. rewrite app_nil_r in Hfresh.
      apply NoDup_app; [exact Hnd | repeat constructor; simpl; tauto |].
      intros x Hx [<-|[]]. apply Hfresh. now apply Hincl.
    + apply incl_app_app; [exact Hincl | apply incl_refl].
  - fold (noteUpdate i n). rewrite map_id_noteUpdate. now split.
  - split; [now apply NoDup_keys_filter|].
    intros x Hx. apply Hincl. apply in_map_iff in Hx as (y & Hy & Hx).
    apply filter_In in Hx as [Hx _]. apply in_map_iff. now exists y.
  - rewrite map_id_shiftList. split; [now apply NoDup_keys_filter|].
    intros x Hx. apply Hincl. apply in_map_iff in Hx as (y & Hy & Hx).
    apply filter_In in Hx as [Hx _]. apply in_map_iff. now exists y.
Qed.

(** Ids stay unique: whatever sequence of calls is made on the hook,
    if [uuidv4()] never returns the same id twice then no two stored
    annotations share an id, and every stored id is one that was issued. *)
Theorem ids_unique (ops : list Op) :
  NoDup (uuidsIssued ops) ->
  NoDup (map id (annotations (run ops)))
  /\ incl (map id (annotations (run ops))) (uuidsIssued ops).
Proof.
  induction ops as [|op ops IH] using rev_ind; intros H.
  - split; [constructor | apply incl_refl].
  - apply step_ids; [|exact H]. apply IH.
    rewrite uuidsIssued_app in H. now apply NoDup_app_remove_r in H.
Qed.

Lemma ids_unique_witness :
  let ops := [OpAdd "a" 1 "text" "n1" 0 4 range; OpAdd "b" 2 "" "n2" 6 6 point;
              OpShift 0 0 3; OpUpdate "a" "n3"; OpDelete "b"] in
  NoDup (map id (annotations (run ops)))
  /\ incl (map id (annotations (run ops))) (uuidsIssued ops).
Proof.
  apply ids_unique. simpl.
  repeat constructor; simpl; intuition discriminate.
Defined.

End StoreFurther.

(** ** The export: order of the list, length, and placement of the notes *)

Section ExportFurther.
Import UseAnnotations LibExport.

Lemma length_sort {A : Type} (cmp : A -> A -> Z) (l : list A) :
  List.length (JS.sort cmp l) = List.length l.
Proof. symmetry. apply Permutation_length, sort_perm. Qed.

Lemma sort_descending_key (l : list Annotation) :
  JS.sort (fun a b => markdownStartOffset b - markdownStartOffset a) l
  = JS.sort (ascendingBy (fun a => - markdownStartOffset a)) l.
Proof.
  apply sort_ext. intros x y. unfold ascendingBy.
  destruct (Z.leb_spec (markdownStartOffset y - markdownStartOffset x) 0),
           (Z.leb_spec (- markdownStartOffset x - - markdownStartOffset y) 0);
    auto; lia.
Qed.

Lemma filter_ext_eq {A : Type} (p q : A -> bool) (l : list A) :
  (forall a, p a = q a) -> filter p l = filter q l.
Proof. intros H. apply filter_ext. exact H. Qed.

Lemma startingAt_neg (k : Z) (l : list Annotation) :
  filter (fun a => - markdownStartOffset a =? k) l = startingAt (- k) l.
Proof.
  apply filter_ext. intros a.
  destruct (Z.eqb_spec (- markdownStartOffset a) k),
           (Z.eqb_spec (markdownStartOffset a) (- k)); auto; lia.
Qed.

(** The export depends on the list only through the order of the
    annotations of each start offset. *)
Lemma generateExport_canonical (markdown : string) (l l' : list Annotation) :
  List.length l = List.length l' ->
  (forall k, startingAt k l = startingAt k l') ->
  generateExport markdown l = generateExport markdown l'.
Proof.
  intros Hlen H. unfold generateExport. rewrite Hlen.
  destruct (Nat.eqb (List.length l') 0); [reflexivity|].
  rewrite !sort_descending_key.
  rewrite (sort_canonical (fun a => - markdownStartOffset a) l l');
    [reflexivity|].
  intros k. rewrite !startingAt_neg. apply H.
Qed.

Lemma Permutation_filter {A : Type} (p : A -> bool) (l l' : list A) :
  Permutation l l' -> Permutation (filter p l) (filter p l').
Proof.
  induction 1 as [|x l l' H IH|x y l|l l' l'' H1 IH1 H2 IH2]; simpl.
  - constructor.
  - destruct (p x); [now constructor | exact IH].
  - destruct (p x), (p y); try reflexivity. constructor.
  - now transitivity (filter p l').
Qed.

Lemma startingAt_short (k : Z) (l : list Annotation) :
  NoDup (map markdownStartOffset l) -> (List.length (startingAt k l) <= 1)%nat.
Proof.
  intros H. apply (NoDup_keys_filter markdownStartOffset
                     (fun a => markdownStartOffset a =? k)) in H.
  fold (startingAt k l) in H.
  assert (forall a, In a (startingAt k l) -> markdownStartOffset a = k) as Hk.
  { intros a Ha. apply filter_In in Ha as [_ Ha]. now apply Z.eqb_eq. }
  destruct (startingAt k l) as [|a [|b r]]; simpl; try lia.
  exfalso. simpl in H. inversion H as [|? ? Hn _]; subst. apply Hn. left.
  rewrite (Hk a), (Hk b); simpl; auto.
Qed.

Lemma Permutation_short {A : Type} (l l' : list A) :
  Permutation l l' -> (List.length l <= 1)%nat -> l = l'.
Proof.
  intros H Hl. destruct l as [|a [|b r]]; simpl in Hl; try lia.
  - now apply Permutation_nil in H.
  - now apply Permutation_length_1_inv in H.
Qed.

(** The export does not depend on how the list is stored: it is the
    same for the list the hook returns (ascending by start) as for the
    stored list, and, when no two annotations start at the same offset, the
    same for every rearrangement of the list. *)
Theorem generateExport_order_irrelevant (markdown : string) :
  (forall st, generateExport markdown (sortedAnnotations st)
              = generateExport markdown (annotations st))
  /\ (forall l l', Permutation l l' -> NoDup (map markdownStartOffset l) ->
        generateExport markdown l = generateExport markdown l').
Proof.
  split.
  - intros st. apply generateExport_canonical.
    + apply length_sort.
    + intros k. apply (sort_stable markdownStartOffset).
  - intros l l' Hp Hnd. apply generateExport_canonical.
    + now apply Permutation_length.
    + intros k. apply Permutation_short; [|now apply startingAt_short].
      now apply Permutation_filter.
Qed.

(** *** Every step is an insertion, whatever the offset *)

Lemma take_length_drop (n : nat) (s : string) :
  JS.take (String.length s - n) (JS.drop n s) = JS.drop n s.
Proof. apply take_all. rewrite length_drop. lia. Qed.

Lemma clampIndex_range (len i : Z) :
  0 <= len -> 0 <= JS.clampIndex len i <= len.
Proof. intros H. unfold JS.clampIndex. destruct (Z.ltb_spec i 0); lia. Qed.

Lemma slice_insert (s ins : string) (k : Z) :
  (JS.slice s 0 k ++ ins ++ JS.sliceFrom s k)%string
  = insertBefore (Z.to_nat (JS.clampIndex (JS.length s) k)) ins s.
Proof.
  rewrite <- take_drop_insert.
  unfold JS.sliceFrom, JS.slice.
  pose proof (clampIndex_range (JS.length s) k) as Hk.
  assert (0 <= JS.length s) as Hlen by (unfold JS.length; lia).
  specialize (Hk Hlen).
  assert (JS.clampIndex (JS.length s) 0 = 0) as ->
    by (unfold JS.clampIndex; simpl; lia).
  assert (JS.clampIndex (JS.length s) (JS.length s) = JS.length s) as ->
    by (unfold JS.clampIndex; destruct (Z.ltb_spec (JS.length s) 0); lia).
  rewrite Z.sub_0_r. simpl JS.drop at 1.
  replace (Z.to_nat (JS.length s - JS.clampIndex (JS.length s) k))
    with (String.length s - Z.to_nat (JS.clampIndex (JS.length s) k))%nat
    by (unfold JS.length in *; lia).
  now rewrite take_length_drop.
Qed.

(** One pass of the loop of [generateExport], for any offsets. *)
Lemma export_step_any (result : string) (ann : Annotation) :
  (let note := ("{" ++ note ann ++ "}")%string in
   match kind ann with
   | point =>
       (JS.slice result 0 (markdownStartOffset ann)
        ++ note ++ JS.sliceFrom result (markdownStartOffset ann))%string
   | range =>
       (JS.slice result 0 (markdownEndOffset ann)
        ++ " " ++ note ++ JS.sliceFrom result (markdownEndOffset ann))%string
   end)
  = insertBefore
      (Z.to_nat (JS.clampIndex (JS.length result) (exportOffset ann)))
      (inserted ann) result.
Proof.
  cbv zeta. unfold exportOffset, inserted.
  destruct (kind ann); rewrite <- slice_insert; reflexivity.
Qed.

Lemma isSubsequence_nil (t : string) : isSubsequence "" t = true.
Proof. now destruct t. Qed.

Lemma isSubsequence_tail_skip (t : string) :
  (forall c s, isSubsequence (String c s) t = true -> isSubsequence s t = true)
  /\ (forall d s, isSubsequence s t = true ->
                 isSubsequence s (String d t) = true).
Proof.
  induction t as [|e t [IHtail IHskip]].
  - split; [discriminate|]. intros d [|c s] H; [reflexivity | discriminate].
  - assert (forall c s, isSubsequence (String c s) (String e t) = true ->
                        isSubsequence s (String e t) = true) as Htail.
    { intros c s H. cbn [isSubsequence] in H.
      destruct (Ascii.eqb c e); [now apply IHskip|].
      apply IHskip. now apply IHtail with c. }
    split; [exact Htail|].
    intros d [|c s] H; [reflexivity|].
    change (isSubsequence (String c s) (String d (String e t)))
      with (if Ascii.eqb c d then isSubsequence s (String e t)
            else isSubsequence (String c s) (String e t)).
    destruct (Ascii.eqb c d); [now apply Htail with c | exact H].
Qed.

Lemma isSubsequence_skip (d : ascii) (s t : string) :
  isSubsequence s t = true -> isSubsequence s (String d t) = true.
Proof. apply isSubsequence_tail_skip. Qed.

Lemma isSubsequence_prepend (ins s t : string) :
  isSubsequence s t = true -> isSubsequence s (ins ++ t) = true.
Proof.
  intros H. induction ins as [|d ins IH]; [exact H|].
  simpl. now apply isSubsequence_skip.
Qed.

Lemma isSubsequence_insertBefore (i : nat) (ins s t : string) :
  isSubsequence s t = true -> isSubsequence s (insertBefore i ins t) = true.
Proof.
  revert i s. induction t as [|d t IH]; intros [|i] s H.
  - now apply isSubsequence_prepend.
  - destruct s; [apply isSubsequence_nil | discriminate].
  - now apply isSubsequence_prepend.
  - destruct s as [|c s]; [reflexivity|].
    cbn [insertBefore isSubsequence] in *.
    destruct (Ascii.eqb c d); now apply IH.
Qed.

Lemma isSubsequence_refl (s : string) : isSubsequence s s = true.
Proof.
  induction s as [|c s IH]; [reflexivity|].
  cbn [isSubsequence]. now rewrite Ascii.eqb_refl.
Qed.

Lemma export_fold_any (l : list Annotation) (markdown result : string) :
  let out :=
    fold_left
      (fun result ann =>
         let note := ("{" ++ note ann ++ "}")%string in
         match kind ann with
         | point =>
             (JS.slice result 0 (markdownStartOffset ann)
              ++ note
              ++ JS.sliceFrom result (markdownStartOffset ann))%string
         | range =>
             (JS.slice result 0 (markdownEndOffset ann)
              ++ " " ++ note
              ++ JS.sliceFrom result (markdownEndOffset ann))%string
         end) l result in
  (isSubsequence markdown result = true -> isSubsequence markdown out = true)
  /\ String.length out
     = (String.length result
        + list_sum (map (fun a => String.length (inserted a)) l))%nat.
Proof.
  cbv zeta. revert result. induction l as [|a l IH]; intros result.
  - simpl. split; [auto | lia].
  - cbn [fold_left map].
    pose proof (export_step_any result a) as E. cbv zeta in E. rewrite E.
    destruct (IH (insertBefore
                    (Z.to_nat (JS.clampIndex (JS.length result) (exportOffset a)))
                    (inserted a) result)) as [IH1 IH2].
    split.
    + intros H. apply IH1. now apply isSubsequence_insertBefore.
    + rewrite IH2, length_insertBefore. simpl. lia.
Qed.

Lemma list_sum_perm (l l' : list nat) :
  Permutation l l' -> list_sum l = list_sum l'.
Proof.
  induction 1; simpl; lia.
Qed.

(** The export only adds characters: for every source text and every
    list of annotations, whatever their offsets, the characters of the
    source text are in the export in their order, and the export is longer
    than the source by the lengths of the notes, two braces for each, and a
    space for each range annotation. *)
Theorem generateExport_only_adds (markdown : string)
    (annotations : list Annotation) :
  isSubsequence markdown (generateExport markdown annotations) = true
  /\ String.length (generateExport markdown annotations)
     = (String.length markdown
        + list_sum (map (fun a => String.length (inserted a)) annotations))%nat.
Proof.
  unfold generateExport.
  destruct (Nat.eqb (List.length annotations) 0) eqn:E.
  - apply Nat.eqb_eq in E. destruct annotations; [|discriminate].
    simpl. split; [apply isSubsequence_refl | lia].
  - destruct (export_fold_any
                (JS.sort (fun a b => markdownStartOffset b - markdownStartOffset a)
                         annotations) markdown markdown) as [H1 H2].
    cbv zeta in H1, H2 |- *.
    split; [apply H1, isSubsequence_refl|].
    rewrite H2. f_equal. apply list_sum_perm, Permutation_map.
    symmetry. apply sort_perm.
Qed.

Lemma export_fold_keeps_prefix (p : nat) (l : list Annotation) (result : string) :
  (p <= String.length result)%nat ->
  Forall (fun a => Z.of_nat p <= exportOffset a) l ->
  JS.take p
    (fold_left
       (fun result ann =>
          let note := ("{" ++ note ann ++ "}")%string in
          match kind ann with
          | point =>
              (JS.slice result 0 (markdownStartOffset ann)
               ++ note
               ++ JS.sliceFrom result (markdownStartOffset ann))%string
          | range =>
              (JS.slice result 0 (markdownEndOffset ann)
               ++ " " ++ note
               ++ JS.sliceFrom result (markdownEndOffset ann))%string
          end) l result)
  = JS.take p result.
Proof.
  revert result. induction l as [|a l IH]; intros result Hp Hall;
    [reflexivity|].
  inversion Hall as [|? ? Ha Hl]; subst. cbn [fold_left].
  pose proof (export_step_any result a) as E. cbv zeta in E. rewrite E.
  rewrite IH; [| rewrite length_insertBefore; lia | exact Hl].
  apply take_insertBefore; [|exact Hp].
  unfold JS.clampIndex, JS.length.
  destruct (Z.ltb_spec (exportOffset a) 0); lia.
Qed.

(** Insertions at higher offsets leave the text before a lower offset as it
    is in the source: when every annotation has the offset at which its note
    is inserted (end for a range, start for a point) at or after [p], and
    [p] lies within the source, the first [p] characters of the export are
    those of the source text. *)
Theorem generateExport_keeps_text_before (markdown : string)
    (annotations : list Annotation) (p : Z) :
  0 <= p -> p <= JS.length markdown ->
  Forall (fun a => p <= exportOffset a) annotations ->
  JS.slice (generateExport markdown annotations) 0 p = JS.slice markdown 0 p.
Proof.
  intros H0 Hp Hall. rewrite !slice_prefix by assumption.
  unfold generateExport.
  destruct (Nat.eqb (List.length annotations) 0); [reflexivity|]. cbv zeta.
  apply export_fold_keeps_prefix; [unfold JS.length in Hp; lia|].
  rewrite Forall_forall in *. intros a Ha. rewrite Z2Nat.id by assumption.
  apply Hall. eapply Permutation_in; [symmetry; apply sort_perm | exact Ha].
Qed.

Lemma generateExport_keeps_text_before_witness :
  JS.slice (generateExport "AB CD"
              [mkAnnotation "a2" range "C" "y" 3 4 1;
               mkAnnotation "a3" point "" "z" 5 5 2]) 0 3
  = JS.slice "AB CD" 0 3.
Proof.
  apply generateExport_keeps_text_before.
  - lia.
  - vm_compute. discriminate.
  - constructor; [vm_compute; discriminate|].
    constructor; [vm_compute; discriminate | constructor].
Defined.

(** *** When every note lands at its source index *)

Lemma generateExport_fold (markdown : string) (annotations : list Annotation) :
  Forall nonNegativeOffsets annotations ->
  generateExport markdown annotations
  = fold_left exportStep
      (JS.sort (fun a b => markdownStartOffset b - markdownStartOffset a)
               annotations) markdown.
Proof.
  intros H. unfold generateExport.
  destruct annotations as [|a l]; [reflexivity|].
  cbn [List.length Nat.eqb]. cbv zeta.
  apply fold_left_ext_in. intros b c Hb.
  apply (export_step_insert c b).
  rewrite Forall_forall in H. apply H.
  eapply Permutation_in; [symmetry; apply sort_perm | exact Hb].
Qed.

Lemma exportStep_inserted (result : string) (a : Annotation) :
  exportStep result a = insertBefore (insertionPoint a) (inserted a) result.
Proof. unfold exportStep, insertionPoint, inserted. now destruct (kind a). Qed.

Lemma insertBefore_after_prefix (u ins y : string) :
  insertBefore (String.length u) ins (u ++ y) = (u ++ ins ++ y)%string.
Proof. induction u as [|c u IH]; simpl; [now destruct y | now rewrite IH]. Qed.

Lemma take_nil (n : nat) : JS.take n "" = "".
Proof. now destruct n. Qed.

Lemma drop_nil (n : nat) : JS.drop n "" = "".
Proof. now destruct n. Qed.

Lemma drop_0 (s : string) : JS.drop 0 s = s.
Proof. reflexivity. Qed.

Lemma take_split (from i j : nat) (s : string) :
  (from <= i <= j)%nat ->
  JS.take (j - from) (JS.drop from s)
  = (JS.take (i - from) (JS.drop from s) ++ JS.take (j - i) (JS.drop i s))%string.
Proof.
  revert from i j. induction s as [|c s IH]; intros from i j H.
  - now rewrite !drop_nil, !take_nil.
  - destruct from as [|from].
    + rewrite !Nat.sub_0_r, drop_0.
      destruct i as [|i]; [now rewrite Nat.sub_0_r|].
      destruct j as [|j]; [lia|]. cbn [JS.take JS.drop].
      simpl. f_equal.
      specialize (IH 0%nat i j). rewrite !Nat.sub_0_r, drop_0 in IH.
      apply IH. lia.
    + destruct i as [|i]; [lia|]. destruct j as [|j]; [lia|].
      cbn [JS.drop]. simpl Nat.sub. apply IH. lia.
Qed.

Lemma drop_split (from i : nat) (s : string) :
  (from <= i)%nat ->
  JS.drop from s = (JS.take (i - from) (JS.drop from s) ++ JS.drop i s)%string.
Proof.
  revert from i. induction s as [|c s IH]; intros from i H.
  - now rewrite !drop_nil, !take_nil.
  - destruct from as [|from]; destruct i as [|i]; try lia.
    + reflexivity.
    + simpl. f_equal. specialize (IH 0%nat i). rewrite Nat.sub_0_r, drop_0 in IH.
      apply IH. lia.
    + cbn [JS.drop]. simpl Nat.sub. apply IH. lia.
Qed.

Lemma annotated_split (from i : nat) (markdown : string) (l : list Annotation) :
  (from <= i)%nat -> Forall (fun b => (i <= insertionPoint b)%nat) l ->
  annotated from markdown l
  = (JS.take (i - from) (JS.drop from markdown) ++ annotated i markdown l)%string.
Proof.
  intros Hfrom Hl. destruct l as [|b l]; cbn [annotated].
  - now apply drop_split.
  - inversion Hl as [|? ? Hb _]; subst.
    rewrite (take_split from i (insertionPoint b)) by lia.
    now rewrite append_assoc.
Qed.

Lemma fold_annotated (markdown : string) (order : list Annotation) :
  Forall (fun a => (insertionPoint a <= String.length markdown)%nat) order ->
  StronglySorted byInsertionPointDescending order ->
  fold_left exportStep order markdown = annotated 0 markdown (rev order).
Proof.
  induction order as [|a order IH] using rev_ind; intros Hlen Hs.
  - reflexivity.
  - rewrite fold_left_app, rev_app_distr. cbn [fold_left rev app annotated].
    apply Forall_app in Hlen as [Hlen Ha]. inversion Ha as [|? ? Hip _]; subst.
    assert (Forall (fun b => (insertionPoint a <= insertionPoint b)%nat)
                   (rev order)) as Hge.
    { apply Forall_rev. clear -Hs.
      induction order as [|b order IH]; [constructor|].
      simpl in Hs. inversion Hs as [|? ? Hs' Hb]; subst.
      constructor; [|now apply IH].
      rewrite Forall_forall in Hb. apply (Hb a), in_or_app. right. now left. }
    rewrite IH; [| exact Hlen | now apply StronglySorted_app_inv_l in Hs].
    rewrite exportStep_inserted.
    rewrite (annotated_split 0 (insertionPoint a)) by (auto; lia).
    rewrite Nat.sub_0_r.
    rewrite drop_0.
    rewrite <- (insertBefore_after_prefix (JS.take (insertionPoint a) markdown)).
    f_equal. rewrite length_take. lia.
Qed.

(** When no annotation taken later has its insertion point after that
    of one taken earlier (the list sorted by start, descending, is also
    descending by insertion point) and the offsets lie within the source,
    every note sits at its index of the SOURCE text: the export is the
    source cut at the insertion points, in ascending order, with the note
    of each annotation put in at its cut. *)
Theorem generateExport_at_source_indices (markdown : string)
    (annotations : list Annotation) :
  Forall nonNegativeOffsets annotations ->
  Forall (fun a => (insertionPoint a <= String.length markdown)%nat)
         annotations ->
  StronglySorted byInsertionPointDescending
    (JS.sort (fun a b => markdownStartOffset b - markdownStartOffset a)
             annotations) ->
  generateExport markdown annotations
  = annotated 0 markdown
      (rev (JS.sort (fun a b => markdownStartOffset b - markdownStartOffset a)
                    annotations)).
Proof.
  intros Hnn Hlen Hs. rewrite generateExport_fold by assumption.
  apply fold_annotated; [|exact Hs].
  rewrite Forall_forall in *. intros a Ha. apply Hlen.
  eapply Permutation_in; [symmetry; apply sort_perm | exact Ha].
Qed.

Lemma generateExport_at_source_indices_witness :
  generateExport "AB CD EF"
    [mkAnnotation "a1" range "AB" "x" 0 2 0;
     mkAnnotation "a2" point "" "y" 3 3 1;
     mkAnnotation "a3" range "EF" "z" 6 8 2]
  = "AB {x} {y}CD EF {z}".
Proof.
  apply (generateExport_at_source_indices "AB CD EF"
    [mkAnnotation "a1" range "AB" "x" 0 2 0;
     mkAnnotation "a2" point "" "y" 3 3 1;
     mkAnnotation "a3" range "EF" "z" 6 8 2]).
  - repeat constructor; simpl; lia.
  - repeat constructor; simpl; lia.
  - simpl. repeat constructor; unfold byInsertionPointDescending; simpl; lia.
Defined.






(** A range that encloses a later-starting range gets its note too
    early: with the inner note of [n] characters (braces and space
    included) and at least [n] source characters between the two ends, the
    outer note is put before source index [end - n], not after the outer
    anchor, which ends before index [end]. *)
Theorem generateExport_enclosing_note_early (markdown : string)
    (outer inner : Annotation) :
  kind outer = range -> kind inner = range ->
  0 <= markdownStartOffset outer < markdownStartOffset inner ->
  0 <= markdownEndOffset inner ->
  (insertionPoint inner + String.length (inserted inner)
   <= insertionPoint outer)%nat ->
  (insertionPoint outer <= String.length markdown)%nat ->
  generateExport markdown [outer; inner]
  = (JS.take (insertionPoint inner) markdown
     ++ inserted inner
     ++ JS.take (insertionPoint outer - String.length (inserted inner)
                 - insertionPoint inner)
                (JS.drop (insertionPoint inner) markdown)
     ++ inserted outer
     ++ JS.drop (insertionPoint outer - String.length (inserted inner))
                markdown)%string.
Proof.
  intros Ko Ki Hs He Hn Hlen.
  assert (0 <= markdownEndOffset outer) as Heo.
  { unfold insertionPoint in Hn. rewrite Ko, Ki in Hn.
    destruct (Z.le_gt_cases 0 (markdownEndOffset outer)); [assumption|].
    unfold inserted in Hn. rewrite Ki in Hn. simpl in Hn. lia. }
  rewrite generateExport_fold
    by (repeat constructor; unfold nonNegativeOffsets; lia).
  assert (JS.sort (fun a b => markdownStartOffset b - markdownStartOffset a)
                  [outer; inner] = [inner; outer]) as ->.
  { simpl. destruct (Z.leb_spec (markdownStartOffset inner
                                 - markdownStartOffset outer) 0); [lia|].
    reflexivity. }
  cbn [fold_left]. rewrite !exportStep_inserted.
  set (i := insertionPoint inner) in *. set (o := insertionPoint outer) in *.
  set (n := String.length (inserted inner)) in *.
  rewrite <- (take_drop_insert i (inserted inner) markdown).
  set (u := (JS.take i markdown ++ inserted inner
             ++ JS.take (o - n - i) (JS.drop i markdown))%string).
  assert ((JS.take i markdown ++ inserted inner ++ JS.drop i markdown)%string
          = (u ++ JS.drop (o - n) markdown)%string) as ->.
  { unfold u. rewrite !append_assoc. do 2 f_equal. apply drop_split. lia. }
  assert (o = String.length u) as Hu.
  { unfold u. rewrite !length_append, !length_take, length_drop. fold n. lia. }
  rewrite Hu at 1. rewrite insertBefore_after_prefix.
  unfold u. now rewrite !append_assoc.
Qed.

Lemma generateExport_enclosing_note_early_witness :
  generateExport "0123456789ABC"
    [mkAnnotation "outer" range "0123456789" "x" 0 10 0;
     mkAnnotation "inner" range "34" "y" 3 5 1]
  = "01234 {y}5 {x}6789ABC".
Proof.
  apply (generateExport_enclosing_note_early "0123456789ABC"
           (mkAnnotation "outer" range "0123456789" "x" 0 10 0)
           (mkAnnotation "inner" range "34" "y" 3 5 1)).
  - reflexivity.
  - reflexivity.
  - simpl. lia.
  - simpl. lia.
  - apply Nat.leb_le. reflexivity.
  - apply Nat.leb_le. reflexivity.
Defined.

End ExportFurther.

(** ** Offsets and the text: what an annotation points at after an edit *)

Section AnchorAfterEdit.
Import UseAnnotations.

Lemma slice_valid (s : string) (i j : Z) :
  0 <= i -> i <= j -> j <= JS.length s ->
  JS.slice s i j = JS.take (Z.to_nat (j - i)) (JS.drop (Z.to_nat i) s).
Proof.
  intros Hi Hij Hj. rewrite slice_nonneg by lia.
  now rewrite !Z.min_l by lia.
Qed.

Lemma take_app_le (n : nat) (u x : string) :
  (n <= String.length u)%nat -> JS.take n (u ++ x) = JS.take n u.
Proof.
  revert n. induction u as [|c u IH]; intros [|n] H; simpl in *;
    try reflexivity; try lia.
  rewrite IH by lia. reflexivity.
Qed.

Lemma drop_app_le (n : nat) (u x : string) :
  (n <= String.length u)%nat -> JS.drop n (u ++ x) = (JS.drop n u ++ x)%string.
Proof.
  revert n. induction u as [|c u IH]; intros [|n] H; simpl in *;
    try reflexivity; try lia.
  apply IH. lia.
Qed.

Lemma drop_app_ge (n : nat) (u x : string) :
  (String.length u <= n)%nat ->
  JS.drop n (u ++ x) = JS.drop (n - String.length u) x.
Proof.
  revert n. induction u as [|c u IH]; intros n H; simpl in *.
  - now rewrite Nat.sub_0_r.
  - destruct n as [|n]; [lia|]. simpl. apply IH. lia.
Qed.

Lemma editedText_parts (markdown newText : string) (es ee : Z) :
  0 <= es -> es <= ee -> ee <= JS.length markdown ->
  editedText markdown es ee newText
  = ((JS.take (Z.to_nat es) markdown ++ newText)
     ++ JS.drop (Z.to_nat ee) markdown)%string.
Proof.
  intros H0 H1 H2. unfold editedText.
  rewrite slice_prefix, slice_suffix by lia. now rewrite append_assoc.
Qed.

Lemma length_editedText (markdown newText : string) (es ee : Z) :
  0 <= es -> es <= ee -> ee <= JS.length markdown ->
  JS.length (editedText markdown es ee newText)
  = JS.length markdown + JS.length newText - (ee - es).
Proof.
  intros H0 H1 H2. rewrite editedText_parts by assumption.
  unfold JS.length in *.
  rewrite !length_append, length_take, length_drop. lia.
Qed.

Lemma anchor_before (markdown newText : string) (es ee : Z) (a : Annotation) :
  0 <= es -> es <= ee -> ee <= JS.length markdown ->
  validOffsets (JS.length markdown) a -> markdownEndOffset a <= es ->
  anchorText (editedText markdown es ee newText) a = anchorText markdown a.
Proof.
  intros H0 H1 H2 (Hs & Hse & He) Hb. unfold anchorText.
  pose proof (length_editedText markdown newText es ee H0 H1 H2) as Hlen.
  assert (0 <= JS.length newText) by (unfold JS.length; lia).
  rewrite !slice_valid by lia.
  rewrite editedText_parts by assumption. rewrite append_assoc.
  unfold JS.length in *.
  rewrite drop_app_le by (rewrite length_take; lia).
  rewrite take_app_le by (rewrite length_drop, length_take; lia).
  rewrite drop_take, take_take. f_equal. lia.
Qed.

Lemma anchor_after (markdown newText : string) (es ee : Z) (a : Annotation) :
  0 <= es -> es <= ee -> ee <= JS.length markdown ->
  validOffsets (JS.length markdown) a -> ee <= markdownStartOffset a ->
  anchorText (editedText markdown es ee newText)
             (shifted (JS.length newText - (ee - es)) a)
  = anchorText markdown a.
Proof.
  intros H0 H1 H2 (Hs & Hse & He) Ha. unfold anchorText, shifted. simpl.
  pose proof (length_editedText markdown newText es ee H0 H1 H2) as Hlen.
  assert (0 <= JS.length newText) by (unfold JS.length; lia).
  rewrite !slice_valid by lia.
  rewrite editedText_parts by assumption.
  unfold JS.length in *.
  rewrite drop_app_ge by (rewrite length_append, length_take; lia).
  rewrite drop_drop. f_equal; [lia|]. f_equal.
  rewrite length_append, length_take. lia.
Qed.

Lemma anchor_outcome (markdown newText : string) (es ee : Z) (a : Annotation) :
  0 <= es -> es <= ee -> ee <= JS.length markdown ->
  validOffsets (JS.length markdown) a ->
  map (anchorText (editedText markdown es ee newText))
      (outcome (JS.length newText - (ee - es)) (branchTaken es ee a) a)
  = if keptBy es ee a then [anchorText markdown a] else [].
Proof.
  intros H0 H1 H2 Hv. unfold keptBy.
  pose proof (branchTaken_holds es ee a) as H.
  destruct (branchTaken es ee a); simpl in *; try reflexivity.
  - f_equal. now apply anchor_before.
  - f_equal. apply anchor_after; auto. unfold fullyAfter in H. lia.
Qed.

(** The annotations that survive an edit still point at the same
    text: when the characters from [editStart] up to [editEnd] of the source
    are replaced by [newText] and [shiftAnnotations] is called with the
    length of [newText], the slice of the new source between the offsets of
    each kept annotation is the slice of the old source between its old
    offsets. *)
Theorem shiftAnnotations_keeps_anchor (markdown newText : string)
    (es ee : Z) (st : State) :
  0 <= es -> es <= ee -> ee <= JS.length markdown ->
  Forall (validOffsets (JS.length markdown)) (annotations st) ->
  map (anchorText (editedText markdown es ee newText))
      (annotations (shiftAnnotations es ee (JS.length newText) st))
  = map (anchorText markdown) (filter (keptBy es ee) (annotations st)).
Proof.
  intros H0 H1 H2 Hall. unfold shiftAnnotations. simpl.
  rewrite shiftList_flat_map.
  induction Hall as [|a l Ha Hl IH]; [reflexivity|].
  cbn [flat_map filter]. rewrite map_app, IH, anchor_outcome by assumption.
  destruct (keptBy es ee a); reflexivity.
Qed.

Lemma shiftAnnotations_keeps_anchor_witness :
  map (anchorText (editedText "The API uses REST" 4 7 "interface"))
      (annotations (shiftAnnotations 4 7 (JS.length "interface")
         (mkState [annAt "a" 0 3; annAt "b" 4 7; annAt "c" 13 17] None)))
  = ["The"; "REST"].
Proof.
  apply (shiftAnnotations_keeps_anchor "The API uses REST" "interface" 4 7
           (mkState [annAt "a" 0 3; annAt "b" 4 7; annAt "c" 13 17] None)).
  - lia.
  - lia.
  - vm_compute. discriminate.
  - repeat constructor; vm_compute; discriminate.
Defined.

End AnchorAfterEdit.

(** ** Resolving endpoints: what [getTextOffsetInElement] counts, and where
    the offsets lie *)

Section SelectionFurther.
Import Dom Selection.

Lemma pathEqb_eq (p q : Path) : pathEqb p q = true <-> p = q.
Proof.
  revert q. induction p as [|i p IH]; intros [|j q]; simpl;
    try (split; [discriminate|intros H; discriminate H]);
    try (split; reflexivity).
  rewrite andb_true_iff, Nat.eqb_eq, IH. split.
  - intros [-> ->]. reflexivity.
  - intros H. inversion H. auto.
Qed.

Lemma pathEqb_refl (p : Path) : pathEqb p p = true.
Proof. now apply pathEqb_eq. Qed.

Lemma getNode_app (n : Node) (p q : Path) :
  getNode n (p ++ q)
  = match getNode n p with
    | Some m => getNode m q
    | None => None
    end.
Proof.
  revert n. induction p as [|i p IH]; intros n; [reflexivity|].
  simpl. destruct n as [d|tag attrs cs]; [reflexivity|].
  destruct (nth_error cs i); [apply IH | reflexivity].
Qed.

Lemma textNodes_Element tag attrs cs :
  textNodes (Element tag attrs cs) = textNodesAmong 0 cs.
Proof.
  unfold textNodes at 1. fold textNodes.
  generalize 0%nat. induction cs as [|c cs IH]; intros i; [reflexivity|].
  simpl. now rewrite IH.
Qed.

Lemma textNodesAmong_In (i : nat) (cs : list Node) (p : Path) (d : string) :
  In (p, d) (textNodesAmong i cs) ->
  exists k c p', p = (i + k)%nat :: p' /\ nth_error cs k = Some c
                 /\ In (p', d) (textNodes c).
Proof.
  revert i. induction cs as [|c cs IH]; intros i H; [destruct H|].
  simpl in H. apply in_app_or in H as [H|H].
  - apply in_map_iff in H as ([p' d'] & E & H). simpl in E.
    inversion E; subst. exists 0%nat, c, p'.
    rewrite Nat.add_0_r. auto.
  - destruct (IH _ H) as (k & c' & p' & -> & Hn & Hin).
    exists (S k), c', p'. split; [f_equal; lia | auto].
Qed.

Lemma textNodes_getNode (r : Node) (p : Path) (d : string) :
  In (p, d) (textNodes r) -> getNode r p = Some (Text d).
Proof.
  revert p. induction r as [d0|tag attrs cs IH] using Node_children_ind;
    intros p H.
  - simpl in H. destruct H as [H|[]]. now inversion H.
  - rewrite textNodes_Element in H.
    apply textNodesAmong_In in H as (k & c & p' & -> & Hn & Hin).
    simpl. rewrite Hn. rewrite Forall_forall in IH.
    apply IH; [|exact Hin]. eapply nth_error_In, Hn.
Qed.

Lemma textNodesAmong_head (i : nat) (cs : list Node) (p : Path) (d : string) :
  In (p, d) (textNodesAmong i cs) -> exists k p', p = k :: p' /\ (i <= k)%nat.
Proof.
  intros H. apply textNodesAmong_In in H as (k & c & p' & -> & _ & _).
  exists (i + k)%nat, p'. split; [reflexivity | lia].
Qed.

Lemma NoDup_map_cons (i : nat) (l : list (Path * string)) :
  NoDup (map fst l) ->
  NoDup (map fst (map (fun pd => (i :: fst pd, snd pd)) l)).
Proof.
  induction l as [|[p d] l IH]; simpl; intros H; [constructor|].
  inversion H as [|? ? Hn Hl]; subst. constructor; [|now apply IH].
  intros Hin. apply Hn.
  apply in_map_iff in Hin as ([q e] & E & Hin).
  apply in_map_iff in Hin as ([q0 e0] & E0 & Hin).
  inversion E0; subst. simpl in E. inversion E; subst.
  apply in_map_iff. now exists (p, e).
Qed.

Lemma textNodes_NoDup (r : Node) : NoDup (map fst (textNodes r)).
Proof.
  induction r as [d|tag attrs cs IH] using Node_children_ind.
  - simpl. repeat constructor. intros [].
  - rewrite textNodes_Element. generalize 0%nat.
    induction IH as [|c cs Hc _ IHcs]; intros i; [constructor|].
    simpl. rewrite map_app. apply NoDup_app.
    + now apply NoDup_map_cons.
    + apply IHcs.
    + intros p H1 H2.
      apply in_map_iff in H1 as ([p1 d1] & <- & H1).
      apply in_map_iff in H1 as ([p0 d0] & E & _). inversion E; subst.
      apply in_map_iff in H2 as ([p2 d2] & E2 & H2). simpl in *. subst p2.
      apply textNodesAmong_head in H2 as (k & p' & E' & Hk).
      inversion E'. lia.
Qed.

Lemma textContent_Element tag attrs cs :
  textContent (Element tag attrs cs) = textContentAmong cs.
Proof.
  simpl. induction cs as [|c cs IH]; [reflexivity|]. simpl. now rewrite IH.
Qed.

Lemma textLength_app l1 l2 :
  textLength (l1 ++ l2) = textLength l1 + textLength l2.
Proof.
  induction l1 as [|[p d] l1 IH]; simpl; [reflexivity|]. rewrite IH. lia.
Qed.

Lemma textLength_map (f : Path -> Path) l :
  textLength (map (fun pd => (f (fst pd), snd pd)) l) = textLength l.
Proof.
  induction l as [|[p d] l IH]; simpl; [reflexivity|]. now rewrite IH.
Qed.

Lemma textLength_nonneg l : 0 <= textLength l.
Proof.
  induction l as [|[p d] l IH]; simpl; [lia|]. unfold JS.length. lia.
Qed.

Lemma length_textContent (r : Node) :
  JS.length (textContent r) = textLength (textNodes r).
Proof.
  induction r as [d|tag attrs cs IH] using Node_children_ind.
  - simpl. lia.
  - rewrite textContent_Element, textNodes_Element. generalize 0%nat.
    induction IH as [|c cs Hc _ IHcs]; intros i; [reflexivity|].
    simpl. rewrite textLength_app, textLength_map, <- IHcs, <- Hc.
    unfold JS.length. rewrite length_append. lia.
Qed.

Lemma countUpTo_found before p d after target off count :
  (forall q, In q (map fst before) -> q <> target) -> p = target ->
  countUpTo (before ++ (p, d) :: after) target off count
  = count + textLength before + off.
Proof.
  intros Hb ->. revert count.
  induction before as [|[q e] before IH]; intros count; simpl.
  - rewrite pathEqb_refl. lia.
  - destruct (pathEqb q target) eqn:E.
    + apply pathEqb_eq in E. elim (Hb q); simpl; auto.
    + rewrite IH; [lia|]. intros q' Hq'. apply Hb. now right.
Qed.

Lemma countUpTo_absent nodes target off count :
  (forall q, In q (map fst nodes) -> q <> target) ->
  countUpTo nodes target off count = count + textLength nodes.
Proof.
  revert count. induction nodes as [|[q e] nodes IH]; intros count Hb; simpl.
  - lia.
  - destruct (pathEqb q target) eqn:E.
    + apply pathEqb_eq in E. elim (Hb q); simpl; auto.
    + rewrite IH; [lia|]. intros q' Hq'. apply Hb. now right.
Qed.

Lemma NoDup_app_not_in {A : Type} (l1 l2 : list A) (x : A) :
  NoDup (l1 ++ x :: l2) -> ~ In x l1.
Proof.
  intros H Hin. apply NoDup_remove_2 in H. apply H, in_or_app. now left.
Qed.

Lemma map_fst_prefix (root : Path) (l : list (Path * string)) :
  map fst (map (fun pd => (root ++ fst pd, snd pd)) l)
  = map (app root) (map fst l).
Proof. rewrite !map_map. reflexivity. Qed.

Lemma getTextOffsetInElement_textNode doc el node before d off :
  textNodeOf doc el node before d ->
  getTextOffsetInElement doc el node off = textLength before + off.
Proof.
  intros (elNode & p & after & Hel & Ht & ->).
  unfold getTextOffsetInElement. rewrite Hel, Ht, map_app. simpl.
  rewrite countUpTo_found; [now rewrite textLength_map | | reflexivity].
  intros q Hq E. rewrite map_fst_prefix in Hq.
  apply in_map_iff in Hq as (q0 & <- & Hq0).
  apply app_inv_head in E. subst q0.
  pose proof (textNodes_NoDup elNode) as Hnd. rewrite Ht, map_app in Hnd.
  simpl in Hnd. now apply NoDup_app_not_in in Hnd.
Qed.

Lemma getTextOffsetInElement_element doc el elNode node tag attrs cs off :
  getNode doc el = Some elNode ->
  getNode doc node = Some (Element tag attrs cs) ->
  getTextOffsetInElement doc el node off = JS.length (textContent elNode).
Proof.
  intros Hel Hnode. unfold getTextOffsetInElement. rewrite Hel.
  rewrite countUpTo_absent; [now rewrite textLength_map, length_textContent|].
  intros q Hq E. rewrite map_fst_prefix in Hq.
  apply in_map_iff in Hq as (q0 & <- & Hq0).
  apply in_map_iff in Hq0 as ([p d] & <- & Hp). simpl in E.
  apply textNodes_getNode in Hp.
  rewrite <- E, getNode_app, Hel, Hp in Hnode. discriminate.
Qed.

(** What an endpoint resolves to.  For an endpoint in a Text node
    below its owner, the element with source span [s .. e] that is nearest
    above it, [findSourcePosition] gives [s] plus the number of characters
    the owner renders before the endpoint (those of the Text nodes that
    precede the node, and [offset] more), capped at [e].  For an endpoint
    that is an element, the offset is not looked at: the result is [s] plus
    the length of all the text of the owner, capped at [e]. *)
Theorem findSourcePosition_counts (doc : Node) (node : Path) (offset : Z)
    (which : Which) (el : Path) (s e : Z) :
  owner doc node = Some (el, s, e) ->
  (forall before d, textNodeOf doc el node before d ->
     findSourcePosition doc node offset which
     = Some (Z.min (s + (textLength before + offset)) e))
  /\ (forall elNode tag attrs cs,
        getNode doc el = Some elNode ->
        getNode doc node = Some (Element tag attrs cs) ->
        findSourcePosition doc node offset which
        = Some (Z.min (s + JS.length (textContent elNode)) e)).
Proof.
  intros Ho. rewrite findSourcePosition_owner, Ho. split.
  - intros before d H.
    now rewrite (getTextOffsetInElement_textNode _ _ _ _ _ _ H).
  - intros elNode tag attrs cs Hel Hnode.
    now rewrite (getTextOffsetInElement_element _ _ _ _ _ _ _ _ Hel Hnode).
Qed.

Lemma findSourcePosition_counts_witness :
  (forall before d, textNodeOf boldParagraph [0]%nat [0; 1]%nat before d ->
     findSourcePosition boldParagraph [0; 1]%nat 2 whichStart
     = Some (Z.min (0 + (textLength before + 2)) 13))
  /\ (forall elNode tag attrs cs,
        getNode boldParagraph [0]%nat = Some elNode ->
        getNode boldParagraph [0; 1]%nat = Some (Element tag attrs cs) ->
        findSourcePosition boldParagraph [0; 1]%nat 2 whichStart
        = Some (Z.min (0 + JS.length (textContent elNode)) 13)).
Proof.
  apply (findSourcePosition_counts boldParagraph [0; 1]%nat 2 whichStart
           [0]%nat 0 13).
  reflexivity.
Defined.

Lemma getNode_snoc_parent (doc : Node) (p : Path) (i : nat) (n : Node) :
  getNode doc (p ++ [i]) = Some n ->
  exists tag attrs cs, getNode doc p = Some (Element tag attrs cs).
Proof.
  rewrite getNode_app. destruct (getNode doc p) as [[d|tag attrs cs]|];
    try discriminate. eauto.
Qed.

Lemma nearestFrom_complete (doc : Node) (up : list nat) :
  (exists tag attrs cs, getNode doc (rev up) = Some (Element tag attrs cs)) ->
  (exists q rest s e, rev up = q ++ rest /\ carriesSourcePosition doc q s e) ->
  exists res, nearestFrom doc up = Some res.
Proof.
  induction up as [|i up IH]; intros (tag & attrs & cs & G) (q & rest & s & e & Hq & Hc).
  - simpl in *. symmetry in Hq. apply app_eq_nil in Hq as [-> ->].
    destruct Hc as (tag' & attrs' & cs' & G' & Hs & He). simpl in G'.
    inversion G'; subst. rewrite Hs, He. eauto.
  - cbn [nearestFrom]. rewrite G.
    destruct (dataSourceStart attrs) as [s0|] eqn:Es;
      destruct (dataSourceEnd attrs) as [e0|] eqn:Ee; eauto.
    all: apply IH;
      [ simpl in G; now apply getNode_snoc_parent in G
      | destruct rest as [|j rest _] using rev_ind;
        [ rewrite app_nil_r in Hq; subst q;
          destruct Hc as (tag' & attrs' & cs' & G' & Hs & He);
          rewrite G in G'; inversion G'; subst; congruence
        | simpl in Hq; rewrite app_assoc in Hq;
          apply app_inj_tail in Hq as [Hq _];
          exists q, rest, s, e; auto ] ].
Qed.

Lemma parentElement_snoc (p : Path) (j : nat) :
  parentElement (p ++ [j]) = Some p.
Proof.
  unfold parentElement. destruct (p ++ [j]) eqn:E.
  - now destruct p.
  - now rewrite <- E, removelast_last.
Qed.

Lemma owner_complete (doc : Node) (node : Path) (n : Node) :
  getNode doc node = Some n -> resolvable doc node ->
  exists res, owner doc node = Some res.
Proof.
  intros G (q & rest & s & e & Hq & Hc). unfold owner, startingElement.
  rewrite G. destruct n as [d|tag attrs cs].
  - destruct rest as [|j rest _] using rev_ind.
    + rewrite app_nil_r in Hq. subst q.
      destruct Hc as (tag' & attrs' & cs' & G' & _). congruence.
    + rewrite app_assoc in Hq. subst node.
      rewrite parentElement_snoc.
      apply nearestFrom_complete; rewrite rev_involutive.
      * now apply getNode_snoc_parent in G.
      * exists q, rest, s, e. auto.
  - apply nearestFrom_complete; rewrite rev_involutive; eauto.
    exists q, rest, s, e. auto.
Qed.

Lemma contains_getNode (doc : Node) (c node : Path) :
  contains doc c node = true -> exists n, getNode doc node = Some n.
Proof.
  unfold contains. rewrite andb_true_iff. intros [_ H].
  destruct (getNode doc node); [eauto | discriminate].
Qed.

(** [selectionToMarkdownRange] returns a range exactly when the
    selection has a range that is not collapsed, both its endpoints lie in
    the container, the selected text is not blank, and each endpoint or one
    of its ancestors carries source-position metadata; in every other case
    it returns [null]. *)
Theorem selectionToMarkdownRange_returns_iff (doc : Node)
    (selection : Dom.Selection) (containerEl : Path) :
  (exists r, selectionToMarkdownRange doc selection containerEl = Some r)
  <-> (exists rng,
         hd_error (ranges selection) = Some rng
         /\ collapsed rng = false
         /\ contains doc containerEl (startContainer rng) = true
         /\ contains doc containerEl (endContainer rng) = true
         /\ JS.trim (toString selection) <> ""
         /\ resolvable doc (startContainer rng)
         /\ resolvable doc (endContainer rng)).
Proof.
  unfold selectionToMarkdownRange.
  destruct (ranges selection) as [|rng rest]; simpl.
  { split; [intros [r H]; discriminate | intros (rng & H & _); discriminate]. }
  destruct (collapsed rng) eqn:Hc.
  { split; [intros [r H]; discriminate|].
    intros (rng' & H & Hc' & _). inversion H; subst. congruence. }
  destruct (contains doc containerEl (startContainer rng)) eqn:Cs; simpl.
  2: { split; [intros [r H]; discriminate|].
       intros (rng' & H & _ & Cs' & _). inversion H; subst. congruence. }
  destruct (contains doc containerEl (endContainer rng)) eqn:Ce; simpl.
  2: { split; [intros [r H]; discriminate|].
       intros (rng' & H & _ & _ & Ce' & _). inversion H; subst. congruence. }
  destruct (String.eqb_spec (JS.trim (toString selection)) "") as [Et|Et].
  { split; [intros [r H]; discriminate|].
    intros (rng' & _ & _ & _ & _ & Ht & _). congruence. }
  rewrite !findSourcePosition_owner.
  split.
  - intros [r H]. exists rng.
    destruct (owner doc (startContainer rng)) as [[[el1 s1] e1]|] eqn:O1;
      [|discriminate].
    destruct (owner doc (endContainer rng)) as [[[el2 s2] e2]|] eqn:O2;
      [|discriminate].
    repeat split; auto; eapply owner_resolvable; eauto.
  - intros (rng' & H & _ & _ & _ & _ & Rs & Re). inversion H; subst rng'.
    apply contains_getNode in Cs as [n1 G1]. apply contains_getNode in Ce as [n2 G2].
    destruct (owner_complete _ _ _ G1 Rs) as [[[el1 s1] e1] ->].
    destruct (owner_complete _ _ _ G2 Re) as [[[el2 s2] e2] ->].
    eauto.
Qed.

(** The offsets that a selection or a click resolves to lie within
    the source span of the owner of the endpoint: they never exceed its end,
    and (the DOM offset not being negative, and the span not empty the wrong
    way round) they are not below its start. *)
Theorem resolved_offsets_within_owner (doc : Node) (containerEl : Path) :
  (forall selection r,
     selectionToMarkdownRange doc selection containerEl = Some r ->
     exists rng el1 s1 e1 el2 s2 e2,
       hd_error (ranges selection) = Some rng
       /\ owner doc (startContainer rng) = Some (el1, s1, e1)
       /\ owner doc (endContainer rng) = Some (el2, s2, e2)
       /\ startOffset r <= e1 /\ endOffset r <= e2
       /\ (0 <= Dom.startOffset rng -> s1 <= e1 -> s1 <= startOffset r)
       /\ (0 <= Dom.endOffset rng -> s2 <= e2 -> s2 <= endOffset r))
  /\ (forall node offset v,
        clickToMarkdownOffset doc node offset containerEl = Some v ->
        exists el s e,
          owner doc node = Some (el, s, e)
          /\ v <= e /\ (0 <= offset -> s <= e -> s <= v)).
Proof.
  split.
  - intros selection r. unfold selectionToMarkdownRange.
    destruct (ranges selection) as [|rng rest]; [discriminate|].
    destruct (collapsed rng); [discriminate|].
    destruct (negb _ || negb _); [discriminate|].
    destruct (String.eqb _ ""); [discriminate|].
    rewrite !findSourcePosition_owner.
    destruct (owner doc (startContainer rng)) as [[[el1 s1] e1]|] eqn:O1;
      [|discriminate].
    destruct (owner doc (endContainer rng)) as [[[el2 s2] e2]|] eqn:O2;
      [|discriminate].
    intros H. inversion H; subst. simpl.
    exists rng, el1, s1, e1, el2, s2, e2.
    split; [reflexivity|]. split; [exact O1|]. split; [exact O2|].
    split; [lia|]. split; [lia|]. split.
    + intros Ho Hs.
      pose proof (getTextOffsetInElement_nonneg doc el1 (startContainer rng) _ Ho).
      lia.
    + intros Ho Hs.
      pose proof (getTextOffsetInElement_nonneg doc el2 (endContainer rng) _ Ho).
      lia.
  - intros node offset v. unfold clickToMarkdownOffset.
    destruct (negb _); [discriminate|].
    rewrite findSourcePosition_owner.
    destruct (owner doc node) as [[[el s] e]|] eqn:O; [|discriminate].
    intros H. inversion H; subst. exists el, s, e.
    split; [reflexivity|]. split; [lia|].
    intros Ho Hs.
    pose proof (getTextOffsetInElement_nonneg doc el node _ Ho). lia.
Qed.

(** A selection made inside one owner resolves to offsets in order:
    when both endpoints lie in Text nodes below the same owner, the start
    in the same node as the end and not after it, or in a Text node that
    precedes that of the end, then [startOffset <= endOffset]. *)
Theorem selection_offsets_in_order (doc : Node) (selection : Dom.Selection)
    (containerEl : Path) (r : MarkdownRange) (rng : Range)
    (el : Path) (s e : Z) (before1 before2 : list (Path * string))
    (d1 d2 : string) :
  selectionToMarkdownRange doc selection containerEl = Some r ->
  hd_error (ranges selection) = Some rng ->
  owner doc (startContainer rng) = Some (el, s, e) ->
  owner doc (endContainer rng) = Some (el, s, e) ->
  textNodeOf doc el (startContainer rng) before1 d1 ->
  textNodeOf doc el (endContainer rng) before2 d2 ->
  (before2 = before1 /\ Dom.startOffset rng <= Dom.endOffset rng)
  \/ (exists p1 mid, before2 = before1 ++ (p1, d1) :: mid
        /\ Dom.startOffset rng <= JS.length d1 /\ 0 <= Dom.endOffset rng) ->
  startOffset r <= endOffset r.
Proof.
  intros Hr Hhd O1 O2 T1 T2 Hord. revert Hr.
  unfold selectionToMarkdownRange.
  destruct (ranges selection) as [|rng0 rest]; [discriminate|].
  simpl in Hhd. inversion Hhd; subst rng0.
  destruct (collapsed rng); [discriminate|].
  destruct (negb _ || negb _); [discriminate|].
  destruct (String.eqb _ ""); [discriminate|].
  rewrite !findSourcePosition_owner, O1, O2.
  rewrite (getTextOffsetInElement_textNode _ _ _ _ _ _ T1).
  rewrite (getTextOffsetInElement_textNode _ _ _ _ _ _ T2).
  intros H. inversion H; subst. simpl.
  destruct Hord as [[-> Hle]|(p1 & mid & -> & Hle & Hnn)]; [lia|].
  rewrite textLength_app. simpl.
  pose proof (textLength_nonneg mid). lia.
Qed.

Lemma selection_offsets_in_order_witness :
  selectionToMarkdownRange markedParagraph
    (mkSelection [mkRange [0; 0]%nat 1 [0; 1; 0]%nat 1] "bc") []
  = Some (mkMarkdownRange 1 3 "bc")
  /\ startOffset (mkMarkdownRange 1 3 "bc") <= endOffset (mkMarkdownRange 1 3 "bc").
Proof.
  split; [reflexivity|].
  apply (selection_offsets_in_order markedParagraph
           (mkSelection [mkRange [0; 0]%nat 1 [0; 1; 0]%nat 1] "bc")
           [] (mkMarkdownRange 1 3 "bc")
           (mkRange [0; 0]%nat 1 [0; 1; 0]%nat 1)
           [0]%nat 0 6 [] [([0]%nat, "ab")] "ab" "cd").
  - reflexivity.
  - reflexivity.
  - reflexivity.
  - reflexivity.
  - eexists _, [0]%nat, _. repeat split; reflexivity.
  - eexists _, [1; 0]%nat, _. repeat split; reflexivity.
  - right. exists [0]%nat, []. repeat split; vm_compute; congruence.
Defined.

End SelectionFurther.

(** ** Highlighting: the text is kept, and every marker is that of an
    annotation *)

Section HighlightFurther.
Import Dom DocumentView.

Lemma visibleText_Element tag attrs cs :
  visibleText (Element tag attrs cs) = visibleTextAmong cs.
Proof. reflexivity. Qed.

Lemma replaceWith_cons tag attrs cs i j p new :
  replaceWith (Element tag attrs cs) (i :: j :: p) new
  = Element tag attrs (replaceInChild (j :: p) new i cs).
Proof.
  cbn [replaceWith]. f_equal. revert i.
  induction cs as [|c cs IH]; intros [|i]; try reflexivity.
  cbn [replaceInChild]. f_equal. apply IH.
Qed.

Lemma replaceWith_single tag attrs cs i new :
  replaceWith (Element tag attrs cs) [i] new
  = Element tag attrs (firstn i cs ++ new ++ skipn (S i) cs).
Proof. reflexivity. Qed.

Lemma sameRoot_refl n : sameRoot n n.
Proof. destruct n; simpl; auto. Qed.

(** [replaceWith] keeps the node it is applied to what it is: a Text node
    stays one, an element keeps its tag and its attributes. *)
Lemma replaceWith_root n p new : sameRoot n (replaceWith n p new).
Proof.
  destruct n as [d|tag attrs cs]; [now destruct p|].
  destruct p as [|i [|j p]]; [now split | now split |].
  rewrite replaceWith_cons. now split.
Qed.

Lemma sameRoot_same_kind n n' :
  sameRoot n n' ->
  isAnnotationMark n' = isAnnotationMark n
  /\ isPointMarker n' = isPointMarker n
  /\ hasSourcePosition n' = hasSourcePosition n
  /\ sourceSpan n' = sourceSpan n.
Proof.
  destruct n as [d|tag attrs cs], n' as [d'|tag' attrs' cs']; simpl;
    try contradiction; [now intros ->|].
  intros [<- <-]. repeat split.
Qed.

Lemma replaceWith_same_kind n p new :
  isAnnotationMark (replaceWith n p new) = isAnnotationMark n
  /\ isPointMarker (replaceWith n p new) = isPointMarker n
  /\ hasSourcePosition (replaceWith n p new) = hasSourcePosition n
  /\ sourceSpan (replaceWith n p new) = sourceSpan n.
Proof. apply sameRoot_same_kind, replaceWith_root. Qed.

Lemma nth_error_split_at {A : Type} (l : list A) (i : nat) (x : A) :
  nth_error l i = Some x -> l = firstn i l ++ x :: skipn (S i) l.
Proof.
  revert i. induction l as [|y l IH]; intros [|i] H; simpl in *;
    try discriminate.
  - now inversion H.
  - f_equal. now apply IH.
Qed.

Lemma visibleTextAmong_app cs1 cs2 :
  visibleTextAmong (cs1 ++ cs2)
  = (visibleTextAmong cs1 ++ visibleTextAmong cs2)%string.
Proof.
  induction cs1 as [|c cs1 IH]; [reflexivity|].
  simpl. now rewrite IH, append_assoc.
Qed.

Lemma visibleText_replaceInChild p new i cs c :
  nth_error cs i = Some c ->
  isPointMarker (replaceWith c p new) = isPointMarker c ->
  visibleText (replaceWith c p new) = visibleText c ->
  visibleTextAmong (replaceInChild p new i cs) = visibleTextAmong cs.
Proof.
  intros Hn Hp Hv. revert i Hn.
  induction cs as [|c0 cs IH]; intros [|i] Hn; simpl in *; try discriminate.
  - inversion Hn; subst. now rewrite Hp, Hv.
  - now rewrite (IH i Hn).
Qed.

(** Replacing a node by nodes with the same visible text keeps the visible
    text of the whole. *)
Lemma visibleText_replaceWith p n old new :
  getNode n p = Some old ->
  visibleTextAmong new = visibleTextAmong [old] ->
  visibleText (replaceWith n p new) = visibleText n.
Proof.
  revert n. induction p as [|i p IH]; intros n G Hnew.
  - now destruct n.
  - destruct n as [d|tag attrs cs]; [reflexivity|].
    simpl in G. destruct (nth_error cs i) as [c|] eqn:Hn; [|discriminate].
    destruct p as [|j p].
    + simpl in G. inversion G; subst c.
      rewrite replaceWith_single, !visibleText_Element.
      rewrite (nth_error_split_at cs i old Hn) at 3.
      rewrite !visibleTextAmong_app, Hnew.
      change (old :: skipn (S i) cs) with ([old] ++ skipn (S i) cs).
      now rewrite visibleTextAmong_app.
    + rewrite replaceWith_cons, !visibleText_Element.
      apply (visibleText_replaceInChild _ _ _ _ c Hn).
      * apply replaceWith_same_kind.
      * now apply IH.
Qed.

Lemma insertBefore_empty (n : nat) (s : string) : insertBefore n "" s = s.
Proof.
  revert n. induction s as [|c s IH]; intros [|n]; simpl; try reflexivity.
  now rewrite IH.
Qed.

Lemma slice_take_drop (s : string) (k : Z) :
  (JS.slice s 0 k ++ JS.sliceFrom s k)%string = s.
Proof.
  pose proof (slice_insert s "" k) as H.
  change ("" ++ JS.sliceFrom s k)%string with (JS.sliceFrom s k) in H.
  rewrite H. apply insertBefore_empty.
Qed.

Lemma three_slices (d : string) (a b : Z) :
  0 <= a -> a <= b -> b <= JS.length d ->
  (JS.slice d 0 a ++ JS.slice d a b ++ JS.sliceFrom d b)%string = d.
Proof.
  intros Ha Hab Hb.
  rewrite <- (slice_take_drop d a) at 4. f_equal.
  rewrite slice_valid, !slice_suffix by lia.
  rewrite (drop_split (Z.to_nat a) (Z.to_nat b) d) at 2 by lia.
  do 2 f_equal. lia.
Qed.

Lemma visibleText_surroundContents d ws we a act :
  0 <= ws -> ws <= we -> we <= JS.length d ->
  visibleTextAmong (surroundContents d ws we a act) = visibleTextAmong [Text d].
Proof.
  intros H0 H1 H2. unfold surroundContents. simpl.
  rewrite !append_nil_r. now apply three_slices.
Qed.

Lemma visibleText_wrapFirstText el nodes aS aE a act charCount :
  (forall p d, In (p, d) nodes -> getNode el p = Some (Text d)) ->
  visibleText (wrapFirstText el nodes aS aE a act charCount) = visibleText el.
Proof.
  revert charCount. induction nodes as [|[p d] nodes IH]; intros charCount Hn;
    [reflexivity|].
  cbn [wrapFirstText]. cbv zeta.
  assert (visibleText (wrapFirstText el nodes aS aE a act
                         (charCount + JS.length d)) = visibleText el) as Hc.
  { apply IH. intros p' d' H. apply Hn. now right. }
  destruct ((charCount <? aE) && (charCount + JS.length d >? aS)); [|exact Hc].
  destruct (Z.ltb_spec (Z.max 0 (aS - charCount))
                       (Z.min (JS.length d) (aE - charCount))) as [Hlt|];
    [|exact Hc].
  simpl andb.
  destruct (negb _); [|exact Hc].
  apply visibleText_replaceWith with (old := Text d).
  - apply Hn. now left.
  - apply visibleText_surroundContents; lia.
Qed.

Lemma visibleText_wrapInElement a act el :
  visibleText (wrapInElement a act el) = visibleText el.
Proof.
  unfold wrapInElement. destruct (sourceSpan el) as [elStart elEnd].
  destruct (_ || _); [reflexivity|].
  apply visibleText_wrapFirstText. apply textNodes_getNode.
Qed.

Lemma wrapFirstText_root el nodes aS aE a act charCount :
  sameRoot el (wrapFirstText el nodes aS aE a act charCount).
Proof.
  revert charCount. induction nodes as [|[p d] nodes IH]; intros charCount;
    [apply sameRoot_refl|].
  cbn [wrapFirstText]. cbv zeta.
  destruct (_ && _); [|apply IH].
  destruct (_ && _); [apply replaceWith_root | apply IH].
Qed.

Lemma wrapInElement_root a act el : sameRoot el (wrapInElement a act el).
Proof.
  unfold wrapInElement. destruct (sourceSpan el) as [elStart elEnd].
  destruct (_ || _); [apply sameRoot_refl | apply wrapFirstText_root].
Qed.

Lemma wrapInElement_same_kind a act el :
  isAnnotationMark (wrapInElement a act el) = isAnnotationMark el
  /\ isPointMarker (wrapInElement a act el) = isPointMarker el
  /\ hasSourcePosition (wrapInElement a act el) = hasSourcePosition el
  /\ sourceSpan (wrapInElement a act el) = sourceSpan el.
Proof. apply sameRoot_same_kind, wrapInElement_root. Qed.

Lemma elementAt_getNode tree k p el :
  elementAt tree k = Some (p, el) -> getNode tree p = Some el.
Proof.
  unfold elementAt. destruct (nth_error _ k) as [q|]; [|discriminate].
  destruct (getNode tree q) as [n|] eqn:G; [|discriminate].
  intros H. inversion H; subst. exact G.
Qed.

Lemma visibleText_wrapAnnotationRange container a act :
  visibleText (wrapAnnotationRange container a act) = visibleText container.
Proof.
  unfold wrapAnnotationRange.
  generalize (seq 0 (List.length (sourceElements container))). intros ks.
  revert container. induction ks as [|k ks IH]; intros tree; [reflexivity|].
  cbn [fold_left]. rewrite IH.
  destruct (elementAt tree k) as [[p el]|] eqn:E; [|reflexivity].
  apply visibleText_replaceWith with (old := el).
  - now apply elementAt_getNode in E.
  - simpl. destruct (wrapInElement_same_kind a act el) as (_ & -> & _).
    now rewrite visibleText_wrapInElement.
Qed.

Lemma findTextNode_In nodes target charCount p d cc :
  findTextNode nodes target charCount = Some (p, d, cc) -> In (p, d) nodes.
Proof.
  revert charCount. induction nodes as [|[q e] nodes IH]; intros charCount;
    [discriminate|].
  cbn [findTextNode]. cbv zeta.
  destruct (_ >=? _).
  - intros H. inversion H; subst. now left.
  - intros H. right. eapply IH, H.
Qed.

Lemma visibleText_insertPointMarkerFrom container a act ks :
  visibleText (insertPointMarkerFrom container a act ks)
  = visibleText container.
Proof.
  induction ks as [|k ks IH]; [reflexivity|].
  cbn [insertPointMarkerFrom].
  destruct (elementAt container k) as [[p el]|] eqn:E; [|exact IH].
  destruct (sourceSpan el) as [elStart elEnd].
  destruct (_ || _); [exact IH|]. cbv zeta.
  destruct (findTextNode (textNodes el) _ 0) as [[[textNode d] charCount]|] eqn:F;
    [|exact IH].
  apply findTextNode_In, textNodes_getNode in F.
  apply visibleText_replaceWith with (old := el).
  - now apply elementAt_getNode in E.
  - cbn [visibleTextAmong].
    destruct (replaceWith_same_kind el textNode
                (if (markdownStartOffset a - elStart - charCount >? 0)
                    && (markdownStartOffset a - elStart - charCount
                        <? JS.length d)
                 then [Text (JS.slice d 0 (markdownStartOffset a - elStart
                                           - charCount));
                       newPointMarker a act;
                       Text (JS.sliceFrom d (markdownStartOffset a - elStart
                                             - charCount))]
                 else [Text d; newPointMarker a act])) as (_ & -> & _).
    destruct (isPointMarker el); [reflexivity|]. f_equal.
    apply visibleText_replaceWith with (old := Text d); [exact F|].
    destruct (_ && _); simpl; rewrite ?append_nil_r;
      [apply slice_take_drop | reflexivity].
Qed.

Lemma isPointMarker_normalize n : isPointMarker (normalize n) = isPointMarker n.
Proof. now destruct n. Qed.

Lemma visibleTextAmong_mergeText cs :
  visibleTextAmong (mergeText cs) = visibleTextAmong cs.
Proof.
  induction cs as [|[d|tag attrs cs'] cs IH].
  - reflexivity.
  - cbn [mergeText]. cbn [visibleTextAmong isPointMarker visibleText].
    rewrite <- IH.
    destruct (mergeText cs) as [|[d'|tag' attrs' cs''] rest].
    + destruct (String.eqb_spec d ""); [now subst | reflexivity].
    + simpl. now rewrite append_assoc.
    + destruct (String.eqb_spec d ""); [now subst | reflexivity].
  - cbn [mergeText visibleTextAmong]. now rewrite IH.
Qed.

Lemma visibleText_normalize n : visibleText (normalize n) = visibleText n.
Proof.
  induction n as [d|tag attrs cs IH] using Node_children_ind; [reflexivity|].
  cbn [normalize]. rewrite !visibleText_Element, visibleTextAmong_mergeText.
  induction IH as [|c cs Hc _ IHcs]; [reflexivity|].
  cbn [map visibleTextAmong]. now rewrite isPointMarker_normalize, Hc, IHcs.
Qed.

Lemma mark_not_point_marker c :
  isAnnotationMark c = true -> isPointMarker c = false.
Proof.
  destruct c as [d|tag attrs cs]; [reflexivity|]. simpl.
  destruct (String.eqb_spec tag "MARK"); [subst; reflexivity | discriminate].
Qed.

Lemma visibleText_unwrapFirstMark n n' :
  unwrapFirstMark n = Some n' -> visibleText n' = visibleText n.
Proof.
  revert n'. induction n as [d|tag attrs cs IH] using Node_children_ind;
    intros n'; [discriminate|].
  rewrite unwrapFirstMark_Element.
  assert (forall cs' here, unwrapAmong cs = Some (cs', here) ->
            visibleTextAmong cs' = visibleTextAmong cs) as H.
  { induction IH as [|c cs Hc _ IHcs]; intros cs' here; [discriminate|].
    cbn [unwrapAmong].
    destruct (isAnnotationMark c) eqn:Hm.
    - intros E. inversion E; subst.
      rewrite visibleTextAmong_app. cbn [visibleTextAmong].
      rewrite (mark_not_point_marker c Hm).
      destruct c as [d|t a0 cs0]; [discriminate|]. reflexivity.
    - destruct (unwrapFirstMark c) as [c'|] eqn:Hu.
      + intros E. inversion E; subst. cbn [visibleTextAmong].
        destruct (unwrapFirstMark_same_element c c' Hu) as [_ ->].
        now rewrite (Hc c' eq_refl).
      + destruct (unwrapAmong cs) as [[rest' here']|]; [|discriminate].
        intros E. inversion E; subst. cbn [visibleTextAmong].
        now rewrite (IHcs _ _ eq_refl). }
  destruct (unwrapAmong cs) as [[cs' [|]]|]; intros E; [| |discriminate];
    injection E as E; subst n'.
  - change (Element tag attrs (mergeText (map normalize cs')))
      with (normalize (Element tag attrs cs')).
    rewrite visibleText_normalize, !visibleText_Element. now apply (H cs' true).
  - rewrite !visibleText_Element. now apply (H cs' false).
Qed.

Lemma visibleText_removeMarks n : visibleText (removeMarks n) = visibleText n.
Proof.
  unfold removeMarks. generalize (countMarks n). intros turns.
  revert n. induction turns as [|turns IH]; intros n; [reflexivity|].
  cbn [unwrapMarks]. destruct (unwrapFirstMark n) as [n'|] eqn:E; [|reflexivity].
  rewrite IH. now apply visibleText_unwrapFirstMark.
Qed.

Lemma visibleText_removePointMarkers n :
  visibleText (removePointMarkers n) = visibleText n.
Proof.
  induction n as [d|tag attrs cs IH] using Node_children_ind; [reflexivity|].
  rewrite removePointMarkers_Element, !visibleText_Element.
  induction IH as [|c cs Hc _ IHcs]; [reflexivity|].
  cbn [removePointMarkersAmong visibleTextAmong].
  destruct (isPointMarker c) eqn:Hp; [exact IHcs|].
  cbn [visibleTextAmong].
  destruct (removePointMarkers_same_element c) as [_ ->].
  now rewrite Hp, Hc, IHcs.
Qed.

(** Highlighting never changes the text: for every container, list of
    annotations and active id, the text that [applyHighlights] leaves in the
    container (outside the point markers, which hold none) is the text that
    was there, character for character; so is the text after each single
    pass of [wrapAnnotationRange] and of [insertPointMarker]. *)
Theorem applyHighlights_keeps_text (container : Node)
    (annotations : list Annotation) (activeId : option string) :
  visibleText (applyHighlights container annotations activeId)
  = visibleText container
  /\ (forall a act, visibleText (wrapAnnotationRange container a act)
                    = visibleText container)
  /\ (forall a act, visibleText (insertPointMarker container a act)
                    = visibleText container).
Proof.
  split; [|split].
  - unfold applyHighlights. cbv zeta.
    generalize (JS.sort (fun a b => markdownStartOffset b - markdownStartOffset a)
                        annotations). intros sorted.
    rewrite <- (visibleText_removeMarks container).
    rewrite <- (visibleText_removePointMarkers (removeMarks container)).
    generalize (removePointMarkers (removeMarks container)). intros tree.
    revert tree. induction sorted as [|a sorted IH]; intros tree; [reflexivity|].
    cbn [fold_left]. rewrite IH.
    destruct (kind a).
    + apply visibleText_wrapAnnotationRange.
    + apply visibleText_insertPointMarkerFrom.
  - intros a act. apply visibleText_wrapAnnotationRange.
  - intros a act. apply visibleText_insertPointMarkerFrom.
Qed.

Lemma markersAmong_app cs1 cs2 :
  markersAmong (cs1 ++ cs2) = markersAmong cs1 ++ markersAmong cs2.
Proof.
  induction cs1 as [|c cs1 IH]; [reflexivity|].
  cbn [app markersAmong]. now rewrite IH, !app_assoc.
Qed.

Section MarkersOfReplacement.
Variable Q : string * string * string -> Prop.

Lemma markers_replaceInChild p new i cs c :
  nth_error cs i = Some c ->
  (forall m, In m (markersAmong [replaceWith c p new]) ->
             In m (markersAmong [c]) \/ Q m) ->
  forall m, In m (markersAmong (replaceInChild p new i cs)) ->
            In m (markersAmong cs) \/ Q m.
Proof.
  intros Hn Hc. revert i Hn.
  induction cs as [|c0 cs IH]; intros [|i] Hn m; simpl in Hn; try discriminate.
  - inversion Hn; subst c0. cbn [replaceInChild].
    change (replaceWith c p new :: cs) with ([replaceWith c p new] ++ cs).
    change (c :: cs) with ([c] ++ cs).
    rewrite !markersAmong_app, !in_app_iff. intros [H|H]; [|tauto].
    destruct (Hc m H); tauto.
  - cbn [replaceInChild].
    change (c0 :: replaceInChild p new i cs)
      with ([c0] ++ replaceInChild p new i cs).
    change (c0 :: cs) with ([c0] ++ cs).
    rewrite !markersAmong_app, !in_app_iff. intros [H|H]; [tauto|].
    destruct (IH i Hn m H); tauto.
Qed.

Lemma markersAmong_single_same_root (el el' : Node) :
  sameRoot el el' ->
  (forall m, In m (markers el') -> In m (markers el) \/ Q m) ->
  forall m, In m (markersAmong [el']) -> In m (markersAmong [el]) \/ Q m.
Proof.
  intros Hroot H m. cbn [markersAmong].
  destruct (sameRoot_same_kind el el' Hroot) as (Hm & Hp & _).
  rewrite !app_nil_r, !in_app_iff, Hm, Hp.
  intros [Hin|Hin]; [|destruct (H m Hin); tauto].
  left. left.
  destruct el as [d|t a0 cs], el' as [d'|t' a' cs']; try contradiction.
  destruct Hroot as [<- <-]. exact Hin.
Qed.

Lemma markersAmong_single_replaced c p new :
  (forall m, In m (markers (replaceWith c p new)) -> In m (markers c) \/ Q m) ->
  forall m, In m (markersAmong [replaceWith c p new]) ->
            In m (markersAmong [c]) \/ Q m.
Proof. apply markersAmong_single_same_root, replaceWith_root. Qed.

(** The markers after a replacement are markers that were there, or markers
    of the nodes put in. *)
Lemma markers_replaceWith p n old new :
  getNode n p = Some old ->
  (forall m, In m (markersAmong new) -> In m (markersAmong [old]) \/ Q m) ->
  forall m, In m (markers (replaceWith n p new)) -> In m (markers n) \/ Q m.
Proof.
  revert n. induction p as [|i p IH]; intros n G Hnew m.
  - destruct n; simpl; tauto.
  - destruct n as [d|tag attrs cs]; [simpl; tauto|].
    simpl in G. destruct (nth_error cs i) as [c|] eqn:Hn; [|discriminate].
    destruct p as [|j p].
    + simpl in G. inversion G; subst c.
      rewrite replaceWith_single, !markers_Element.
      rewrite (nth_error_split_at cs i old Hn) at 3.
      change (old :: skipn (S i) cs) with ([old] ++ skipn (S i) cs).
      rewrite !markersAmong_app, !in_app_iff.
      intros [H|[H|H]]; try tauto.
      destruct (Hnew m H); tauto.
    + rewrite replaceWith_cons, !markers_Element.
      apply (markers_replaceInChild _ _ _ _ c Hn).
      apply markersAmong_single_replaced. now apply IH.
Qed.

End MarkersOfReplacement.

Lemma markers_wrapFirstText el nodes aS aE a act charCount :
  (forall p d, In (p, d) nodes -> getNode el p = Some (Text d)) ->
  forall m, In m (markers (wrapFirstText el nodes aS aE a act charCount)) ->
            In m (markers el)
            \/ m = ("MARK", id a, if act then "active" else "").
Proof.
  revert charCount. induction nodes as [|[p d] nodes IH]; intros charCount Hn m;
    [simpl; tauto|].
  cbn [wrapFirstText]. cbv zeta.
  assert (forall p' d', In (p', d') nodes -> getNode el p' = Some (Text d'))
    as Hn' by (intros p' d' H; apply Hn; now right).
  destruct (_ && _); [|now apply IH].
  destruct (_ && _); [|now apply IH].
  apply (markers_replaceWith
           (fun m => m = ("MARK", id a, if act then "active" else ""))
           p el (Text d)).
  - apply Hn. now left.
  - intros m'. unfold surroundContents, newMark. simpl.
    intros [H|[]]. right. rewrite <- H. now destruct act.
Qed.

Lemma markers_wrapInElement a act el :
  forall m, In m (markers (wrapInElement a act el)) ->
            In m (markers el)
            \/ m = ("MARK", id a, if act then "active" else "").
Proof.
  unfold wrapInElement. destruct (sourceSpan el) as [elStart elEnd].
  destruct (_ || _); [tauto|].
  apply markers_wrapFirstText. apply textNodes_getNode.
Qed.


Lemma markers_wrapAnnotationRange container a act :
  forall m, In m (markers (wrapAnnotationRange container a act)) ->
            In m (markers container)
            \/ m = ("MARK", id a, if act then "active" else "").
Proof.
  unfold wrapAnnotationRange.
  generalize (seq 0 (List.length (sourceElements container))). intros ks.
  revert container. induction ks as [|k ks IH]; intros tree m; [simpl; tauto|].
  cbn [fold_left]. intros H. apply IH in H as [H|H]; [|now right].
  destruct (elementAt tree k) as [[p el]|] eqn:E; [|now left].
  revert m H.
  apply (markers_replaceWith
           (fun m => m = ("MARK", id a, if act then "active" else ""))
           p tree el).
  - now apply elementAt_getNode in E.
  - apply markersAmong_single_same_root;
      [apply wrapInElement_root | apply markers_wrapInElement].
Qed.

Lemma markers_insertPointMarkerFrom container a act ks :
  forall m, In m (markers (insertPointMarkerFrom container a act ks)) ->
            In m (markers container)
            \/ m = ("SPAN", id a,
                    ("inline-block w-2 h-2 rounded-full mx-0.5 align-middle cursor-pointer "
                     ++ (if act then "bg-sienna-500"
                         else "bg-sienna-400/60 hover:bg-sienna-500"))%string).
Proof.
  induction ks as [|k ks IH]; [simpl; tauto|].
  cbn [insertPointMarkerFrom].
  destruct (elementAt container k) as [[p el]|] eqn:E; [|exact IH].
  destruct (sourceSpan el) as [elStart elEnd].
  destruct (_ || _); [exact IH|]. cbv zeta.
  destruct (findTextNode (textNodes el) _ 0) as [[[textNode d] charCount]|] eqn:F;
    [|exact IH].
  apply findTextNode_In, textNodes_getNode in F.
  set (Q := fun m : string * string * string =>
              m = ("SPAN", id a,
                   ("inline-block w-2 h-2 rounded-full mx-0.5 align-middle cursor-pointer "
                    ++ (if act then "bg-sienna-500"
                        else "bg-sienna-400/60 hover:bg-sienna-500"))%string)).
  apply (markers_replaceWith Q p container el).
  - now apply elementAt_getNode in E.
  - apply markersAmong_single_replaced.
    apply (markers_replaceWith Q textNode el (Text d)); [exact F|].
    intros m. destruct (_ && _); simpl; intros [H|[]]; right; now rewrite <- H.
Qed.

Lemma Forall_markers_fold (activeId : option string)
    (sorted : list Annotation) (tree : Node) :
  Forall (fun m => exists a, In a sorted /\ m = markerOf activeId a)
         (markers tree) ->
  Forall (fun m => exists a, In a sorted /\ m = markerOf activeId a)
    (markers
       (fold_left
          (fun tree annotation =>
             match kind annotation with
             | point =>
                 insertPointMarker tree annotation
                   (isActiveId activeId annotation)
             | range =>
                 wrapAnnotationRange tree annotation
                   (isActiveId activeId annotation)
             end) sorted tree)).
Proof.
  assert (forall done todo tree,
    Forall (fun m => exists a, In a (done ++ todo) /\ m = markerOf activeId a)
           (markers tree) ->
    Forall (fun m => exists a, In a (done ++ todo) /\ m = markerOf activeId a)
      (markers
         (fold_left
            (fun tree annotation =>
               match kind annotation with
               | point =>
                   insertPointMarker tree annotation
                     (isActiveId activeId annotation)
               | range =>
                   wrapAnnotationRange tree annotation
                     (isActiveId activeId annotation)
               end) todo tree))) as H.
  { intros done todo. revert done.
    induction todo as [|a todo IH]; intros done tree0 Ht; [exact Ht|].
    cbn [fold_left].
    replace (done ++ a :: todo) with ((done ++ [a]) ++ todo) in *
      by (now rewrite <- app_assoc).
    apply IH. rewrite Forall_forall in *. intros m Hm.
    assert (In a ((done ++ [a]) ++ todo)) as Ha
      by (rewrite !in_app_iff; simpl; tauto).
    destruct (kind a) eqn:K.
    - apply markers_wrapAnnotationRange in Hm as [Hm| ->]; [now apply Ht|].
      exists a. split; [exact Ha|]. unfold markerOf. now rewrite K.
    - apply markers_insertPointMarkerFrom in Hm as [Hm| ->]; [now apply Ht|].
      exists a. split; [exact Ha|]. unfold markerOf. now rewrite K. }
  exact (H [] sorted tree).
Qed.

(** No marker without an annotation: whatever markers the container
    held before, every [mark] and every point marker that it holds after
    [applyHighlights] carries the id of an annotation of the list, has the
    tag of that annotation's kind, and has the active style exactly when
    that annotation is the active one. *)
Theorem applyHighlights_markers (container : Node)
    (annotations : list Annotation) (activeId : option string) :
  Forall (fun m => exists a, In a annotations /\ m = markerOf activeId a)
         (markers (applyHighlights container annotations activeId)).
Proof.
  unfold applyHighlights. cbv zeta.
  assert (Forall (fun m => exists a,
                    In a (JS.sort (fun a b => markdownStartOffset b
                                              - markdownStartOffset a)
                                  annotations)
                    /\ m = markerOf activeId a)
            (markers
               (fold_left
                  (fun tree annotation =>
                     match kind annotation with
                     | point =>
                         insertPointMarker tree annotation
                           (isActiveId activeId annotation)
                     | range =>
                         wrapAnnotationRange tree annotation
                           (isActiveId activeId annotation)
                     end)
                  (JS.sort (fun a b => markdownStartOffset b
                                       - markdownStartOffset a) annotations)
                  (removePointMarkers (removeMarks container))))) as H.
  { apply Forall_markers_fold.
    rewrite removePointMarkers_no_marker by apply removeMarks_complete.
    constructor. }
  eapply Forall_impl; [|exact H].
  intros m (a & Ha & Hm). exists a. split; [|exact Hm].
  eapply Permutation_in; [symmetry; apply sort_perm | exact Ha].
Qed.

End HighlightFurther.

(** ** The application: what the interface lets into the store *)

Section TrimFacts.

Lemma trimEnd_keeps_head (c : ascii) (s : string) :
  JS.isWhiteSpace c = false ->
  JS.trimEnd (String c s) = String c (JS.trimEnd s).
Proof.
  intros H. cbn [JS.trimEnd]. destruct (JS.trimEnd s); [now rewrite H | reflexivity].
Qed.

Lemma trimEnd_idempotent (s : string) :
  JS.trimEnd (JS.trimEnd s) = JS.trimEnd s.
Proof.
  induction s as [|c s IH]; [reflexivity|].
  cbn [JS.trimEnd]. destruct (JS.trimEnd s) as [|d r] eqn:E.
  - destruct (JS.isWhiteSpace c) eqn:W; [reflexivity|].
    cbn [JS.trimEnd]. now rewrite W.
  - cbn [JS.trimEnd]. cbn [JS.trimEnd] in IH.
    destruct (JS.trimEnd r) as [|e r'] eqn:Er.
    + destruct (JS.isWhiteSpace d); [discriminate | now rewrite IH].
    + now rewrite IH.
Qed.

Lemma trimStart_head (s : string) :
  match JS.trimStart s with
  | EmptyString => True
  | String c _ => JS.isWhiteSpace c = false
  end.
Proof.
  induction s as [|c s IH]; [exact I|].
  cbn [JS.trimStart]. destruct (JS.isWhiteSpace c) eqn:W; [exact IH | exact W].
Qed.

Lemma trim_idempotent (s : string) : JS.trim (JS.trim s) = JS.trim s.
Proof.
  unfold JS.trim. pose proof (trimStart_head s) as H.
  destruct (JS.trimStart s) as [|c t]; [reflexivity|].
  rewrite (trimEnd_keeps_head c t H).
  cbn [JS.trimStart]. rewrite H.
  rewrite (trimEnd_keeps_head c _ H). now rewrite trimEnd_idempotent.
Qed.

Lemma trim_trimmed (s : string) : JS.trim s <> "" -> trimmed (JS.trim s).
Proof. intros H. split; [exact H | apply trim_idempotent]. Qed.

End TrimFacts.

Section AppInvariant.
Import UseAnnotations DocumentViewHandlers App.

Lemma selection_result_trimmed doc sel containerEl r :
  Selection.selectionToMarkdownRange doc sel containerEl = Some r ->
  trimmed (Selection.selectedText r).
Proof.
  unfold Selection.selectionToMarkdownRange.
  destruct (Dom.ranges sel) as [|rng rest]; [discriminate|].
  destruct (Dom.collapsed rng); [discriminate|].
  destruct (negb _ || negb _); [discriminate|].
  destruct (String.eqb_spec (JS.trim (Dom.toString sel)) "") as [|Hne];
    [discriminate|].
  destruct (Selection.findSourcePosition doc (Dom.startContainer rng) _ _);
    [|discriminate].
  destruct (Selection.findSourcePosition doc (Dom.endContainer rng) _ _);
    [|discriminate].
  intros H. inversion H; subst. simpl. now apply trim_trimmed.
Qed.

Lemma handleMouseUp_wellFormed doc containerEl selection pending0 :
  (forall p, pending0 = Some p -> wellFormedPending p) ->
  forall p, handleMouseUp doc containerEl selection pending0 = Some p ->
            wellFormedPending p.
Proof.
  intros H p. unfold handleMouseUp.
  destruct selection as [sel|]; [|apply H].
  destruct (Selection.selectionToMarkdownRange doc sel containerEl) as [r|] eqn:E;
    [|apply H].
  intros Hp. inversion Hp; subst. unfold wellFormedPending. simpl.
  eapply selection_result_trimmed, E.
Qed.

Lemma handleDoubleClick_wellFormed doc containerEl target node offset pending0 :
  (forall p, pending0 = Some p -> wellFormedPending p) ->
  forall p, handleDoubleClick doc containerEl target node offset pending0 = Some p ->
            wellFormedPending p.
Proof.
  intros H p. unfold handleDoubleClick.
  destruct (closestMark doc target); [apply H|].
  destruct node as [node|]; [|apply H].
  destruct (Selection.clickToMarkdownOffset doc node offset containerEl);
    [|apply H].
  intros Hp. inversion Hp; subst. unfold wellFormedPending. simpl. auto.
Qed.

Lemma handleSubmit_trimmed note t :
  AnnotationPopover.handleSubmit note = Some t -> trimmed t.
Proof.
  unfold AnnotationPopover.handleSubmit.
  destruct (String.eqb_spec (JS.trim note) ""); [discriminate|].
  intros H. inversion H; subst. now apply trim_trimmed.
Qed.

Lemma wellFormed_noteUpdate id0 note0 a :
  trimmed note0 -> wellFormed a -> wellFormed (noteUpdate id0 note0 a).
Proof.
  intros Hn [Ha Hk]. unfold noteUpdate.
  destruct (String.eqb (id a) id0); [|now split].
  split; [exact Hn | exact Hk].
Qed.

Lemma handleSave_wellFormed a editText st :
  Forall wellFormed (annotations st) ->
  Forall wellFormed (annotations (Sidebar.handleSave a editText st)).
Proof.
  intros H. unfold Sidebar.handleSave.
  destruct (String.eqb_spec (JS.trim editText) "") as [|Hne]; [exact H|].
  simpl. fold (noteUpdate (id a) (JS.trim editText)).
  rewrite Forall_forall in *. intros b Hb.
  apply in_map_iff in Hb as (b0 & <- & Hb0).
  apply wellFormed_noteUpdate; [now apply trim_trimmed | now apply H].
Qed.

Lemma handleSave_ids a editText st :
  map id (annotations (Sidebar.handleSave a editText st))
  = map id (annotations st)
  /\ activeAnnotationId (Sidebar.handleSave a editText st)
     = activeAnnotationId st.
Proof.
  unfold Sidebar.handleSave.
  destruct (String.eqb (JS.trim editText) ""); [now split|].
  simpl. fold (noteUpdate (id a) (JS.trim editText)).
  split; [apply map_id_noteUpdate | reflexivity].
Qed.

Lemma card_stored st k a : card st k = Some a -> In (id a) (storedIds st).
Proof.
  unfold card, storedIds, sortedAnnotations. intros H.
  apply nth_error_In in H. apply in_map.
  eapply Permutation_in; [symmetry; apply sort_perm | exact H].
Qed.

Lemma unmountHidden_consistent st :
  Forall wellFormed (annotations (hook st)) ->
  (forall md, markdown st = Some md -> JS.trim md <> "") ->
  (forall p, pending st = Some p -> wellFormedPending p) ->
  (forall i, activeAnnotationId (hook st) = Some i -> In i (storedIds st)) ->
  consistent (unmountHidden st).
Proof.
  intros H1 H2 H3 H4. unfold consistent, unmountHidden, storedIds.
  destruct (documentViewShown st) eqn:S; simpl.
  - split; [exact H1|]. split; [exact H2|]. split; [|exact H4].
    intros p E. split; [now apply H3 | exact S].
  - split; [exact H1|]. split; [exact H2|]. split; [discriminate | exact H4].
Qed.

Lemma handleEvent_consistent st ev : consistent st -> consistent (handleEvent st ev).
Proof.
  intros Hc. pose proof Hc as (Hw & Hmd & Hp & Hact).
  assert (forall p, pending st = Some p -> wellFormedPending p) as Hp1
    by (intros p E; now apply Hp).
  destruct ev as [pasted|text| |v|doc c sel|doc c target node offset
                  |note uuid now| |k editText|k|k]; cbn [handleEvent].
  - (* Paste *)
    destruct (documentLoaded st) eqn:L; [exact Hc|].
    unfold InputView.handlePaste.
    destruct (String.eqb_spec (JS.trim pasted) "") as [|Hne]; [exact Hc|].
    unfold documentLoaded in L. destruct (markdown st) eqn:M; [discriminate|].
    unfold consistent, handleLoadMarkdown, storedIds. simpl.
    split; [exact Hw|]. split; [intros md E; now inversion E; subst|].
    split; [|exact Hact].
    intros p E. destruct (Hp p E) as [Hwp Hs].
    unfold documentViewShown in Hs. rewrite M in Hs. discriminate.
  - (* Begin *)
    destruct (documentLoaded st) eqn:L; [exact Hc|].
    unfold InputView.handleSubmit.
    destruct (String.eqb_spec (JS.trim text) "") as [|Hne]; [exact Hc|].
    unfold documentLoaded in L. destruct (markdown st) eqn:M; [discriminate|].
    unfold consistent, handleLoadMarkdown, storedIds. simpl.
    split; [exact Hw|]. split; [intros md E; now inversion E; subst|].
    split; [|exact Hact].
    intros p E. destruct (Hp p E) as [Hwp Hs].
    unfold documentViewShown in Hs. rewrite M in Hs. discriminate.
  - (* Reset *)
    destruct (documentLoaded st); [|exact Hc].
    apply unmountHidden_consistent; simpl; auto; discriminate.
  - (* SetViewMode *)
    destruct (documentLoaded st); [|exact Hc].
    apply unmountHidden_consistent; simpl; auto.
  - (* MouseUp *)
    destruct (documentViewShown st) eqn:S; [|exact Hc].
    unfold consistent, storedIds. simpl.
    split; [exact Hw|]. split; [exact Hmd|]. split; [|exact Hact].
    intros p E. split; [|exact S].
    eapply handleMouseUp_wellFormed; [exact Hp1 | exact E].
  - (* DoubleClick *)
    destruct (documentViewShown st) eqn:S; [|exact Hc].
    unfold consistent, storedIds. simpl.
    split; [exact Hw|]. split; [exact Hmd|]. split; [|exact Hact].
    intros p E. split; [|exact S].
    eapply handleDoubleClick_wellFormed; [exact Hp1 | exact E].
  - (* PopoverSubmit *)
    destruct (pending st) as [p|] eqn:P; [|exact Hc].
    destruct (AnnotationPopover.handleSubmit note) as [t|] eqn:T;
      [|exact Hc].
    apply handleSubmit_trimmed in T.
    unfold handlePopoverSubmit, consistent, storedIds. simpl.
    destruct (Hp p eq_refl) as [Hwp _].
    split; [|split; [exact Hmd|split; [discriminate|]]].
    + apply Forall_app. split; [exact Hw|]. constructor; [|constructor].
      split; [exact T|]. exact Hwp.
    + intros i E. rewrite map_app, in_app_iff. left. now apply Hact.
  - (* PopoverDismiss *)
    unfold consistent, storedIds. simpl.
    split; [exact Hw|]. split; [exact Hmd|]. split; [discriminate | exact Hact].
  - (* CardSave *)
    destruct (documentLoaded st); [|exact Hc].
    destruct (card st k) as [a|]; [|exact Hc].
    unfold consistent, storedIds. simpl.
    destruct (handleSave_ids a editText (hook st)) as [-> ->].
    split; [now apply handleSave_wellFormed|]. split; [exact Hmd|]. split; [exact Hp | exact Hact].
  - (* CardDelete *)
    destruct (documentLoaded st); [|exact Hc].
    destruct (card st k) as [a|]; [|exact Hc].
    unfold consistent, storedIds. simpl.
    split; [|split; [exact Hmd|split; [exact Hp|]]].
    + rewrite Forall_forall in *. intros b Hb.
      apply filter_In in Hb as [Hb _]. now apply Hw.
    + intros i. destruct (activeAnnotationId (hook st)) as [prev|] eqn:A;
        [|discriminate].
      destruct (String.eqb_spec prev (id a)) as [|Hne]; [discriminate|].
      intros E. inversion E; subst i.
      specialize (Hact prev eq_refl). unfold storedIds in Hact.
      apply in_map_iff in Hact as (b & Hb & Hin).
      apply in_map_iff. exists b. split; [exact Hb|].
      apply filter_In. split; [exact Hin|].
      apply negb_true_iff, String.eqb_neq. congruence.
  - (* Activate *)
    destruct (documentLoaded st); [|exact Hc].
    destruct (card st k) as [a|] eqn:C; [|exact Hc].
    unfold consistent, handleAnnotationActivate, storedIds. simpl.
    split; [exact Hw|]. split; [exact Hmd|]. split; [exact Hp|].
    intros i E. inversion E; subst i. now apply card_stored in C.
Qed.

Lemma runEvents_snoc evs ev :
  App.runEvents (evs ++ [ev]) = handleEvent (App.runEvents evs) ev.
Proof. unfold App.runEvents. now rewrite fold_left_app. Qed.

Lemma run_consistent evs : consistent (App.runEvents evs).
Proof.
  induction evs as [|ev evs IH] using rev_ind.
  - unfold consistent. simpl. repeat split; try discriminate. constructor.
  - rewrite runEvents_snoc. now apply handleEvent_consistent.
Qed.

(** Whatever the user does, every annotation in the store is well
    formed: its note is not blank and has no white space at either end; a
    range annotation has an anchor text that is not blank and is trimmed; a
    point annotation has an empty anchor text and its two offsets equal.
    The same holds of the annotation that is waiting in the popover. *)
Theorem stored_annotations_wellFormed (evs : list Event) :
  Forall wellFormed (annotations (hook (App.runEvents evs)))
  /\ match pending (App.runEvents evs) with
     | Some p => wellFormedPending p
     | None => True
     end.
Proof.
  destruct (run_consistent evs) as (Hw & _ & Hp & _). split; [exact Hw|].
  destruct (pending (App.runEvents evs)) as [p|]; [|exact I]. now apply Hp.
Qed.

(** The active id is never dangling: whatever the user does, the
    active annotation id is [null] or the id of a stored annotation. *)
Theorem active_id_is_stored (evs : list Event) :
  match activeAnnotationId (hook (App.runEvents evs)) with
  | Some i => In i (storedIds (App.runEvents evs))
  | None => True
  end.
Proof.
  destruct (run_consistent evs) as (_ & _ & _ & Hact).
  destruct (activeAnnotationId (hook (App.runEvents evs))) as [i|]; [|exact I].
  now apply Hact.
Qed.

(** The document is never blank, and the popover is only open over
    the rendered document: whatever the user does, the loaded markdown, if
    any, has a character that is not white space, and an annotation is
    pending only while a document is loaded and shown rendered. *)
Theorem document_never_blank (evs : list Event) :
  match markdown (App.runEvents evs) with
  | Some md => JS.trim md <> ""
  | None => pending (App.runEvents evs) = None
  end
  /\ (pending (App.runEvents evs) <> None ->
      viewMode (App.runEvents evs) = rendered).
Proof.
  destruct (run_consistent evs) as (_ & Hmd & Hp & _). split.
  - destruct (markdown (App.runEvents evs)) as [md|] eqn:M; [now apply Hmd|].
    destruct (pending (App.runEvents evs)) as [p|]; [|reflexivity].
    destruct (Hp p eq_refl) as [_ Hs]. unfold documentViewShown in Hs.
    rewrite M in Hs. discriminate.
  - destruct (pending (App.runEvents evs)) as [p|]; [|congruence]. intros _.
    destruct (Hp p eq_refl) as [_ Hs]. unfold documentViewShown in Hs.
    destruct (markdown (App.runEvents evs)); [|discriminate].
    now destruct (viewMode (App.runEvents evs)).
Qed.

End AppInvariant.

Section ResetFacts.
Import UseAnnotations DocumentViewHandlers App.

(** A reset keeps the annotations: after the user goes back to the
    start screen and loads another text, the store holds the annotations
    of the previous document, unchanged and in the same order (only the
    active id is cleared), so they are shown on, and exported with, the new
    text. *)
Theorem store_survives_reset (evs : list Event) (text : string) :
  let before := App.runEvents evs in
  let after := App.runEvents (evs ++ [Reset; Begin text]) in
  annotations (hook after) = annotations (hook before)
  /\ (markdown before <> None /\ JS.trim text <> "" ->
      markdown after = Some text
      /\ activeAnnotationId (hook after) = None
      /\ LibExport.generateExport text (sortedAnnotations (hook after))
         = LibExport.generateExport text (sortedAnnotations (hook before))).
Proof.
  cbv zeta. unfold App.runEvents. rewrite fold_left_app.
  fold (App.runEvents evs). generalize (App.runEvents evs). intros st.
  cbn [fold_left]. split.
  - cbn [handleEvent]. unfold InputView.handleSubmit.
    destruct (documentLoaded st) eqn:L.
    + unfold unmountHidden, handleReset, documentViewShown. simpl.
      destruct (String.eqb (JS.trim text) ""); reflexivity.
    + rewrite L. destruct (String.eqb (JS.trim text) ""); reflexivity.
  - intros [Hmd Ht]. cbn [handleEvent]. unfold InputView.handleSubmit.
    assert (documentLoaded st = true) as ->
      by (unfold documentLoaded; destruct (markdown st); congruence).
    unfold unmountHidden, handleReset, documentViewShown. simpl.
    destruct (String.eqb_spec (JS.trim text) ""); [contradiction|].
    split; [reflexivity|]. split; reflexivity.
Qed.

End ResetFacts.

(** ** The raw view *)

Section RawViewFacts.
Import RawView.

Lemma split_nonempty (sep : ascii) (s : string) : split sep s <> [].
Proof.
  induction s as [|c s IH]; simpl; [discriminate|].
  destruct (Ascii.eqb c sep); [discriminate|].
  destruct (split sep s); discriminate.
Qed.

Lemma concat_split (sep : ascii) (s : string) :
  String.concat (String sep "") (split sep s) = s.
Proof.
  induction s as [|c s IH]; [reflexivity|].
  cbn [split]. destruct (Ascii.eqb_spec c sep) as [->|Hne].
  - pose proof (split_nonempty sep s) as Hn.
    cbn [String.concat]. destruct (split sep s) as [|l ls]; [contradiction|].
    simpl. now rewrite <- IH.
  - pose proof (split_nonempty sep s) as Hn.
    destruct (split sep s) as [|l ls]; [contradiction|].
    rewrite <- IH. cbn [String.concat]. destruct ls; reflexivity.
Qed.

Lemma length_split (sep : ascii) (s : string) :
  List.length (split sep s) = S (occurrences sep s).
Proof.
  induction s as [|c s IH]; [reflexivity|].
  cbn [split occurrences]. destruct (Ascii.eqb c sep); simpl; [now rewrite IH|].
  pose proof (split_nonempty sep s) as Hn.
  destruct (split sep s) as [|l ls]; [contradiction|]. simpl in *. lia.
Qed.

Lemma split_no_separator (sep : ascii) (s : string) :
  Forall (fun line => occurrences sep line = 0%nat) (split sep s).
Proof.
  induction s as [|c s IH]; [repeat constructor|].
  cbn [split]. destruct (Ascii.eqb c sep) eqn:E; [now constructor|].
  destruct (split sep s) as [|l ls]; [repeat constructor; simpl; now rewrite E|].
  inversion IH; subst. constructor; [|assumption]. simpl. now rewrite E.
Qed.

Lemma rowsFrom_numbers (i : Z) (lines : list string) :
  map fst (rowsFrom i lines)
  = map (fun k => i + 1 + Z.of_nat k) (seq 0 (List.length lines)).
Proof.
  revert i. induction lines as [|l lines IH]; intros i; [reflexivity|].
  cbn [rowsFrom map List.length seq fst]. f_equal; [lia|].
  rewrite IH, <- seq_shift, map_map. apply map_ext. intros k. lia.
Qed.

Lemma rowsFrom_cells (i : Z) (lines : list string) :
  Forall (fun row => snd row <> "") (rowsFrom i lines)
  /\ map snd (rowsFrom i lines)
     = map (fun line => if String.eqb line "" then nbsp else line) lines.
Proof.
  revert i. induction lines as [|l lines IH]; intros i;
    [split; [constructor | reflexivity]|].
  destruct (IH (i + 1)) as [IH1 IH2]. cbn [rowsFrom map snd]. split.
  - constructor; [|exact IH1]. simpl.
    destruct (String.eqb_spec l ""); [discriminate | assumption].
  - now rewrite IH2.
Qed.

(** The raw view shows the whole source: its rows are numbered
    1, 2, ... and there is one more row than there are newlines in the
    markdown; the lines, none of which holds a newline, joined by newlines
    give the markdown back; and no cell is empty, a blank line being shown
    as a no-break space. *)
Theorem rawView_rows (markdown : string) :
  String.concat (String newline "") (split newline markdown) = markdown
  /\ Forall (fun line => occurrences newline line = 0%nat)
            (split newline markdown)
  /\ map fst (rows markdown)
     = map (fun k => 1 + Z.of_nat k) (seq 0 (S (occurrences newline markdown)))
  /\ map snd (rows markdown)
     = map (fun line => if String.eqb line "" then nbsp else line)
           (split newline markdown)
  /\ Forall (fun row => snd row <> "") (rows markdown).
Proof.
  split; [apply concat_split|]. split; [apply split_no_separator|].
  unfold rows. cbv zeta. split; [|split].
  - rewrite rowsFrom_numbers, length_split. reflexivity.
  - apply rowsFrom_cells.
  - apply rowsFrom_cells.
Qed.

End RawViewFacts.

(** ** The passes of the highlighter and the elements they visit *)

Section SourceElementFacts.
Import Dom DocumentView.

Lemma sourceSpans_Element tag attrs cs :
  sourceSpans (Element tag attrs cs) = sourceSpansAmong cs.
Proof. reflexivity. Qed.

Lemma sourceElements_Element tag attrs cs :
  sourceElements (Element tag attrs cs) = sourceElementsAmong 0 cs.
Proof.
  unfold sourceElements at 1. fold sourceElements.
  generalize 0%nat. induction cs as [|c cs IH]; intros i; [reflexivity|].
  simpl. now rewrite IH.
Qed.

Lemma getNode_child tag attrs pre c rest q :
  getNode (Element tag attrs (pre ++ c :: rest)) (List.length pre :: q)
  = getNode c q.
Proof.
  simpl. rewrite nth_error_app2 by lia. now rewrite Nat.sub_diag.
Qed.

(** The list of [sourceElements] and the list of [sourceSpans] go together:
    the second holds the span of each element of the first. *)
Lemma sourceSpans_sourceElements n :
  map (spanAt n) (sourceElements n) = sourceSpans n.
Proof.
  induction n as [d|tag attrs cs IH] using Node_children_ind; [reflexivity|].
  rewrite sourceElements_Element, sourceSpans_Element.
  assert (forall pre,
            map (spanAt (Element tag attrs (pre ++ cs)))
                (sourceElementsAmong (List.length pre) cs)
            = sourceSpansAmong cs) as H.
  { induction IH as [|c cs Hc _ IHcs]; intros pre; [reflexivity|].
    cbn [sourceElementsAmong sourceSpansAmong]. rewrite !map_app. f_equal.
    - destruct (hasSourcePosition c); [|reflexivity]. simpl.
      unfold spanAt. now rewrite getNode_child.
    - f_equal.
      + rewrite map_map, <- Hc. apply map_ext. intros q.
        unfold spanAt. now rewrite getNode_child.
      + specialize (IHcs (pre ++ [c])).
        rewrite <- app_assoc, length_app in IHcs. simpl in IHcs.
        now rewrite Nat.add_1_r in IHcs. }
  exact (H []).
Qed.

Lemma sourceSpansAmong_app cs1 cs2 :
  sourceSpansAmong (cs1 ++ cs2) = sourceSpansAmong cs1 ++ sourceSpansAmong cs2.
Proof.
  induction cs1 as [|c cs1 IH]; [reflexivity|].
  cbn [app sourceSpansAmong]. now rewrite IH, !app_assoc.
Qed.

Lemma sourceSpansAmong_same_root el el' :
  sameRoot el el' -> sourceSpans el' = sourceSpans el ->
  sourceSpansAmong [el'] = sourceSpansAmong [el].
Proof.
  intros Hr Hs. cbn [sourceSpansAmong].
  destruct (sameRoot_same_kind el el' Hr) as (_ & _ & -> & ->).
  now rewrite Hs.
Qed.

Lemma sourceSpans_replaceInChild p new i cs c :
  nth_error cs i = Some c ->
  sourceSpans (replaceWith c p new) = sourceSpans c ->
  sourceSpansAmong (replaceInChild p new i cs) = sourceSpansAmong cs.
Proof.
  intros Hn Hs. revert i Hn.
  induction cs as [|c0 cs IH]; intros [|i] Hn; simpl in Hn; try discriminate.
  - inversion Hn; subst c0. cbn [replaceInChild].
    change (replaceWith c p new :: cs) with ([replaceWith c p new] ++ cs).
    change (c :: cs) with ([c] ++ cs).
    rewrite !sourceSpansAmong_app. f_equal.
    apply sourceSpansAmong_same_root; [apply replaceWith_root | exact Hs].
  - cbn [replaceInChild sourceSpansAmong]. now rewrite (IH i Hn).
Qed.

Lemma sourceSpans_replaceWith p n old new :
  getNode n p = Some old ->
  sourceSpansAmong new = sourceSpansAmong [old] ->
  sourceSpans (replaceWith n p new) = sourceSpans n.
Proof.
  revert n. induction p as [|i p IH]; intros n G Hnew.
  - now destruct n.
  - destruct n as [d|tag attrs cs]; [reflexivity|].
    simpl in G. destruct (nth_error cs i) as [c|] eqn:Hn; [|discriminate].
    destruct p as [|j p].
    + simpl in G. inversion G; subst c.
      rewrite replaceWith_single, !sourceSpans_Element.
      rewrite (nth_error_split_at cs i old Hn) at 3.
      change (old :: skipn (S i) cs) with ([old] ++ skipn (S i) cs).
      now rewrite !sourceSpansAmong_app, Hnew.
    + rewrite replaceWith_cons, !sourceSpans_Element.
      apply (sourceSpans_replaceInChild _ _ _ _ c Hn). now apply IH.
Qed.

Lemma sourceSpans_wrapFirstText el nodes aS aE a act charCount :
  (forall p d, In (p, d) nodes -> getNode el p = Some (Text d)) ->
  sourceSpans (wrapFirstText el nodes aS aE a act charCount) = sourceSpans el.
Proof.
  revert charCount. induction nodes as [|[p d] nodes IH]; intros charCount Hn;
    [reflexivity|].
  cbn [wrapFirstText]. cbv zeta.
  assert (forall p' d', In (p', d') nodes -> getNode el p' = Some (Text d'))
    as Hn' by (intros p' d' H; apply Hn; now right).
  destruct (_ && _); [|now apply IH].
  destruct (_ && _); [|now apply IH].
  apply sourceSpans_replaceWith with (old := Text d); [|reflexivity].
  apply Hn. now left.
Qed.

Lemma sourceSpans_wrapInElement a act el :
  sourceSpans (wrapInElement a act el) = sourceSpans el.
Proof.
  unfold wrapInElement. destruct (sourceSpan el) as [elStart elEnd].
  destruct (_ || _); [reflexivity|].
  apply sourceSpans_wrapFirstText, textNodes_getNode.
Qed.

Lemma sourceSpans_wrapAnnotationRange container a act :
  sourceSpans (wrapAnnotationRange container a act) = sourceSpans container.
Proof.
  unfold wrapAnnotationRange.
  generalize (seq 0 (List.length (sourceElements container))). intros ks.
  revert container. induction ks as [|k ks IH]; intros tree; [reflexivity|].
  cbn [fold_left]. rewrite IH.
  destruct (elementAt tree k) as [[p el]|] eqn:E; [|reflexivity].
  apply sourceSpans_replaceWith with (old := el).
  - now apply elementAt_getNode in E.
  - apply sourceSpansAmong_same_root;
      [apply wrapInElement_root | apply sourceSpans_wrapInElement].
Qed.

Lemma sourceSpans_insertPointMarkerFrom container a act ks :
  sourceSpans (insertPointMarkerFrom container a act ks)
  = sourceSpans container.
Proof.
  induction ks as [|k ks IH]; [reflexivity|].
  cbn [insertPointMarkerFrom].
  destruct (elementAt container k) as [[p el]|] eqn:E; [|exact IH].
  destruct (sourceSpan el) as [elStart elEnd].
  destruct (_ || _); [exact IH|]. cbv zeta.
  destruct (findTextNode (textNodes el) _ 0) as [[[textNode d] charCount]|] eqn:F;
    [|exact IH].
  apply findTextNode_In, textNodes_getNode in F.
  apply sourceSpans_replaceWith with (old := el).
  - now apply elementAt_getNode in E.
  - apply sourceSpansAmong_same_root; [apply replaceWith_root|].
    apply sourceSpans_replaceWith with (old := Text d); [exact F|].
    now destruct (_ && _).
Qed.

(** The passes of the highlighter leave the elements with source
    positions as they are: after [wrapAnnotationRange] and after
    [insertPointMarker] the container holds the same number of such
    elements, with the same spans in the same order, as before; so the list
    that each pass queries once at its start stays in step with the tree
    that the pass changes. *)
Theorem passes_keep_source_elements (container : Node) (a : Annotation)
    (act : bool) :
  map (spanAt (wrapAnnotationRange container a act))
      (sourceElements (wrapAnnotationRange container a act))
  = map (spanAt container) (sourceElements container)
  /\ map (spanAt (insertPointMarker container a act))
         (sourceElements (insertPointMarker container a act))
     = map (spanAt container) (sourceElements container).
Proof.
  rewrite !sourceSpans_sourceElements. split.
  - apply sourceSpans_wrapAnnotationRange.
  - apply sourceSpans_insertPointMarkerFrom.
Qed.

Lemma insertPointMarkerFrom_skip container a act ks1 ks2 :
  (forall k p el, In k ks1 -> elementAt container k = Some (p, el) ->
     markdownStartOffset a < fst (sourceSpan el)
     \/ markdownStartOffset a > snd (sourceSpan el)) ->
  insertPointMarkerFrom container a act (ks1 ++ ks2)
  = insertPointMarkerFrom container a act ks2.
Proof.
  induction ks1 as [|k ks1 IH]; intros H; [reflexivity|].
  cbn [app insertPointMarkerFrom].
  assert (insertPointMarkerFrom container a act (ks1 ++ ks2)
          = insertPointMarkerFrom container a act ks2) as E
    by (apply IH; intros k' p el Hk; apply H; now right).
  destruct (elementAt container k) as [[p el]|] eqn:Ek; [|exact E].
  specialize (H k p el (or_introl eq_refl) Ek).
  destruct (sourceSpan el) as [elStart elEnd]. simpl in H.
  destruct (Z.ltb_spec (markdownStartOffset a) elStart);
    destruct (Z.gtb_spec (markdownStartOffset a) elEnd); simpl;
    try exact E; lia.
Qed.

Lemma seq_split_at (n k : nat) :
  (k < n)%nat -> seq 0 n = seq 0 k ++ k :: seq (S k) (n - S k).
Proof.
  intros H. replace n with (k + S (n - S k))%nat at 1 by lia.
  rewrite seq_app. reflexivity.
Qed.

(** A point at the very start of an element is marked after the
    element's first text: when the first element with a source position
    whose span holds the offset of a point annotation starts at that
    offset, the marker is put behind the whole first Text node of the
    element, all of whose characters then come before the marker although
    the annotation lies before the first of them. *)
Theorem point_at_element_start (container : Node) (a : Annotation)
    (act : bool) (k : nat) (p : Path) (el : Node) (textNode : Path)
    (d : string) (rest : list (Path * string)) (s e : Z) :
  elementAt container k = Some (p, el) ->
  (forall k' p' el', (k' < k)%nat -> elementAt container k' = Some (p', el') ->
     markdownStartOffset a < fst (sourceSpan el')
     \/ markdownStartOffset a > snd (sourceSpan el')) ->
  sourceSpan el = (s, e) -> markdownStartOffset a = s -> s <= e ->
  textNodes el = (textNode, d) :: rest ->
  insertPointMarker container a act
  = replaceWith container p
      [replaceWith el textNode [Text d; newPointMarker a act]].
Proof.
  intros E Hskip Hspan Hs Hse Ht. unfold insertPointMarker.
  assert (k < List.length (sourceElements container))%nat as Hk.
  { unfold elementAt in E.
    destruct (nth_error (sourceElements container) k) eqn:N; [|discriminate].
    apply nth_error_Some. congruence. }
  rewrite (seq_split_at _ k Hk).
  rewrite insertPointMarkerFrom_skip.
  2: { intros k' p' el' Hin. apply Hskip. apply in_seq in Hin. lia. }
  cbn [insertPointMarkerFrom]. rewrite E, Hspan.
  destruct (Z.ltb_spec (markdownStartOffset a) s); [lia|].
  destruct (Z.gtb_spec (markdownStartOffset a) e); [lia|].
  cbn [orb]. cbv zeta. rewrite Ht. cbn [findTextNode]. cbv zeta.
  replace (markdownStartOffset a - s) with 0 by lia.
  destruct (Z.geb_spec (0 + JS.length d) 0); [|unfold JS.length in *; lia].
  reflexivity.
Qed.

Lemma point_at_element_start_witness :
  insertPointMarker plainParagraph (pointAt "p" 0) false
  = Element "DIV" noAttributes
      [Element "P" (sourceAttributes 0 17)
         [Text "The API uses REST"; newPointMarker (pointAt "p" 0) false]].
Proof.
  apply (point_at_element_start plainParagraph (pointAt "p" 0) false 0%nat
           [0]%nat
           (Element "P" (sourceAttributes 0 17) [Text "The API uses REST"])
           [0]%nat "The API uses REST" [] 0 17).
  - reflexivity.
  - intros k' p' el' Hk. lia.
  - reflexivity.
  - reflexivity.
  - lia.
  - reflexivity.
Defined.

End SourceElementFacts.

(** ** From a selection to its highlight *)

Section RoundTrip.
Import Dom Selection DocumentView.

(** In an element that holds one Text node, the characters that a
    selection covers are the ones that the highlight wraps: when the two
    ends of a selection inside the node resolve to the offsets of an
    annotation (the span of the element being long enough for its text),
    the pass of [wrapAnnotationRange] over the element splits the node at
    the two ends of the selection and puts the characters between them in
    the [mark] of the annotation. *)
Theorem highlight_wraps_selection (tag : string) (attrs : Attributes)
    (d : string) (s e o1 o2 : Z) (a : Annotation) (act : bool) :
  dataSourceStart attrs = Some s -> dataSourceEnd attrs = Some e ->
  tag <> "MARK" ->
  0 <= o1 -> o1 < o2 -> o2 <= JS.length d -> s + o2 <= e ->
  findSourcePosition (Element tag attrs [Text d]) [0]%nat o1 whichStart
  = Some (markdownStartOffset a) ->
  findSourcePosition (Element tag attrs [Text d]) [0]%nat o2 whichEnd
  = Some (markdownEndOffset a) ->
  wrapInElement a act (Element tag attrs [Text d])
  = Element tag attrs
      [Text (JS.slice d 0 o1);
       newMark a act [Text (JS.slice d o1 o2)];
       Text (JS.sliceFrom d o2)].
Proof.
  intros Hs He Htag H0 H12 H2 Hse.
  assert (forall o w,
            findSourcePosition (Element tag attrs [Text d]) [0]%nat o w
            = Some (Z.min (s + (0 + o)) e)) as Hf.
  { intros o w. unfold findSourcePosition. simpl. rewrite Hs, He.
    unfold getTextOffsetInElement. simpl. now destruct w. }
  rewrite !Hf.
  intros Hstart Hend. inversion Hstart as [Ha]. inversion Hend as [Hb].
  unfold wrapInElement, sourceSpan. rewrite Hs, He.
  rewrite <- Ha, <- Hb.
  rewrite !Z.min_l by lia.
  destruct (Z.geb_spec s (s + o2)); [lia|].
  destruct (Z.leb_spec e (s + o1)); [lia|].
  cbn [orb textNodes map app fst snd wrapFirstText]. cbv zeta.
  replace (Z.max 0 (s + o1 - s)) with o1 by lia.
  replace (Z.min (e - s) (s + o2 - s)) with o2 by lia.
  destruct (Z.ltb_spec 0 o2); [|lia].
  destruct (Z.gtb_spec (0 + JS.length d) o1); [|lia].
  replace (Z.max 0 (o1 - 0)) with o1 by lia.
  replace (Z.min (JS.length d) (o2 - 0)) with o2 by lia.
  destruct (Z.ltb_spec o1 o2); [|lia].
  unfold parentTagName. cbn [removelast getNode].
  destruct (String.eqb_spec tag "MARK"); [contradiction|].
  reflexivity.
Qed.

Lemma highlight_wraps_selection_witness :
  wrapInElement (annAt "a" 13 17) false
    (Element "P" (sourceAttributes 0 17) [Text "The API uses REST"])
  = Element "P" (sourceAttributes 0 17)
      [Text "The API uses "; newMark (annAt "a" 13 17) false [Text "REST"];
       Text ""].
Proof.
  apply (highlight_wraps_selection "P" (sourceAttributes 0 17)
           "The API uses REST" 0 17 13 17 (annAt "a" 13 17) false);
    try reflexivity; try lia; try discriminate.
Defined.

End RoundTrip.
